(** * Bulk junk-file creation scripts: batch dispatch and staged retry

    A shallow embedding of the two scripts of the repository,
    [src/org/pyhon.py] (module [Org]) and [src/repo/python.py] (module
    [Repo]), and the properties of their batch dispatcher and retry
    coordinator.

    Python code is embedded as programs over a small effect signature
    (the PyGithub calls, [time.sleep], [print], [random.choice]).  A
    program is run sequentially against an arbitrary reactive environment
    ([run]), which returns the value or the exception, the final
    environment and the trace of effects; the thread pool of
    [concurrent.futures] is a step machine over the same programs. *)

From Stdlib Require Import ZArith Lia Ascii.
From stdpp Require Import base tactics option list strings pretty gmap.

Local Open Scope Z_scope.

(** ** Python values and exceptions *)

(** The exceptions the scripts distinguish: [github.GithubException]
    with its HTTP status, and any other subclass of [Exception] (a
    transport error, [ValueError], ...), of which only the text
    [str(err)] is ever inspected. *)
Inductive exn : Type :=
| GithubException (status : Z) (data : string)
| PyException (text : string).

(** [str(e)]: PyGithub prints the status followed by the payload. *)
Definition str_exn (e : exn) : string :=
  match e with
  | GithubException status data => pretty status +:+ " " +:+ data
  | PyException text => text
  end.

Inductive outcome (A : Type) : Type :=
| Ok (a : A)
| Exn (e : exn).
Arguments Ok {A} a.
Arguments Exn {A} e.

(** A repository handle ([github.Repository]); the scripts read only
    its [name]. *)
Record Repository : Type := mkRepository { repo_name : string }.

(** What [repo.get_contents] returns; the scripts read only [sha]. *)
Record ContentFile : Type := mkContentFile { sha : string }.

(** The organisation (or user) handle that owns the repositories. *)
Record Organization : Type := mkOrganization { login : string }.

(** A failed task, the tuple [(repo, file_index, file_size)]. *)
Definition task : Type := Repository * Z * Z.

(** What [create_junk_file] of the organisation script returns: [True]
    or the task tuple. *)
Inductive py_result : Type :=
| RTrue
| RTuple (t : task).

(** [config.get(key, default)] on the dictionary read from config.txt. *)
Definition config_get (config : gmap string string) (key dflt : string) : string :=
  default dflt (config !! key).

(** ** String helpers of the Python standard library *)

Definition newline : string := String (Ascii.ascii_of_nat 10) "".
Definition double_quote : string := String (Ascii.ascii_of_nat 34) "".

(** [needle in haystack] for strings. *)
Fixpoint str_contains (needle haystack : string) : bool :=
  String.prefix needle haystack ||
  match haystack with
  | EmptyString => false
  | String _ rest => str_contains needle rest
  end.

(** [sep.join(parts)]. *)
Fixpoint str_join (sep : string) (parts : list string) : string :=
  match parts with
  | [] => ""
  | [p] => p
  | p :: rest => p +:+ sep +:+ str_join sep rest
  end.

Definition ascii_lower (a : ascii) : ascii :=
  let n := Ascii.nat_of_ascii a in
  if ((65 <=? n) && (n <=? 90))%nat then Ascii.ascii_of_nat (n + 32) else a.

(** [s.lower()] on ASCII text. *)
Fixpoint str_lower (s : string) : string :=
  match s with
  | EmptyString => EmptyString
  | String a rest => String (ascii_lower a) (str_lower rest)
  end.

(** The ASCII characters for which [str.isspace] holds. *)
Definition ascii_isspace (a : ascii) : bool :=
  let n := Ascii.nat_of_ascii a in
  (((9 <=? n) && (n <=? 13)) || ((28 <=? n) && (n <=? 32)))%nat.

Fixpoint str_lstrip (s : string) : string :=
  match s with
  | EmptyString => EmptyString
  | String a rest => if ascii_isspace a then str_lstrip rest else s
  end.

(** [s.strip()]. *)
Definition str_strip (s : string) : string :=
  String.rev (str_lstrip (String.rev (str_lstrip s))).

(** [string.ascii_letters + string.digits + string.punctuation]. *)
Definition characters : string :=
  "abcdefghijklmnopqrstuvwxyzABCDEFGHIJKLMNOPQRSTUVWXYZ" +:+ "0123456789" +:+
  "!" +:+ double_quote +:+ "#$%&'()*+,-./:;<=>?@[\]^_`{|}~".

(** [range(start, stop)] on integers; empty when [stop <= start]. *)
Definition py_range (start stop : Z) : list Z :=
  (λ i : nat, start + Z.of_nat i) <$> seq 0 (Z.to_nat (stop - start)).

(** ** Effects *)

(** The calls a script makes to the outside: the four PyGithub calls,
    [time.sleep], [print] and [random.choice]. *)
Inductive call : Type :=
| create_repo (org : Organization) (name : string) (auto_init : bool)
    (description : string) (private : bool)
| create_file (repo : Repository) (path message content : string)
| get_contents (repo : Repository) (path : string)
| update_file (repo : Repository) (path message content sha : string)
| sleep (seconds : Z)
| print (text : string)
| random_choice (population : string).

(** What each call gives back.  [random_choice] answers with a position;
    the chosen character is the one at that position modulo the length
    of the population. *)
Definition resp (c : call) : Type :=
  match c with
  | create_repo _ _ _ _ _ => outcome Repository
  | create_file _ _ _ _ => outcome unit
  | get_contents _ _ => outcome ContentFile
  | update_file _ _ _ _ _ => outcome unit
  | sleep _ => unit
  | print _ => unit
  | random_choice _ => nat
  end.

(** One entry of a trace: a call and the answer it got. *)
Record event : Type := Ev { ev_call : call; ev_resp : resp ev_call }.

(** A remote call on an item (file) of a repository. *)
Definition is_item_call (c : call) : bool :=
  match c with
  | create_file _ _ _ _ | get_contents _ _ | update_file _ _ _ _ _ => true
  | _ => false
  end.

Definition is_create_file (c : call) : bool :=
  match c with create_file _ _ _ _ => true | _ => false end.

Definition is_sleep (c : call) : bool :=
  match c with sleep _ => true | _ => false end.

(** ** Programs *)

(** A Python function body: it returns, raises, or makes a call and
    goes on with the answer. *)
Inductive prog (A : Type) : Type :=
| Ret (a : A)
| Raise (e : exn)
| Vis (c : call) (k : resp c → prog A).
Arguments Ret {A} a.
Arguments Raise {A} e.
Arguments Vis {A} c k.

Fixpoint bind {A B : Type} (p : prog A) (f : A → prog B) : prog B :=
  match p with
  | Ret a => f a
  | Raise e => Raise e
  | Vis c k => Vis c (λ r, bind (k r) f)
  end.

(** [try: p except ... as e: h e]; a handler that does not match
    re-raises.  An exception raised by the handler itself is not caught
    by the same statement. *)
Fixpoint try_except {A : Type} (p : prog A) (h : exn → prog A) : prog A :=
  match p with
  | Ret a => Ret a
  | Raise e => h e
  | Vis c k => Vis c (λ r, try_except (k r) h)
  end.

(** A call whose answer is a value or an exception, raised in place. *)
Definition raising {A : Type} (c : call) (get : resp c → outcome A) : prog A :=
  Vis c (λ r, match get r with Ok a => Ret a | Exn e => Raise e end).

(** A call that cannot fail. *)
Definition perform (c : call) : prog (resp c) := Vis c Ret.

Global Instance prog_ret : MRet prog := @Ret.
Global Instance prog_bind : MBind prog := λ A B f p, bind p f.

(** [time.sleep(seconds)] and [print(text)]. *)
Definition time_sleep (seconds : Z) : prog unit := Vis (sleep seconds) Ret.
Definition py_print (text : string) : prog unit := Vis (print text) Ret.

(** [if condition: body], for a body run for its effects. *)
Definition when (condition : bool) (body : prog unit) : prog unit :=
  if condition then body else mret ().

(** ** Sequential execution *)

Section Run.
Context {Env : Type}.
(** The environment: whatever the remote service, the clock and the
    random source do, as a function of their state. *)
Variable react : ∀ c : call, Env → resp c * Env.

Fixpoint run {A : Type} (p : prog A) (env : Env) : outcome A * Env * list event :=
  match p with
  | Ret a => (Ok a, env, [])
  | Raise e => (Exn e, env, [])
  | Vis c k =>
      let '(r, env1) := react c env in
      let '(o, env2, tr) := run (k r) env1 in
      (o, env2, Ev c r :: tr)
  end.

End Run.

(** ** The thread pool of [concurrent.futures] *)

(** The pool is a step machine.  Work items are programs; a worker picks
    up the oldest queued item when fewer than [max_workers] items are
    running, and then runs it one call at a time, so that the calls of
    the running items interleave in any order.  A finished item becomes
    a future that is done; [as_completed] yields the futures that are
    done in any order, and the collecting thread runs the body of its
    loop on each, one call at a time, while the workers go on.  When an
    exception leaves the loop body, the [with] block waits for the items
    that are left and the exception goes on from there.  A schedule
    fixes which of these steps happens next. *)

(** [ThreadPoolExecutor(max_workers)]: the constructor refuses a width
    that is not positive. *)
Definition ThreadPoolExecutor (max_workers : Z) : prog unit :=
  if decide (max_workers ≤ 0)
  then Raise (PyException "max_workers must be greater than 0")
  else mret ().

(** The thread that submitted the work and now iterates over
    [as_completed(futures)] inside the [with] block, with the value [S]
    its loop builds. *)
Inductive collector (S : Type) : Type :=
| Waiting (s : S)
    (* blocked in [as_completed]; the loop is over once nothing is left *)
| Handling (s : S) (body : prog S)
    (* running the loop body on a future, entered with [s] *)
| Leaving (s : S) (e : exn).
    (* an exception left the loop body: the [with] block is exiting and
       [shutdown(wait=True)] waits for the work that is left; [s] is the
       value the body was entered with, which is what the loop has built
       when the body raises before changing it, as [future.result()]
       does *)
Arguments Waiting {S} s.
Arguments Handling {S} s body.
Arguments Leaving {S} s e.

(** A pool in the middle of a batch.  [R] is what a work item returns. *)
Record pool (Env R S : Type) : Type := mkPool {
  pool_env : Env;
  pool_trace : list event;
  max_workers : Z;
  queued : list (prog R);      (* submitted, not yet picked up, oldest first *)
  running : list (prog R);     (* in a worker thread *)
  finished : list (outcome R); (* futures that are done and not yet yielded *)
  main : collector S
}.
Arguments mkPool {Env R S}.
Arguments pool_env {Env R S}.
Arguments pool_trace {Env R S}.
Arguments max_workers {Env R S}.
Arguments queued {Env R S}.
Arguments running {Env R S}.
Arguments finished {Env R S}.
Arguments main {Env R S}.

(** What the scheduler can let happen next. *)
Inductive choice : Type :=
| Start             (* a free worker picks up the oldest queued item *)
| Work (i : nat)    (* worker [i] makes its next call, or finishes *)
| Yield (j : nat)   (* [as_completed] yields the finished future [j] *)
| Collect.          (* the collecting thread goes on with the loop body *)

Section Pool.
Context {Env R S : Type}.
Variable react : ∀ c : call, Env → resp c * Env.
(** The body of the [for future in as_completed(futures)] loop, given
    what the future holds and the value built so far. *)
Variable body : outcome R → S → prog S.

Definition pool_step (ch : choice) (p : pool Env R S) : option (pool Env R S) :=
  match ch with
  | Start =>
      match queued p with
      | item :: rest =>
          if decide (Z.of_nat (length (running p)) < max_workers p) then
            Some (mkPool (pool_env p) (pool_trace p) (max_workers p)
                    rest (running p ++ [item]) (finished p) (main p))
          else None
      | [] => None
      end
  | Work i =>
      match running p !! i with
      | Some (Vis c k) =>
          let '(r, env1) := react c (pool_env p) in
          Some (mkPool env1 (pool_trace p ++ [Ev c r]) (max_workers p)
                  (queued p) (<[i := k r]> (running p)) (finished p) (main p))
      | Some (Ret a) =>
          Some (mkPool (pool_env p) (pool_trace p) (max_workers p)
                  (queued p) (delete i (running p)) (finished p ++ [Ok a]) (main p))
      | Some (Raise e) =>
          Some (mkPool (pool_env p) (pool_trace p) (max_workers p)
                  (queued p) (delete i (running p)) (finished p ++ [Exn e]) (main p))
      | None => None
      end
  | Yield j =>
      match main p, finished p !! j with
      | Waiting s, Some future =>
          Some (mkPool (pool_env p) (pool_trace p) (max_workers p)
                  (queued p) (running p) (delete j (finished p))
                  (Handling s (body future s)))
      | _, _ => None
      end
  | Collect =>
      match main p with
      | Handling s (Vis c k) =>
          let '(r, env1) := react c (pool_env p) in
          Some (mkPool env1 (pool_trace p ++ [Ev c r]) (max_workers p)
                  (queued p) (running p) (finished p) (Handling s (k r)))
      | Handling s (Ret s') =>
          Some (mkPool (pool_env p) (pool_trace p) (max_workers p)
                  (queued p) (running p) (finished p) (Waiting s'))
      | Handling s (Raise e) =>
          Some (mkPool (pool_env p) (pool_trace p) (max_workers p)
                  (queued p) (running p) (finished p) (Leaving s e))
      | _ => None
      end
  end.

(** A schedule, step by step; [None] when it asks for a step that
    cannot happen. *)
Fixpoint pool_exec (sched : list choice) (p : pool Env R S) : option (pool Env R S) :=
  match sched with
  | [] => Some p
  | ch :: later => p' ← pool_step ch p; pool_exec later p'
  end.

(** How the [with] block ends, once every work item is over: the value
    built by the loop, and the exception that left the loop if any. *)
Definition pool_result (p : pool Env R S) : option (S * option exn) :=
  match queued p, running p, main p with
  | [], [], Waiting s =>
      match finished p with
      | [] => Some (s, None)
      | _ :: _ => None
      end
  | [], [], Leaving s e => Some (s, Some e)
  | _, _, _ => None
  end.

(** The pool right after the futures were submitted. *)
Definition pool_start (env : Env) (tr : list event) (width : Z)
    (items : list (prog R)) (s : S) : pool Env R S :=
  mkPool env tr width items [] [] (Waiting s).

End Pool.

(** ** Helpers that both scripts define identically *)

(** The character [random.choice] picks, as a string of length one. *)
Definition chosen (population : string) (position : nat) : string :=
  match String.get (position mod String.length population) population with
  | Some a => String a ""
  | None => ""
  end.

Fixpoint random_choices (n : nat) : prog (list string) :=
  match n with
  | O => mret []
  | S m =>
      position ← perform (random_choice characters);
      rest ← random_choices m;
      mret (chosen characters position :: rest)
  end.

(** [random_string_newlined]: [length] random characters, one per line. *)
Definition random_string_newlined (length : Z) : prog string :=
  parts ← random_choices (Z.to_nat length);
  mret (str_join newline parts).

Definition file_name_of (config : gmap string string) (file_index : Z) : string :=
  let file_prefix := config_get config "FILE_NAME_PREFIX" "junk-" in
  let file_ext := config_get config "FILE_EXTENSION" "txt" in
  file_prefix +:+ pretty file_index +:+ "." +:+ file_ext.

Definition commit_message_of (file_name : string) : string :=
  "Add/Update file " +:+ file_name +:+ " with junk content".

(** The tail of every message of [create_junk_file]:
    ['{file_name}' in repository '{repo.name}']. *)
Definition in_repository (file_name : string) (repo : Repository) : string :=
  "'" +:+ file_name +:+ "' in repository '" +:+ repo_name repo +:+ "'".

(** ** The organisation script, [src/org/pyhon.py] *)

Module Org.

(** Global constants for retry behaviour. *)
Definition MAX_RETRIES : Z := 3.
Definition RETRY_DELAY : Z := 5.
Definition RATE_LIMIT_DELAY : Z := 60.

(** [create_junk_file], lines 50-102. *)
Definition create_junk_file (repo : Repository) (file_index file_size : Z)
    (config : gmap string string) : prog py_result :=
  let file_name := file_name_of config file_index in
  content ← random_string_newlined file_size;
  let commit_message := commit_message_of file_name in
  try_except
    (raising (create_file repo file_name commit_message content) id;;
     py_print ("  • Created file " +:+ in_repository file_name repo);;
     mret RTrue)
    (λ e,
       match e with
       | GithubException status _ =>
           if decide (status = 409) then
             (* File conflict: file exists. Try to update. *)
             try_except
               (current_content ← raising (get_contents repo file_name) id;
                raising (update_file repo file_name commit_message content
                           (sha current_content)) id;;
                py_print ("  • Updated file " +:+ in_repository file_name repo);;
                mret RTrue)
               (λ update_err,
                  match update_err with
                  | GithubException _ _ =>
                      py_print ("  • Error updating file " +:+
                                in_repository file_name repo +:+ ": " +:+
                                str_exn update_err);;
                      mret (RTuple (repo, file_index, file_size))
                  | PyException _ => Raise update_err
                  end)
           else if decide (status = 403) then
             (* 403 Forbidden: Likely due to rate limiting or insufficient
                permissions. *)
             py_print ("  • 403 Forbidden error for file " +:+
                       in_repository file_name repo +:+ ": " +:+ str_exn e);;
             py_print ("    Waiting for " +:+ pretty RATE_LIMIT_DELAY +:+
                       " seconds before retrying.");;
             time_sleep RATE_LIMIT_DELAY;;
             mret (RTuple (repo, file_index, file_size))
           else
             py_print ("  • Error creating file " +:+
                       in_repository file_name repo +:+ ": " +:+ str_exn e);;
             mret (RTuple (repo, file_index, file_size))
       | PyException _ =>
           let err_str := str_exn e in
           if str_contains "403" err_str then
             py_print ("  • 403 Forbidden error for file " +:+
                       in_repository file_name repo +:+ ": " +:+ err_str);;
             py_print ("    Waiting for " +:+ pretty RATE_LIMIT_DELAY +:+
                       " seconds before retrying.");;
             time_sleep RATE_LIMIT_DELAY;;
             mret (RTuple (repo, file_index, file_size))
           else
             py_print ("  • Error creating file " +:+
                       in_repository file_name repo +:+ ": " +:+ err_str);;
             mret (RTuple (repo, file_index, file_size))
       end).

(** [if result is not True: failures.append(result)]. *)
Definition append_failure (failures : list task) (result : py_result) : list task :=
  match result with
  | RTrue => failures
  | RTuple t => failures ++ [t]
  end.

(** [max_workers_files = 1 if slow_mode else num_files], line 127. *)
Definition max_workers_files (slow_mode : bool) (num_files : Z) : Z :=
  if slow_mode then 1 else num_files.

Definition repo_name_of (config : gmap string string) (repo_index : Z) : string :=
  config_get config "REPO_NAME_PREFIX" "junk-repo-" +:+ pretty repo_index.

(** [process_repo] from its first line to the creation of the pool,
    lines 111-128: the repository is created, then the executor. *)
Definition process_repo_setup (repo_index num_files : Z) (org : Organization)
    (config : gmap string string) (slow_mode : bool) : prog Repository :=
  let repo_name := repo_name_of config repo_index in
  let repo_description :=
    config_get config "REPO_DESCRIPTION" "Repository filled with junk content" in
  let private_repo :=
    bool_decide (str_lower (str_strip (config_get config "PRIVATE_REPO" "False")) = "true") in
  repo ← raising (create_repo org repo_name true repo_description private_repo) id;
  py_print ("Created repository: " +:+ repo_name);;
  ThreadPoolExecutor (max_workers_files slow_mode num_files);;
  mret repo.

(** The work items submitted to the pool, lines 129-132. *)
Definition file_futures (repo : Repository) (num_files file_size : Z)
    (config : gmap string string) : list (prog py_result) :=
  (λ i, create_junk_file repo i file_size config) <$> py_range 1 (num_files + 1).

(** The body of the loop over [as_completed(futures)], lines 134-139;
    [future.result()] re-raises what the work item raised. *)
Definition collect_result (slow_mode : bool) (future : outcome py_result)
    (failed_files : list task) : prog (list task) :=
  result ← match future with Ok result => mret result | Exn e => Raise e end;
  let failed_files := append_failure failed_files result in
  when slow_mode (time_sleep 1);;
  mret failed_files.

(** The handler of line 141. *)
Definition report_repo_error (config : gmap string string) (repo_index : Z)
    (err : exn) : prog unit :=
  py_print ("Error creating repository '" +:+ repo_name_of config repo_index +:+
            "': " +:+ str_exn err).

(** The pool of [process_repo] when the loop over the futures begins. *)
Definition process_repo_pool {Env : Type} (repo : Repository) (num_files file_size : Z)
    (config : gmap string string) (slow_mode : bool) (env : Env) (tr : list event) :
    pool Env py_result (list task) :=
  pool_start env tr (max_workers_files slow_mode num_files)
    (file_futures repo num_files file_size config) [].

(** [process_repo], lines 104-143, under a schedule of its pool: the
    list it returns, the environment it leaves and its trace; [None]
    when the schedule cannot happen or stops before the batch is over.
    Whatever is raised inside the [try] is caught at line 140, so the
    function always returns [failed_files]. *)
Definition process_repo {Env : Type} (react : ∀ c : call, Env → resp c * Env)
    (sched : list choice) (repo_index num_files file_size : Z) (org : Organization)
    (config : gmap string string) (slow_mode : bool) (env : Env) :
    option (list task * Env * list event) :=
  let '(created, env1, tr1) :=
    run react (process_repo_setup repo_index num_files org config slow_mode) env in
  match created with
  | Exn err =>
      let '(_, env2, tr2) := run react (report_repo_error config repo_index err) env1 in
      Some ([], env2, tr1 ++ tr2)
  | Ok repo =>
      p ← pool_exec react (collect_result slow_mode) sched
            (process_repo_pool repo num_files file_size config slow_mode env1 tr1);
      '(failed_files, raised) ← pool_result p;
      match raised with
      | None => Some (failed_files, pool_env p, pool_trace p)
      | Some err =>
          let '(_, env2, tr2) :=
            run react (report_repo_error config repo_index err) (pool_env p) in
          Some (failed_files, env2, pool_trace p ++ tr2)
      end
  end.

(** The [for task in failed_tasks] loop of [retry_failed_files], with
    the list [new_failures] built so far. *)
Fixpoint retry_loop (failed_tasks : list task) (config : gmap string string)
    (slow_mode : bool) (new_failures : list task) : prog (list task) :=
  match failed_tasks with
  | [] => mret new_failures
  | (repo, file_index, file_size) :: rest =>
      when slow_mode (time_sleep 1);;
      result ← create_junk_file repo file_index file_size config;
      retry_loop rest config slow_mode (append_failure new_failures result)
  end.

(** [retry_failed_files], lines 145-159. *)
Definition retry_failed_files (failed_tasks : list task)
    (config : gmap string string) (slow_mode : bool) : prog (list task) :=
  retry_loop failed_tasks config slow_mode [].

(** The [for attempt in range(MAX_RETRIES)] loop of [main], lines
    213-221; [break] leaves the loop with the current list. *)
Fixpoint retry_rounds (attempts : list Z) (global_failed_files : list task)
    (config : gmap string string) (slow_mode : bool) : prog (list task) :=
  match attempts with
  | [] => mret global_failed_files
  | attempt :: later =>
      py_print (newline +:+ "Retry attempt " +:+ pretty (attempt + 1) +:+ ":");;
      still_failed ← retry_failed_files global_failed_files config slow_mode;
      match still_failed with
      | [] =>
          py_print "All previously failed file tasks have succeeded on retry.";;
          mret still_failed
      | _ :: _ =>
          py_print (pretty (length still_failed) +:+ " file(s) still failed.");;
          time_sleep RETRY_DELAY;;
          retry_rounds later still_failed config slow_mode
      end
  end.

Definition final_report (global_failed_files : list task) : string :=
  newline +:+ "After " +:+ pretty MAX_RETRIES +:+ " retry attempts, " +:+
  pretty (length global_failed_files) +:+
  " file(s) still failed to be created/updated.".

(** The global retry of [main], lines 209-225, as a function of the
    merged failure list; it yields the final value of
    [global_failed_files]. *)
Definition main_retry (global_failed_files : list task)
    (config : gmap string string) (slow_mode : bool) : prog (list task) :=
  match global_failed_files with
  | _ :: _ =>
      py_print (newline +:+ "Retrying " +:+ pretty (length global_failed_files) +:+
                " failed file creation/update task(s) after a delay of " +:+
                pretty RETRY_DELAY +:+ " seconds...");;
      time_sleep RETRY_DELAY;;
      remaining ← retry_rounds (py_range 0 MAX_RETRIES) global_failed_files
                    config slow_mode;
      match remaining with
      | _ :: _ => py_print (final_report remaining);; mret remaining
      | [] => mret remaining
      end
  | [] =>
      py_print (newline +:+ "All files created/updated successfully on the first pass.");;
      mret []
  end.

End Org.

(** ** Concrete environments *)

Module Scenario.

(** A remote service without memory: it answers every call of a kind
    the same way. *)
Record service : Type := mkService {
  on_create_repo : outcome Repository;
  on_create_file : outcome unit;
  on_get_contents : outcome ContentFile;
  on_update_file : outcome unit
}.

Definition react_service (s : service) (c : call) (env : unit) : resp c * unit :=
  match c return resp c * unit with
  | create_repo _ _ _ _ _ => (on_create_repo s, env)
  | create_file _ _ _ _ => (on_create_file s, env)
  | get_contents _ _ => (on_get_contents s, env)
  | update_file _ _ _ _ _ => (on_update_file s, env)
  | sleep _ => ((), env)
  | print _ => ((), env)
  | random_choice _ => (0%nat, env)
  end.

Definition the_repo : Repository := mkRepository "junk-repo-1".

Definition healthy : service :=
  mkService (Ok the_repo) (Ok ()) (Ok (mkContentFile "abc123")) (Ok ()).

(** Every create is refused with the given exception. *)
Definition refusing (e : exn) : service :=
  mkService (Ok the_repo) (Exn e) (Ok (mkContentFile "abc123")) (Ok ()).

End Scenario.

(** ** The single-repository script, [src/repo/python.py] *)

Module Repo.

(** [create_junk_file], lines 44-86; it returns [None]. *)
Definition create_junk_file (repo : Repository) (file_index file_size : Z)
    (config : gmap string string) : prog unit :=
  let file_name := file_name_of config file_index in
  content ← random_string_newlined file_size;
  let commit_message := commit_message_of file_name in
  try_except
    (raising (create_file repo file_name commit_message content) id;;
     py_print ("Created file " +:+ in_repository file_name repo +:+ "."))
    (λ e,
       match e with
       | GithubException status _ =>
           if decide (status = 409) then
             (* File already exists; attempt update. *)
             try_except
               (current_content ← raising (get_contents repo file_name) id;
                raising (update_file repo file_name commit_message content
                           (sha current_content)) id;;
                py_print ("Updated file " +:+ in_repository file_name repo +:+ "."))
               (λ update_err,
                  match update_err with
                  | GithubException _ _ =>
                      py_print ("Error updating file " +:+ in_repository file_name repo +:+
                                ": " +:+ str_exn update_err)
                  | PyException _ => Raise update_err
                  end)
           else if decide (status = 403) then
             (* 403 Forbidden: likely due to rate limiting or permission issues. *)
             py_print ("403 Forbidden error for file " +:+
                       in_repository file_name repo +:+ ": " +:+ str_exn e);;
             py_print "Waiting 60 seconds before retrying the update.";;
             time_sleep 60;;
             try_except
               (current_content ← raising (get_contents repo file_name) id;
                raising (update_file repo file_name commit_message content
                           (sha current_content)) id;;
                py_print ("Updated file '" +:+ file_name +:+
                          "' after delay in repository '" +:+ repo_name repo +:+ "'."))
               (λ update_err,
                  match update_err with
                  | GithubException _ _ =>
                      py_print ("Error updating file '" +:+ file_name +:+
                                "' after delay in repository '" +:+ repo_name repo +:+
                                "': " +:+ str_exn update_err)
                  | PyException _ => Raise update_err
                  end)
           else
             py_print ("Error creating file " +:+
                       in_repository file_name repo +:+ ": " +:+ str_exn e)
       | PyException _ => Raise e
       end).

(** [max_workers = 1 if slow_mode else num_files], line 141. *)
Definition max_workers_of (slow_mode : bool) (num_files : Z) : Z :=
  if slow_mode then 1 else num_files.

(** The work items submitted to the pool, lines 144-147. *)
Definition file_futures (repo : Repository) (num_files file_size : Z)
    (config : gmap string string) : list (prog unit) :=
  (λ i, create_junk_file repo i file_size config) <$> py_range 1 (num_files + 1).

(** The body of the loop over [as_completed(futures)], lines 149-154. *)
Definition collect_result (slow_mode : bool) (future : outcome unit) (_ : unit) :
    prog unit :=
  try_except
    (match future with Ok _ => mret () | Exn e => Raise e end)
    (λ e, py_print ("An error occurred during file processing: " +:+ str_exn e));;
  when slow_mode (time_sleep 1).

(** The pool of [main] when the loop over the futures begins. *)
Definition main_pool {Env : Type} (repo : Repository) (num_files file_size : Z)
    (config : gmap string string) (slow_mode : bool) (env : Env) :
    pool Env unit unit :=
  pool_start env [] (max_workers_of slow_mode num_files)
    (file_futures repo num_files file_size config) ().

(** The batch of [main], lines 140-154, under a schedule of its pool.
    Nothing here is inside a [try]: what the constructor of the pool
    raises leaves [main]. *)
Definition main_dispatch {Env : Type} (react : ∀ c : call, Env → resp c * Env)
    (sched : list choice) (repo : Repository) (num_files file_size : Z)
    (config : gmap string string) (slow_mode : bool) (env : Env) :
    option (outcome unit * Env * list event) :=
  let '(made, env1, tr1) :=
    run react (ThreadPoolExecutor (max_workers_of slow_mode num_files)) env in
  match made with
  | Exn err => Some (Exn err, env1, tr1)
  | Ok _ =>
      p ← pool_exec react (collect_result slow_mode) sched
            (main_pool repo num_files file_size config slow_mode env1);
      '(_, raised) ← pool_result p;
      match raised with
      | None => Some (Ok (), pool_env p, pool_trace p)
      | Some err => Some (Exn err, pool_env p, pool_trace p)
      end
  end.

End Repo.

(** ** Reading traces *)

(** The calls of a trace, in order. *)
Definition calls (tr : list event) : list call := ev_call <$> tr.

(** The remote item calls of a trace, in order. *)
Definition item_calls (tr : list event) : list call := filter is_item_call (calls tr).

(** The waits of a trace, in order. *)
Definition sleeps (tr : list event) : list call := filter is_sleep (calls tr).

(** The answer an event carries when it is a [create_file] call. *)
Definition create_answer (ev : event) : option (outcome unit) :=
  match ev with
  | Ev (create_file _ _ _ _) r => Some r
  | _ => None
  end.

(** The answer an event carries when it is a [get_contents] call. *)
Definition get_answer (ev : event) : option (outcome ContentFile) :=
  match ev with
  | Ev (get_contents _ _) r => Some r
  | _ => None
  end.

(** The answer an event carries when it is an [update_file] call. *)
Definition update_answer (ev : event) : option (outcome unit) :=
  match ev with
  | Ev (update_file _ _ _ _ _) r => Some r
  | _ => None
  end.

(** How the organisation script classifies the exception of a create:
    status 403, or any other exception whose text mentions 403. *)
Definition rate_limited (e : exn) : bool :=
  match e with
  | GithubException status _ => bool_decide (status = 403)
  | PyException text => str_contains "403" text
  end.

(** Status 409: the file already exists. *)
Definition conflict (e : exn) : bool :=
  match e with
  | GithubException status _ => bool_decide (status = 409)
  | PyException _ => false
  end.

(** ** Messages, rounds and waits *)

(** Whether a message begins with a line break, as the messages of
    [main] that open a retry round do and those of [create_junk_file]
    do not. *)
Definition leading_newline (text : string) : bool :=
  match text with
  | String a _ => bool_decide (a = Ascii.ascii_of_nat 10)
  | EmptyString => false
  end.

(** The message that opens a retry round, [Retry attempt k:]. *)
Definition is_round_start (c : call) : bool :=
  match c with
  | print text => String.prefix (newline +:+ "Retry attempt ") text
  | _ => false
  end.

(** The rounds begun in a trace. *)
Definition rounds (tr : list event) : nat :=
  length (filter is_round_start (calls tr)).

(** The wait between rounds, [time.sleep(RETRY_DELAY)]. *)
Definition is_round_wait (c : call) : bool :=
  match c with
  | sleep seconds => bool_decide (seconds = Org.RETRY_DELAY)
  | _ => false
  end.

(** The waits between rounds in a trace. *)
Definition round_waits (tr : list event) : nat :=
  length (filter is_round_wait (calls tr)).

(** A call that is part of an attempt: it neither opens a round nor is
    the wait between rounds. *)
Definition within_round (c : call) : Prop :=
  is_round_start c = false ∧ is_round_wait c = false.

(** The message that opens round [attempt + 1]. *)
Definition round_message (attempt : Z) : string :=
  newline +:+ "Retry attempt " +:+ pretty (attempt + 1) +:+ ":".

Definition success_message : string :=
  "All previously failed file tasks have succeeded on retry.".

(** The exception that leaves a run came out of the last read or update
    of the trace, and is not a [GithubException]. *)
Definition raised_by_update (e : exn) (tr : list event) : Prop :=
  ∃ text, e = PyException text ∧
    (last (omap get_answer tr) = Some (Exn e) ∨
     last (omap update_answer tr) = Some (Exn e)).

(** The message that announces the retries. *)
Definition retrying_message (failed : list task) : string :=
  newline +:+ "Retrying " +:+ pretty (length failed) +:+
  " failed file creation/update task(s) after a delay of " +:+
  pretty Org.RETRY_DELAY +:+ " seconds...".

(** The round messages and the waits between rounds of a trace, in
    order. *)
Definition round_schedule (tr : list event) : list call :=
  filter (λ c, is_round_start c || is_round_wait c) (calls tr).

(** ** Shapes of an attempt and of a round *)

(** What a run of [Org.create_junk_file] can look like once the content
    has been drawn: the answer it returns (or the exception it raises)
    and the trace it leaves, one constructor per path through the [try]
    statement of lines 69-102. *)
Inductive attempt_shape (repo : Repository) (file_index file_size : Z)
    (config : gmap string string) (content : string) :
    outcome py_result → list event → Prop :=
| shape_created text :
    leading_newline text = false →
    attempt_shape repo file_index file_size config content (Ok RTrue)
      [Ev (create_file repo (file_name_of config file_index)
             (commit_message_of (file_name_of config file_index)) content) (Ok ());
       Ev (print text) ()]
| shape_updated e current text :
    leading_newline text = false →
    conflict e = true →
    attempt_shape repo file_index file_size config content (Ok RTrue)
      [Ev (create_file repo (file_name_of config file_index)
             (commit_message_of (file_name_of config file_index)) content) (Exn e);
       Ev (get_contents repo (file_name_of config file_index)) (Ok current);
       Ev (update_file repo (file_name_of config file_index)
             (commit_message_of (file_name_of config file_index)) content (sha current)) (Ok ());
       Ev (print text) ()]
| shape_read_refused e status data text :
    leading_newline text = false →
    conflict e = true →
    attempt_shape repo file_index file_size config content
      (Ok (RTuple (repo, file_index, file_size)))
      [Ev (create_file repo (file_name_of config file_index)
             (commit_message_of (file_name_of config file_index)) content) (Exn e);
       Ev (get_contents repo (file_name_of config file_index))
          (Exn (GithubException status data));
       Ev (print text) ()]
| shape_read_raised e raised :
    conflict e = true →
    attempt_shape repo file_index file_size config content
      (Exn (PyException raised))
      [Ev (create_file repo (file_name_of config file_index)
             (commit_message_of (file_name_of config file_index)) content) (Exn e);
       Ev (get_contents repo (file_name_of config file_index))
          (Exn (PyException raised))]
| shape_update_refused e current status data text :
    leading_newline text = false →
    conflict e = true →
    attempt_shape repo file_index file_size config content
      (Ok (RTuple (repo, file_index, file_size)))
      [Ev (create_file repo (file_name_of config file_index)
             (commit_message_of (file_name_of config file_index)) content) (Exn e);
       Ev (get_contents repo (file_name_of config file_index)) (Ok current);
       Ev (update_file repo (file_name_of config file_index)
             (commit_message_of (file_name_of config file_index)) content (sha current))
          (Exn (GithubException status data));
       Ev (print text) ()]
| shape_update_raised e current raised :
    conflict e = true →
    attempt_shape repo file_index file_size config content
      (Exn (PyException raised))
      [Ev (create_file repo (file_name_of config file_index)
             (commit_message_of (file_name_of config file_index)) content) (Exn e);
       Ev (get_contents repo (file_name_of config file_index)) (Ok current);
       Ev (update_file repo (file_name_of config file_index)
             (commit_message_of (file_name_of config file_index)) content (sha current))
          (Exn (PyException raised))]
| shape_rate_limited e text1 text2 :
    leading_newline text1 = false →
    leading_newline text2 = false →
    rate_limited e = true →
    attempt_shape repo file_index file_size config content
      (Ok (RTuple (repo, file_index, file_size)))
      [Ev (create_file repo (file_name_of config file_index)
             (commit_message_of (file_name_of config file_index)) content) (Exn e);
       Ev (print text1) ();
       Ev (print text2) ();
       Ev (sleep Org.RATE_LIMIT_DELAY) ()]
| shape_other e text :
    leading_newline text = false →
    conflict e = false →
    rate_limited e = false →
    attempt_shape repo file_index file_size config content
      (Ok (RTuple (repo, file_index, file_size)))
      [Ev (create_file repo (file_name_of config file_index)
             (commit_message_of (file_name_of config file_index)) content) (Exn e);
       Ev (print text) ()].

(** A trace that only draws random characters. *)
Definition only_random (tr : list event) : Prop :=
  Forall (λ c, ∃ population, c = random_choice population) (calls tr).

(** What the compensating read-then-update of lines 75-83 makes of the
    answers it gets: success, the operation's tuple when PyGithub
    refuses, and the exception itself when it is not a
    [GithubException]. *)
Definition after_conflict (t : task) (answer : outcome unit) : outcome py_result :=
  match answer with
  | Ok _ => Ok RTrue
  | Exn (GithubException _ _) => Ok (RTuple t)
  | Exn (PyException text) => Exn (PyException text)
  end.

(** The throttle of slow mode before each retried task. *)
Definition pause (slow_mode : bool) : list event :=
  if slow_mode then [Ev (sleep 1) ()] else [].

(** The trace of tasks attempted one after the other: the attempt of a
    task, from its pause to its last event, is over before the pause
    of the next task begins. *)
Inductive sequential_attempts (config : gmap string string) (slow_mode : bool) :
    list task → list event → Prop :=
| attempts_none : sequential_attempts config slow_mode [] []
| attempts_next repo file_index file_size rest content drawn attempt o later :
    only_random drawn →
    attempt_shape repo file_index file_size config content o attempt →
    sequential_attempts config slow_mode rest later →
    sequential_attempts config slow_mode ((repo, file_index, file_size) :: rest)
      (pause slow_mode ++ drawn ++ attempt ++ later).

(** The repository and path a [create_file] call is aimed at. *)
Definition create_target (c : call) : option (Repository * string) :=
  match c with
  | create_file repo path _ _ => Some (repo, path)
  | _ => None
  end.

(** The file an operation is about. *)
Definition target_of (config : gmap string string) (t : task) : Repository * string :=
  (t.1.1, file_name_of config t.1.2).

(** The files created along a trace, in order. *)
Definition created (tr : list event) : list (Repository * string) :=
  omap create_target (calls tr).

(** ** Properties of pools, batches and programs *)

(** No more work items run than the pool is wide. *)
Definition within_width {Env R S : Type} (p : pool Env R S) : Prop :=
  Z.of_nat (length (running p)) ≤ Z.max 0 (max_workers p).



(** The files of a batch: one per index from 1 to [num_files]. *)
Definition batch_targets (repo : Repository) (config : gmap string string)
    (num_files : Z) : list (Repository * string) :=
  (λ i, (repo, file_name_of config i)) <$> py_range 1 (num_files + 1).




(** A program that returns without an item call and without raising. *)
Inductive quiet {A : Type} : prog A → Prop :=
| quiet_ret a : quiet (Ret a)
| quiet_call c k : is_item_call c = false → (∀ r, quiet (k r)) → quiet (Vis c k).


(** A program defers on a rate limit when, in every run in which a
    create is refused with a rate-limited exception, that create is the
    only remote item call of the run and the run ends on the cool-down. *)
Definition defers_when_rate_limited {A : Type} (p : prog A) : Prop :=
  ∀ (Env : Type) (react : ∀ c : call, Env → resp c * Env) env o env' tr
    repo path message content e,
    run react p env = (o, env', tr) →
    Ev (create_file repo path message content) (Exn e) ∈ tr →
    rate_limited e = true →
    item_calls tr = [create_file repo path message content] ∧
    last (calls tr) = Some (sleep Org.RATE_LIMIT_DELAY).

(** ** Services and runs used as examples *)

(** A run against a service that refuses every create with status 403. *)
Definition forbidden : exn := GithubException 403 "API rate limit exceeded".

Definition org_forbidden_run : outcome py_result * unit * list event :=
  run (Scenario.react_service (Scenario.refusing forbidden))
      (Org.create_junk_file Scenario.the_repo 1 1 ∅) ().

Definition repo_forbidden_run : outcome unit * unit * list event :=
  run (Scenario.react_service (Scenario.refusing forbidden))
      (Repo.create_junk_file Scenario.the_repo 1 1 ∅) ().

(** A service on which the file already exists and the connection drops
    during the compensating update. *)
Definition connection_lost : exn := PyException "Connection aborted.".
Definition already_exists : exn := GithubException 409 "Conflict".

Definition dropping_on_update : Scenario.service :=
  Scenario.mkService (Ok Scenario.the_repo) (Exn already_exists)
    (Ok (mkContentFile "abc123")) (Exn connection_lost).

(** Two tasks retried against a service that answers every create with
    a server error. *)
Definition server_error : exn := GithubException 500 "Server Error".

Definition two_tasks : list task := [(Scenario.the_repo, 1, 1); (Scenario.the_repo, 2, 0)].

Definition failing_round (slow_mode : bool) : outcome (list task) * unit * list event :=
  run (Scenario.react_service (Scenario.refusing server_error))
      (Org.retry_failed_files two_tasks ∅ slow_mode) ().

(** One task retried against a service that answers every create with a
    server error: every round fails. *)
Definition one_task : list task := [(Scenario.the_repo, 1, 1)].

Definition exhausted_retry : outcome (list task) * unit * list event :=
  run (Scenario.react_service (Scenario.refusing server_error))
      (Org.main_retry one_task ∅ false) ().

(** A service on which the file already exists and the connection drops
    during the read that precedes the update. *)
Definition dropping_on_read : Scenario.service :=
  Scenario.mkService (Ok Scenario.the_repo) (Exn already_exists)
    (Exn connection_lost) (Ok ()).

Definition acme : Organization := mkOrganization "acme".

(** A service that accepts every item call and refuses to create the
    repository. *)
Definition repository_refused : exn := GithubException 422 "Repository creation failed.".

Definition refusing_repository : Scenario.service :=
  Scenario.mkService (Exn repository_refused) (Ok ()) (Ok (mkContentFile "abc123")) (Ok ()).

(** A schedule of a batch of two files in a pool 2 wide: both items
    are started, their calls interleave, and the second item finishes
    first. *)
Definition interleaved : list choice :=
  [Start; Start; Work 0; Work 1; Work 1; Work 0; Work 1; Work 1; Work 0;
   Yield 0; Collect; Work 0; Yield 0; Collect].

(** The global retry of one task against a service on which the file
    already exists and the connection drops during the compensating
    update. *)
Definition escaping_retry : outcome (list task) * unit * list event :=
  run (Scenario.react_service dropping_on_update)
      (Org.main_retry one_task ∅ false) ().

(** A round over two tasks against a service on which the file already
    exists and the connection drops during the read that precedes the
    update. *)
Definition abandoned_round : outcome (list task) * unit * list event :=
  run (Scenario.react_service dropping_on_read)
      (Org.retry_failed_files two_tasks ∅ false) ().

(** ** Reading the configuration file and the mode *)

(** Text in which every character is an ASCII character, the text on
    which [str_strip] and [str_lower] are [str.strip] and [str.lower]. *)
Definition is_ascii (a : ascii) : bool := (Ascii.nat_of_ascii a <? 128)%nat.

Fixpoint ascii_only (s : string) : bool :=
  match s with
  | EmptyString => true
  | String a rest => is_ascii a && ascii_only rest
  end.

(** [s.split(sep, 1)] for a separator of one character: the text before
    the first separator and the text after it, or the text alone when it
    holds no separator. *)
Fixpoint str_split_once (sep : ascii) (s : string) : list string :=
  match s with
  | EmptyString => [EmptyString]
  | String a rest =>
      if decide (a = sep) then [EmptyString; rest]
      else match str_split_once sep rest with
           | before :: after => String a before :: after
           | [] => []
           end
  end.

(** The body of the loop over the lines of config.txt, in both scripts
    (lines 30-36 and 23-29): the configuration after one more line.
    [key, value = line.split("=", 1)] raises [ValueError] when the split
    yields one piece. *)
Definition read_line (config : gmap string string) (line : string) :
    outcome (gmap string string) :=
  let line := str_strip line in
  if bool_decide (line = "") || String.prefix "#" line then Ok config
  else if negb (str_contains "=" line) then Ok config
  else
    match str_split_once "=" line with
    | [key; value] => Ok (<[str_strip key := str_strip value]> config)
    | _ => Exn (PyException "not enough values to unpack (expected 2, got 1)")
    end.

(** The loop [for line in f], from the configuration read so far. *)
Fixpoint read_lines (lines : list string) (config : gmap string string) :
    outcome (gmap string string) :=
  match lines with
  | [] => Ok config
  | line :: rest =>
      match read_line config line with
      | Ok config' => read_lines rest config'
      | Exn e => Exn e
      end
  end.

(** How [read_config] ends: [exit(1)] after a message, or the
    dictionary (or the exception) of the loop. *)
Inductive config_result : Type :=
| ConfigExit (printed : string) (code : Z)
| ConfigRead (config : outcome (gmap string string)).

Module OrgIO.

(** [read_config] of the organisation script, lines 13-37, given the
    path of config.txt and the lines of the file, [None] when the file
    does not exist. *)
Definition read_config (config_path : string) (file : option (list string)) :
    config_result :=
  match file with
  | None =>
      ConfigExit ("Config file '" +:+ config_path +:+
                  "' not found. Please create one with the required configurations.") 1
  | Some lines => ConfigRead (read_lines lines ∅)
  end.

(** [slow_mode] of [main], lines 178-179, from the answer typed at the
    prompt. *)
Definition slow_mode_of (answer : string) : bool :=
  let mode_input := str_lower (str_strip answer) in
  if bool_decide (mode_input = "s") then true else false.

End OrgIO.

Module RepoIO.

(** [read_config] of the single-repository script, lines 8-30. *)
Definition read_config (config_path : string) (file : option (list string)) :
    config_result :=
  match file with
  | None =>
      ConfigExit ("Config file '" +:+ config_path +:+
                  "' not found. Please ensure it is in the same folder as this script.") 1
  | Some lines => ConfigRead (read_lines lines ∅)
  end.

(** [slow_mode] of [main], lines 125-126. *)
Definition slow_mode_of (answer : string) : bool :=
  let mode_input := str_lower (str_strip answer) in
  if bool_decide (mode_input = "s") then true else false.

End RepoIO.

(** The characters of a text, in order. *)
Definition chars (s : string) : list ascii := String.list_ascii_of_string s.

(** White space taken off the front of a list of characters, off its
    end, and off both. *)
Fixpoint lstrip_chars (l : list ascii) : list ascii :=
  match l with
  | [] => []
  | a :: rest => if ascii_isspace a then lstrip_chars rest else l
  end.

Definition rstrip_chars (l : list ascii) : list ascii :=
  reverse (lstrip_chars (reverse l)).

Definition strip_chars (l : list ascii) : list ascii :=
  rstrip_chars (lstrip_chars l).

(** A list of white space. *)
Abbreviation spaces := (Forall (λ a : ascii, ascii_isspace a = true)).

(** The line that assigns [value] to [key] in config.txt. *)
Definition assignment (key value : string) : string :=
  key +:+ "=" +:+ value.

(** A key that a line of config.txt can assign: no white space at
    either end, no [=], and no [#] in front. *)
Definition config_key (key : string) : Prop :=
  str_strip key = key ∧ str_contains "=" key = false ∧ String.prefix "#" key = false.

(** Lines of ASCII text. *)
Definition ascii_lines (lines : list string) : Prop :=
  Forall (λ line, ascii_only line = true) lines.

(** A line that the loop passes over: blank, a comment, or without [=]. *)
Definition skipped (line : string) : Prop :=
  str_strip line = "" ∨ String.prefix "#" (str_strip line) = true ∨
  str_contains "=" line = false.

(** A dictionary whose keys are all [config_key]s and whose values have
    no white space at either end. *)
Definition clean (config : gmap string string) : Prop :=
  ∀ key value, config !! key = Some value → config_key key ∧ str_strip value = value.


(** ** Reading one attempt *)

(** The repository and path a remote item call is aimed at. *)
Definition item_target (c : call) : option (Repository * string) :=
  match c with
  | create_file repo path _ _ | get_contents repo path | update_file repo path _ _ _ =>
      Some (repo, path)
  | _ => None
  end.

(** A run of the organisation script's [create_junk_file] against a
    service that accepts every call, and one against a service that
    answers every create with a server error. *)
Definition created_run : outcome py_result * unit * list event :=
  run (Scenario.react_service Scenario.healthy)
      (Org.create_junk_file Scenario.the_repo 2 1 ∅) ().

Definition refused_run : outcome py_result * unit * list event :=
  run (Scenario.react_service (Scenario.refusing server_error))
      (Org.create_junk_file Scenario.the_repo 1 1 ∅) ().

(** A run of the organisation script's [create_junk_file] in which the
    file exists and the connection drops during the update. *)
Definition conflict_run : outcome py_result * unit * list event :=
  run (Scenario.react_service dropping_on_update)
      (Org.create_junk_file Scenario.the_repo 1 1 ∅) ().

(** The exception with which a remote item call was answered. *)
Definition item_error (ev : event) : option exn :=
  match ev with
  | Ev (create_file _ _ _ _) (Exn e) => Some e
  | Ev (get_contents _ _) (Exn e) => Some e
  | Ev (update_file _ _ _ _ _) (Exn e) => Some e
  | _ => None
  end.

(** A run of the single-repository script's [create_junk_file] in which
    the file exists and the connection drops during the update. *)
Definition repo_conflict_run : outcome unit * unit * list event :=
  run (Scenario.react_service dropping_on_update)
      (Repo.create_junk_file Scenario.the_repo 1 1 ∅) ().

(** The throttle of slow mode, [time.sleep(1)]. *)
Definition is_pause (c : call) : bool :=
  match c with
  | sleep seconds => bool_decide (seconds = 1)
  | _ => false
  end.

(** The throttling pauses of a trace. *)
Definition pauses (tr : list event) : list call := filter is_pause (calls tr).

(** The remote service accepts every create. *)
Definition accepts_creates {Env : Type} (react : ∀ c : call, Env → resp c * Env) : Prop :=
  ∀ env repo path message content,
    (react (create_file repo path message content) env).1 = Ok ().

(** The remote service refuses every create, and never with a conflict. *)
Definition refuses_creates {Env : Type} (react : ∀ c : call, Env → resp c * Env) : Prop :=
  ∀ env repo path message content,
    ∃ e, (react (create_file repo path message content) env).1 = Exn e ∧
         conflict e = false.

(** ** Batches against any service *)

(** A program that, whatever answers it gets, creates exactly the
    listed files before it returns or raises. *)
Inductive creates_only {A : Type} : list (Repository * string) → prog A → Prop :=
| creates_only_ret a : creates_only [] (Ret a)
| creates_only_raise e : creates_only [] (Raise e)
| creates_only_create repo path message content k :
    (∀ r, creates_only [] (k r)) →
    creates_only [(repo, path)] (Vis (create_file repo path message content) k)
| creates_only_other c k targets :
    create_target c = None →
    (∀ r, creates_only targets (k r)) →
    creates_only targets (Vis c k).

(** What holds of a pool all along a batch, whatever the service
    answers, when the loop body creates nothing: the files created so
    far and those the work items have still to create make up the
    batch. *)
Definition creates_inv {Env R S : Type} (batch : list (Repository * string))
    (p : pool Env R S) : Prop :=
  ∃ to_queue to_run : list (list (Repository * string)),
    Forall2 creates_only to_queue (queued p) ∧
    Forall2 creates_only to_run (running p) ∧
    match main p with
    | Handling _ b => creates_only [] b
    | _ => True
    end ∧
    created (pool_trace p) ++ concat to_run ++ concat to_queue ≡ₚ batch.

(** The operations of a batch: one per index from 1 to [num_files]. *)
Definition batch_tasks (repo : Repository) (num_files file_size : Z) : list task :=
  (λ i, (repo, i, file_size)) <$> py_range 1 (num_files + 1).

(** A result that is [True], or the tuple of the operation [t]. *)
Definition given_back (t : task) (result : py_result) : Prop :=
  match result with
  | RTrue => True
  | RTuple t' => t' = t
  end.

(** A work item that, whatever answers it gets, returns [True] or the
    tuple of [t], or raises. *)
Inductive gives_back (t : task) : prog py_result → Prop :=
| gives_back_ret result : given_back t result → gives_back t (Ret result)
| gives_back_raise e : gives_back t (Raise e)
| gives_back_call c k : (∀ r, gives_back t (k r)) → gives_back t (Vis c k).

(** A loop body that leaves the list it was entered with, or that list
    extended by [t], or raises. *)
Inductive extends_by (s : list task) (t : task) : prog (list task) → Prop :=
| extends_by_same : extends_by s t (Ret s)
| extends_by_more : extends_by s t (Ret (s ++ [t]))
| extends_by_raise e : extends_by s t (Raise e)
| extends_by_call c k : (∀ r, extends_by s t (k r)) → extends_by s t (Vis c k).

(** What a future that is done holds, for the work item of [t]. *)
Definition holds (t : task) (future : outcome py_result) : Prop :=
  match future with
  | Ok result => given_back t result
  | Exn _ => True
  end.

(** What holds of the pool of [process_repo] all along a batch, whatever
    the service answers: the operations collected as failed, those
    dropped, and those whose work item is done, running or queued make
    up the batch. *)
Definition failures_inv {Env : Type} (batch : list task)
    (p : pool Env py_result (list task)) : Prop :=
  ∃ dropped done_ in_run in_queue : list task,
    Forall2 gives_back in_queue (queued p) ∧
    Forall2 gives_back in_run (running p) ∧
    Forall2 holds done_ (finished p) ∧
    match main p with
    | Waiting s | Leaving s _ => s ++ dropped ++ done_ ++ in_run ++ in_queue ≡ₚ batch
    | Handling s b =>
        ∃ t, extends_by s t b ∧
             s ++ dropped ++ (t :: done_) ++ in_run ++ in_queue ≡ₚ batch
    end.

(** A collecting thread that no exception has left, and that none can
    leave: the loop body, when one is running, returns. *)
Definition never_leaves {Env R S : Type} (p : pool Env R S) : Prop :=
  match main p with
  | Waiting _ => True
  | Handling _ b => quiet b
  | Leaving _ _ => False
  end.

(** The description and the privacy flag [process_repo] computes from
    the configuration, lines 113-114. *)
Definition repo_description_of (config : gmap string string) : string :=
  config_get config "REPO_DESCRIPTION" "Repository filled with junk content".

Definition private_repo_of (config : gmap string string) : bool :=
  bool_decide (str_lower (str_strip (config_get config "PRIVATE_REPO" "False")) = "true").

(** The call with which [process_repo] creates repository [repo_index]. *)
Definition create_repo_call (org : Organization) (config : gmap string string)
    (repo_index : Z) : call :=
  create_repo org (Org.repo_name_of config repo_index) true
    (repo_description_of config) (private_repo_of config).

(** A batch of one file in slow mode against a service that answers
    every create with a server error: the schedule that runs the work
    item to its end and then collects it, and what [process_repo]
    returns under it. *)
Definition refused_schedule : list choice :=
  [Start; Work 0; Work 0; Work 0; Work 0; Yield 0; Collect; Collect].

Definition refused_batch : option (list task * unit * list event) :=
  Org.process_repo (Scenario.react_service (Scenario.refusing server_error))
    refused_schedule 1 1 1 acme ∅ true ().

Definition refused_batch_trace : list event :=
  match refused_batch with
  | Some (_, _, tr) => tr
  | None => []
  end.

(** * Properties *)

(** ** The model at work *)

Example py_range_1_4 : py_range 1 (3 + 1) = [1; 2; 3].
Proof. reflexivity. Qed.

Example py_range_empty : py_range 1 (-2 + 1) = [].
Proof. reflexivity. Qed.

Example private_flag : str_lower (str_strip "  True ") = "true".
Proof. reflexivity. Qed.

Example mentions_403 : str_contains "403" "HTTP Error 403: Forbidden" = true.
Proof. reflexivity. Qed.

Example file_name_default : file_name_of ∅ 12 = "junk-12.txt".
Proof. reflexivity. Qed.

Example file_name_configured :
  file_name_of (<["FILE_NAME_PREFIX" := "f"]> (<["FILE_EXTENSION" := "md"]> ∅)) 3 = "f3.md".
Proof. reflexivity. Qed.

(** One file created on the first attempt. *)
Example created_at_once :
  run (Scenario.react_service Scenario.healthy)
      (Org.create_junk_file Scenario.the_repo 2 1 ∅) () =
  (Ok RTrue, (),
   [Ev (random_choice characters) 0%nat;
    Ev (create_file Scenario.the_repo "junk-2.txt"
          "Add/Update file junk-2.txt with junk content" "a") (Ok ());
    Ev (print "  • Created file 'junk-2.txt' in repository 'junk-repo-1'") ()]).
Proof. reflexivity. Qed.

(** A batch of two files in fast mode under the interleaved schedule:
    file 2 is created before file 1, and nothing fails. *)
Example interleaved_batch :
  match Org.process_repo (Scenario.react_service Scenario.healthy) interleaved
          1 2 1 acme ∅ false () with
  | Some (failed_files, _, tr) =>
      failed_files = [] ∧
      created tr = [(Scenario.the_repo, "junk-2.txt"); (Scenario.the_repo, "junk-1.txt")]
  | None => False
  end.
Proof. vm_compute. done. Qed.

(** In slow mode the pool is 1 wide and the same schedule cannot
    happen: the second item cannot start while the first is running. *)
Example interleaved_refused_in_slow_mode :
  Org.process_repo (Scenario.react_service Scenario.healthy) interleaved
    1 2 1 acme ∅ true () = None.
Proof. reflexivity. Qed.

(** ** Facts about sequential execution *)

Section RunFacts.
Context {Env : Type} (react : ∀ c : call, Env → resp c * Env).

Lemma run_bind {A B : Type} (p : prog A) (f : A → prog B) (env : Env) :
  run react (p ≫= f) env =
  match run react p env with
  | (Ok a, env1, t1) =>
      let '(o, env2, t2) := run react (f a) env1 in (o, env2, t1 ++ t2)
  | (Exn e, env1, t1) => (Exn e, env1, t1)
  end.
Proof.
  revert env. induction p as [a|e|c k IH]; intros env; simpl.
  - change (mbind f (Ret a)) with (f a). by destruct (run react (f a) env) as [[o env2] t2].
  - done.
  - change (mbind f (Vis c k)) with (Vis c (λ r, k r ≫= f)). simpl.
    destruct (react c env) as [r env1]. rewrite IH.
    destruct (run react (k r) env1) as [[[a|e] env2] t1]; [|done].
    by destruct (run react (f a) env2) as [[o env3] t2].
Qed.

Lemma run_try_except {A : Type} (p : prog A) (h : exn → prog A) (env : Env) :
  run react (try_except p h) env =
  match run react p env with
  | (Ok a, env1, t1) => (Ok a, env1, t1)
  | (Exn e, env1, t1) =>
      let '(o, env2, t2) := run react (h e) env1 in (o, env2, t1 ++ t2)
  end.
Proof.
  revert env. induction p as [a|e|c k IH]; intros env; simpl.
  - done.
  - by destruct (run react (h e) env) as [[o env2] t2].
  - destruct (react c env) as [r env1]. rewrite IH.
    destruct (run react (k r) env1) as [[[a|e] env2] t1]; [done|].
    by destruct (run react (h e) env2) as [[o env3] t2].
Qed.

(** Generating the content only draws random characters and cannot fail. *)
Lemma run_random_choices (n : nat) (env : Env) :
  ∃ parts env1 tr,
    run react (random_choices n) env = (Ok parts, env1, tr) ∧
    Forall (λ c, ∃ population, c = random_choice population) (calls tr).
Proof.
  revert env. induction n as [|n IH]; intros env.
  - exists [], env, []. split; [done|constructor].
  - simpl. change (run react (random_choices (S n)) env)
      with (run react (Vis (random_choice characters)
              (λ position, rest ← random_choices n;
                           mret (chosen characters position :: rest))) env).
    simpl. destruct (react (random_choice characters) env) as [position env1].
    rewrite run_bind. destruct (IH env1) as (parts & env2 & tr & -> & Htr). simpl.
    eexists _, _, _. split; [done|]. rewrite app_nil_r.
    constructor; [by eexists|done].
Qed.

Lemma run_random_string_newlined (length : Z) (env : Env) :
  ∃ content env1 tr,
    run react (random_string_newlined length) env = (Ok content, env1, tr) ∧
    Forall (λ c, ∃ population, c = random_choice population) (calls tr).
Proof.
  unfold random_string_newlined. rewrite run_bind.
  destruct (run_random_choices (Z.to_nat length) env) as (parts & env1 & tr & -> & Htr).
  simpl. eexists _, _, _. split; [done|]. by rewrite app_nil_r.
Qed.

End RunFacts.

(** ** The shapes of one attempt *)

Section Anatomy.
Context {Env : Type} (react : ∀ c : call, Env → resp c * Env).

(** Case analysis on the answers of the environment, and on the
    branches they select, along a run. *)
Ltac walk :=
  repeat (simpl;
          match goal with
          | u : unit |- _ => destruct u
          | |- context [react ?c ?env] =>
              let r := fresh "r" in
              let env' := fresh "env" in
              destruct (react c env) as [r env'] eqn:?; simpl in r; destruct r
          | |- context [match ?e with GithubException _ _ => _ | PyException _ => _ end] =>
              destruct e
          | |- context [decide ?P] => destruct (decide P)
          | |- context [str_contains ?a ?b] => destruct (str_contains a b) eqn:?
          end).

(** Every run of [Org.create_junk_file] draws the content and then
    follows one of the shapes. *)
Lemma create_junk_file_anatomy repo file_index file_size config env o env' tr :
  run react (Org.create_junk_file repo file_index file_size config) env = (o, env', tr) →
  ∃ content drawn attempt,
    tr = drawn ++ attempt ∧ only_random drawn ∧
    attempt_shape repo file_index file_size config content o attempt.
Proof.
  unfold Org.create_junk_file. rewrite run_bind.
  destruct (run_random_string_newlined react file_size env)
    as (content & env1 & drawn & -> & Hdrawn).
  intros Hrun. exists content, drawn. revert Hrun. walk; intros [= <- <- <-];
    (eexists; split; [done|]; split; [done|]).
  all: econstructor; simpl; try case_bool_decide; done.
Qed.

End Anatomy.

(** ** Facts about traces *)

Lemma calls_app (tr1 tr2 : list event) : calls (tr1 ++ tr2) = calls tr1 ++ calls tr2.
Proof. apply fmap_app. Qed.

Lemma item_calls_app (tr1 tr2 : list event) :
  item_calls (tr1 ++ tr2) = item_calls tr1 ++ item_calls tr2.
Proof. unfold item_calls. by rewrite calls_app, filter_app. Qed.

Lemma sleeps_app (tr1 tr2 : list event) : sleeps (tr1 ++ tr2) = sleeps tr1 ++ sleeps tr2.
Proof. unfold sleeps. by rewrite calls_app, filter_app. Qed.

Lemma only_random_item_calls (tr : list event) : only_random tr → item_calls tr = [].
Proof.
  unfold only_random, item_calls. induction 1 as [|c cs [population ->] _ IH]; [done|].
  by rewrite filter_cons_False by (simpl; tauto).
Qed.

Lemma only_random_sleeps (tr : list event) : only_random tr → sleeps tr = [].
Proof.
  unfold only_random, sleeps. induction 1 as [|c cs [population ->] _ IH]; [done|].
  by rewrite filter_cons_False by (simpl; tauto).
Qed.

Lemma only_random_create_answer (tr : list event) :
  only_random tr → omap create_answer tr = [].
Proof.
  unfold only_random, calls. induction tr as [|[c r] tr IH]; [done|].
  rewrite fmap_cons, Forall_cons. simpl. intros [[population ->] Htr]. simpl. auto.
Qed.

(** The answer to a [create_file] event found in a trace is among the
    create answers of the trace. *)
Lemma create_event_answer (tr : list event) repo path message content
    (r : outcome unit) :
  Ev (create_file repo path message content) r ∈ tr → r ∈ omap create_answer tr.
Proof.
  intros Hin. apply list_elem_of_omap. by exists (Ev (create_file repo path message content) r).
Qed.

(** ** The rate-limit path *)

Lemma rate_limited_not_conflict (e : exn) : rate_limited e = true → conflict e = false.
Proof.
  destruct e as [status data|text]; simpl; [|done].
  intros Hs%bool_decide_eq_true. subst. done.
Qed.

(** C2 (amended): in the organisation script, when the create of an
    operation is refused as rate-limited or forbidden (status 403, or
    another exception whose text mentions 403), [create_junk_file] makes
    no other remote item call, ends on a wait of [RATE_LIMIT_DELAY] = 60
    and returns the operation's own tuple as failed. *)
Theorem org_rate_limit_defers {Env : Type} (react : ∀ c : call, Env → resp c * Env)
    repo file_index file_size config env o env' tr repo' path message content e :
  run react (Org.create_junk_file repo file_index file_size config) env = (o, env', tr) →
  Ev (create_file repo' path message content) (Exn e) ∈ tr →
  rate_limited e = true →
  o = Ok (RTuple (repo, file_index, file_size)) ∧
  item_calls tr = [create_file repo' path message content] ∧
  last (calls tr) = Some (sleep 60) ∧
  sleeps tr = [sleep 60].
Proof.
  intros Hrun Hin Hrl.
  destruct (create_junk_file_anatomy react _ _ _ _ _ _ _ _ Hrun)
    as (content' & drawn & attempt & -> & Hdrawn & Hshape).
  rewrite item_calls_app, sleeps_app, calls_app, only_random_item_calls,
    only_random_sleeps by done.
  assert (Hin' : Ev (create_file repo' path message content) (Exn e) ∈ attempt).
  { apply elem_of_app in Hin as [Hin|Hin]; [|done].
    apply create_event_answer in Hin. rewrite only_random_create_answer in Hin by done.
    by apply elem_of_nil in Hin. }
  clear Hin. pose proof (rate_limited_not_conflict e Hrl) as Hnc.
  destruct Hshape;
    pose proof (create_event_answer _ _ _ _ _ _ Hin') as Hanswer;
    apply (list_elem_of_fmap_2 ev_call) in Hin'; simpl in Hanswer, Hin';
    set_unfold in Hanswer; set_unfold in Hin';
    destruct_or?; simplify_eq/=; try congruence.
  all: rewrite last_app; done.
Qed.

(** The theorem on a run in which the create is refused with status 403. *)
Lemma org_rate_limit_defers_witness :
  rate_limited forbidden = true ∧
  org_forbidden_run.1.1 = Ok (RTuple (Scenario.the_repo, 1, 1)) ∧
  item_calls org_forbidden_run.2 =
    [create_file Scenario.the_repo "junk-1.txt"
       "Add/Update file junk-1.txt with junk content" "a"] ∧
  last (calls org_forbidden_run.2) = Some (sleep 60) ∧
  sleeps org_forbidden_run.2 = [sleep 60].
Proof.
  split; [reflexivity|].
  apply (org_rate_limit_defers (Scenario.react_service (Scenario.refusing forbidden))
           Scenario.the_repo 1 1 ∅ () _ () _ _ _ _ _ forbidden).
  - reflexivity.
  - right. left.
  - reflexivity.
Defined.

(** C2 as stated fails on the single-repository script: after the wait
    of 60 its [create_junk_file] reads the file and updates it in the
    same call. *)
Lemma repo_retries_after_cooldown :
  ¬ defers_when_rate_limited (Repo.create_junk_file Scenario.the_repo 1 1 ∅) ∧
  calls repo_forbidden_run.2 =
    [random_choice characters;
     create_file Scenario.the_repo "junk-1.txt"
       "Add/Update file junk-1.txt with junk content" "a";
     print "403 Forbidden error for file 'junk-1.txt' in repository 'junk-repo-1': 403 API rate limit exceeded";
     print "Waiting 60 seconds before retrying the update.";
     sleep 60;
     get_contents Scenario.the_repo "junk-1.txt";
     update_file Scenario.the_repo "junk-1.txt"
       "Add/Update file junk-1.txt with junk content" "a" "abc123";
     print "Updated file 'junk-1.txt' after delay in repository 'junk-repo-1'."].
Proof.
  split; [|reflexivity].
  intros Hdefers.
  destruct (Hdefers unit (Scenario.react_service (Scenario.refusing forbidden)) ()
              _ _ _ Scenario.the_repo "junk-1.txt"
              "Add/Update file junk-1.txt with junk content" "a" forbidden eq_refl)
    as [Hitems _]; [by right; left|reflexivity|].
  discriminate Hitems.
Qed.

(** ** The conflict path *)

(** X11: when the create of an operation reports a conflict,
    [Org.create_junk_file] reads the file once and, when the read
    succeeds, updates it once with the version token just read; nothing
    else is attempted, and the result is [after_conflict] of the answer
    to the read or to the update. *)
Lemma conflict_compensation {Env : Type} (react : ∀ c : call, Env → resp c * Env)
    repo file_index file_size config env o env' tr repo' path message content e :
  run react (Org.create_junk_file repo file_index file_size config) env = (o, env', tr) →
  Ev (create_file repo' path message content) (Exn e) ∈ tr →
  conflict e = true →
  ∃ read,
    omap get_answer tr = [read] ∧
    match read with
    | Ok current =>
        ∃ updated,
          omap update_answer tr = [updated] ∧
          item_calls tr =
            [create_file repo' path message content;
             get_contents repo' path;
             update_file repo' path message content (sha current)] ∧
          o = after_conflict (repo, file_index, file_size) updated
    | Exn read_error =>
        omap update_answer tr = [] ∧
        item_calls tr = [create_file repo' path message content; get_contents repo' path] ∧
        o = after_conflict (repo, file_index, file_size) (Exn read_error)
    end.
Proof.
  intros Hrun Hin Hconflict.
  destruct (create_junk_file_anatomy react _ _ _ _ _ _ _ _ Hrun)
    as (content' & drawn & attempt & -> & Hdrawn & Hshape).
  assert (Hget : omap get_answer drawn = []).
  { revert Hdrawn. unfold only_random, calls. clear.
    induction drawn as [|[c r] drawn IH]; [done|].
    rewrite fmap_cons, Forall_cons. simpl. intros [[population ->] Htr]. simpl. auto. }
  assert (Hupdate : omap update_answer drawn = []).
  { revert Hdrawn. unfold only_random, calls. clear.
    induction drawn as [|[c r] drawn IH]; [done|].
    rewrite fmap_cons, Forall_cons. simpl. intros [[population ->] Htr]. simpl. auto. }
  rewrite item_calls_app, !omap_app, Hget, Hupdate, only_random_item_calls by done.
  assert (Hin' : Ev (create_file repo' path message content) (Exn e) ∈ attempt).
  { apply elem_of_app in Hin as [Hin|Hin]; [|done].
    apply create_event_answer in Hin. rewrite only_random_create_answer in Hin by done.
    by apply elem_of_nil in Hin. }
  clear Hin.
  assert (Hnrl : rate_limited e = true → False).
  { intros Hrl%rate_limited_not_conflict. congruence. }
  destruct Hshape;
    pose proof (create_event_answer _ _ _ _ _ _ Hin') as Hanswer;
    apply (list_elem_of_fmap_2 ev_call) in Hin'; simpl in Hanswer, Hin';
    set_unfold in Hanswer; set_unfold in Hin';
    destruct_or?; simplify_eq/=; try congruence; try done.
  all: eexists; split; [done|]; simpl; eauto.
Qed.

(** C3, at the failing input: the create reports a conflict and the
    update fails with an exception that is not a [GithubException];
    [create_junk_file] then raises that exception instead of returning
    the operation's tuple. *)
Theorem conflict_update_raises :
  run (Scenario.react_service dropping_on_update)
      (Org.create_junk_file Scenario.the_repo 1 1 ∅) () =
  (Exn connection_lost, (),
   [Ev (random_choice characters) 0%nat;
    Ev (create_file Scenario.the_repo "junk-1.txt"
          "Add/Update file junk-1.txt with junk content" "a") (Exn already_exists);
    Ev (get_contents Scenario.the_repo "junk-1.txt") (Ok (mkContentFile "abc123"));
    Ev (update_file Scenario.the_repo "junk-1.txt"
          "Add/Update file junk-1.txt with junk content" "a" "abc123")
       (Exn connection_lost)]).
Proof. reflexivity. Qed.

(** ** One retry round *)

(** An exception leaves [create_junk_file] only out of the compensating
    update, and is never a [GithubException]. *)
Lemma attempt_shape_raises repo file_index file_size config content e attempt :
  attempt_shape repo file_index file_size config content (Exn e) attempt →
  ∃ text, e = PyException text ∧
    (last (omap get_answer attempt) = Some (Exn e) ∨
     last (omap update_answer attempt) = Some (Exn e)).
Proof. inversion 1; subst; eexists; split; eauto. Qed.

(** A failed attempt returns the tuple of the operation it was asked
    to attempt. *)
Lemma attempt_shape_tuple repo file_index file_size config content t attempt :
  attempt_shape repo file_index file_size config content (Ok (RTuple t)) attempt →
  t = (repo, file_index, file_size).
Proof. by inversion 1. Qed.

Lemma attempt_shape_target repo file_index file_size config content o attempt :
  attempt_shape repo file_index file_size config content o attempt →
  omap create_target (calls attempt) = [(repo, file_name_of config file_index)].
Proof. by destruct 1. Qed.

Lemma only_random_target (tr : list event) :
  only_random tr → omap create_target (calls tr) = [].
Proof.
  unfold only_random. induction 1 as [|c cs [population ->] _ IH]; [done|]. done.
Qed.

Lemma pause_target (slow_mode : bool) : omap create_target (calls (pause slow_mode)) = [].
Proof. by destruct slow_mode. Qed.

(** One [create_file] per attempted task, in the order of the tasks. *)
Lemma sequential_attempts_targets config slow_mode tasks tr :
  sequential_attempts config slow_mode tasks tr →
  omap create_target (calls tr) = target_of config <$> tasks.
Proof.
  induction 1 as [|repo file_index file_size rest content drawn attempt o later
                    Hdrawn Hshape _ IH]; [done|].
  rewrite !calls_app, !omap_app, pause_target, only_random_target by done.
  erewrite attempt_shape_target by done. by rewrite IH.
Qed.

Section Round.
Context {Env : Type} (react : ∀ c : call, Env → resp c * Env).

Lemma run_pause (slow_mode : bool) (env : Env) :
  ∃ env1,
    run react (when slow_mode (time_sleep 1)) env =
    (Ok (), env1, pause slow_mode).
Proof.
  destruct slow_mode; simpl.
  - destruct (react (sleep 1) env) as [[] env1]. by exists env1.
  - by exists env.
Qed.

(** The loop of [retry_failed_files]: the tasks are attempted in order,
    one at a time, up to the first attempt that raises; when the loop
    returns, every task has been attempted and the list it returns
    extends the accumulator with a sublist of the tasks. *)
Lemma retry_loop_spec config slow_mode tasks new_failures env o env' tr :
  run react (Org.retry_loop tasks config slow_mode new_failures) env = (o, env', tr) →
  ∃ attempted,
    attempted `prefix_of` tasks ∧
    sequential_attempts config slow_mode attempted tr ∧
    match o with
    | Ok failures =>
        attempted = tasks ∧ ∃ kept, failures = new_failures ++ kept ∧ kept `sublist_of` tasks
    | Exn e =>
        ∃ text, e = PyException text ∧
          (last (omap get_answer tr) = Some (Exn e) ∨
           last (omap update_answer tr) = Some (Exn e))
    end.
Proof.
  revert new_failures env o env' tr.
  induction tasks as [|[[repo file_index] file_size] rest IH];
    intros new_failures env o env' tr.
  - simpl. intros [= <- <- <-]. exists []. split; [done|]. split; [constructor|].
    split; [done|]. exists []. by rewrite app_nil_r.
  - simpl Org.retry_loop. rewrite run_bind.
    destruct (run_pause slow_mode env) as (env1 & ->). rewrite run_bind.
    destruct (run react (Org.create_junk_file repo file_index file_size config) env1)
      as [[result env2] tr1] eqn:Hattempt.
    destruct (create_junk_file_anatomy react _ _ _ _ _ _ _ _ Hattempt)
      as (content & drawn & attempt & -> & Hdrawn & Hshape).
    destruct result as [result|e].
    + destruct (run react (Org.retry_loop rest config slow_mode
                             (Org.append_failure new_failures result)) env2)
        as [[o2 env3] tr2] eqn:Hrest.
      intros [= <- <- <-].
      destruct (IH _ _ _ _ _ Hrest) as (attempted & Hprefix & Hseq & Ho).
      exists ((repo, file_index, file_size) :: attempted).
      split; [by apply prefix_cons|]. split.
      { rewrite <- (assoc_L (++) drawn). by econstructor. }
      destruct o2 as [failures|e].
      * destruct Ho as (-> & kept & -> & Hkept). split; [done|].
        destruct result as [|t]; simpl.
        -- exists kept. split; [done|]. by apply sublist_cons.
        -- apply attempt_shape_tuple in Hshape as ->.
           exists ((repo, file_index, file_size) :: kept).
           split; [by rewrite <- (assoc_L (++))|]. by apply sublist_skip.
      * destruct Ho as (text & -> & Hlast). exists text. split; [done|].
        rewrite !omap_app, !last_app.
        destruct Hlast as [->| ->]; auto.
    + intros [= <- <- <-]. exists [(repo, file_index, file_size)].
      split; [apply prefix_cons, prefix_nil|]. split.
      { rewrite <- (app_nil_r (drawn ++ attempt)), <- (assoc_L (++) drawn).
        econstructor; [done|done|constructor]. }
      destruct (attempt_shape_raises _ _ _ _ _ _ _ Hshape) as (text & -> & Hlast).
      exists text. split; [done|].
      rewrite !omap_app, !last_app. destruct Hlast as [->| ->]; auto.
Qed.

End Round.

(** A failed attempt hands back the tuple it was given. *)
Lemma create_junk_file_returns_own_tuple {Env : Type}
    (react : ∀ c : call, Env → resp c * Env) repo file_index file_size config
    env t env' tr :
  run react (Org.create_junk_file repo file_index file_size config) env =
    (Ok (RTuple t), env', tr) →
  t = (repo, file_index, file_size).
Proof.
  intros Hrun.
  destruct (create_junk_file_anatomy react _ _ _ _ _ _ _ _ Hrun)
    as (content & drawn & attempt & _ & _ & Hshape).
  by apply attempt_shape_tuple in Hshape.
Qed.

(** C10: the list a retry round returns is a subsequence of the list it
    was given, because a failed attempt returns exactly the tuple
    [(repo, file_index, file_size)] it was asked to attempt: a round
    adds no operation and changes none. *)
Theorem retry_round_shrinks {Env : Type} (react : ∀ c : call, Env → resp c * Env)
    failed_tasks config slow_mode env new_failures env' tr :
  run react (Org.retry_failed_files failed_tasks config slow_mode) env =
    (Ok new_failures, env', tr) →
  new_failures `sublist_of` failed_tasks ∧
  (∀ t, t ∈ new_failures → t ∈ failed_tasks) ∧
  (∀ repo file_index file_size env1 t env2 tr1,
     run react (Org.create_junk_file repo file_index file_size config) env1 =
       (Ok (RTuple t), env2, tr1) →
     t = (repo, file_index, file_size)).
Proof.
  intros Hrun. unfold Org.retry_failed_files in Hrun.
  destruct (retry_loop_spec react _ _ _ _ _ _ _ _ Hrun)
    as (attempted & _ & _ & _ & kept & -> & Hkept).
  split; [done|]. split.
  - intros t Ht. by eapply elem_of_sublist.
  - intros. by eapply create_junk_file_returns_own_tuple.
Qed.

(** What holds of every run of a retry round, whatever the mode: it
    attempts a prefix of the list in the order of the list, each attempt
    over before the next begins, with one [create_file] per attempted
    task; a round that returns has attempted every task exactly once.  A
    round that raises has left the tasks after the raising one
    unattempted. *)
Theorem retry_round_sequential {Env : Type} (react : ∀ c : call, Env → resp c * Env)
    failed_tasks config slow_mode env o env' tr :
  run react (Org.retry_failed_files failed_tasks config slow_mode) env = (o, env', tr) →
  ∃ attempted,
    attempted `prefix_of` failed_tasks ∧
    (∀ new_failures, o = Ok new_failures → attempted = failed_tasks) ∧
    sequential_attempts config slow_mode attempted tr ∧
    omap create_target (calls tr) = target_of config <$> attempted.
Proof.
  intros Hrun. unfold Org.retry_failed_files in Hrun.
  destruct (retry_loop_spec react _ _ _ _ _ _ _ _ Hrun)
    as (attempted & Hprefix & Hseq & Ho).
  exists attempted. split; [done|]. split.
  - intros new_failures ->. by destruct Ho.
  - split; [done|]. by eapply sequential_attempts_targets.
Qed.

(** The theorem on a slow round of two tasks that both fail. *)
Lemma retry_round_shrinks_witness :
  (failing_round true).1.1 = Ok two_tasks ∧
  two_tasks `sublist_of` two_tasks ∧
  (∀ t, t ∈ two_tasks → t ∈ two_tasks) ∧
  (∀ repo file_index file_size env1 t env2 tr1,
     run (Scenario.react_service (Scenario.refusing server_error))
         (Org.create_junk_file repo file_index file_size ∅) env1 =
       (Ok (RTuple t), env2, tr1) →
     t = (repo, file_index, file_size)).
Proof.
  split; [reflexivity|].
  apply (retry_round_shrinks (Scenario.react_service (Scenario.refusing server_error))
           two_tasks ∅ true () two_tasks () (failing_round true).2).
  reflexivity.
Defined.

(** The theorem on a fast round of two tasks that both fail. *)
Lemma retry_round_sequential_witness :
  ∃ attempted,
    attempted `prefix_of` two_tasks ∧
    (∀ new_failures, (failing_round false).1.1 = Ok new_failures → attempted = two_tasks) ∧
    sequential_attempts ∅ false attempted (failing_round false).2 ∧
    omap create_target (calls (failing_round false).2) = target_of ∅ <$> attempted.
Proof.
  apply (retry_round_sequential (Scenario.react_service (Scenario.refusing server_error))
           two_tasks ∅ false () _ ()).
  reflexivity.
Defined.

(** C8, at the failing input: two tasks, the file of the first exists
    and the connection drops during the read that precedes its update.
    [create_junk_file] raises out of the compensation, nothing in
    [retry_failed_files] catches it, and the round ends there: the
    second task of the list is never attempted. *)
Theorem retry_round_abandons_tasks :
  abandoned_round =
    (Exn connection_lost, (),
     [Ev (random_choice characters) 0%nat;
      Ev (create_file Scenario.the_repo "junk-1.txt"
            "Add/Update file junk-1.txt with junk content" "a") (Exn already_exists);
      Ev (get_contents Scenario.the_repo "junk-1.txt") (Exn connection_lost)]) ∧
  target_of ∅ <$> two_tasks =
    [(Scenario.the_repo, "junk-1.txt"); (Scenario.the_repo, "junk-2.txt")] ∧
  created abandoned_round.2 = [(Scenario.the_repo, "junk-1.txt")].
Proof. split; [reflexivity|]. split; reflexivity. Qed.

(** ** The retry coordinator *)

Lemma rounds_app (tr1 tr2 : list event) : rounds (tr1 ++ tr2) = (rounds tr1 + rounds tr2)%nat.
Proof. unfold rounds. by rewrite calls_app, filter_app, length_app. Qed.

Lemma round_waits_app (tr1 tr2 : list event) :
  round_waits (tr1 ++ tr2) = (round_waits tr1 + round_waits tr2)%nat.
Proof. unfold round_waits. by rewrite calls_app, filter_app, length_app. Qed.

Lemma within_round_counts (tr : list event) :
  Forall within_round (calls tr) → rounds tr = 0%nat ∧ round_waits tr = 0%nat.
Proof.
  unfold rounds, round_waits. induction 1 as [|c cs [Hstart Hwait] _ [IH1 IH2]]; [done|].
  rewrite !filter_cons_False; [done|rewrite Hwait; tauto|rewrite Hstart; tauto].
Qed.

Lemma leading_newline_round_start (text : string) :
  leading_newline text = false → is_round_start (print text) = false.
Proof.
  destruct text as [|a text]; [done|]. intros Ha%bool_decide_eq_false.
  cbn [is_round_start].
  change (newline +:+ "Retry attempt ")
    with (String (Ascii.ascii_of_nat 10) "Retry attempt ").
  cbn [String.prefix].
  destruct (Ascii.ascii_dec (Ascii.ascii_of_nat 10) a) as [<-|]; done.
Qed.

Lemma attempt_shape_within_round repo file_index file_size config content o attempt :
  attempt_shape repo file_index file_size config content o attempt →
  Forall within_round (calls attempt).
Proof.
  destruct 1; repeat (apply Forall_cons; split); try apply Forall_nil; split;
    try done; by apply leading_newline_round_start.
Qed.

Lemma sequential_attempts_within_round config slow_mode tasks tr :
  sequential_attempts config slow_mode tasks tr → Forall within_round (calls tr).
Proof.
  induction 1 as [|repo file_index file_size rest content drawn attempt o later
                    Hdrawn Hshape _ IH]; [constructor|].
  rewrite !calls_app, !Forall_app. split; [|split; [|split]]; [| |by eapply attempt_shape_within_round|done].
  - destruct slow_mode; repeat constructor.
  - eapply Forall_impl; [exact Hdrawn|]. by intros c [population ->].
Qed.

(** Decimal numerals do not begin with a line break. *)
Lemma pretty_N_go_leading (x : N) (s : string) :
  leading_newline s = false → leading_newline (pretty_N_go x s) = false.
Proof.
  revert s. induction (N.lt_wf_0 x) as [x _ IH]; intros s Hs.
  assert (x = 0 ∨ 0 < x)%N as [->|?] by lia.
  - by rewrite pretty_N_go_0.
  - rewrite pretty_N_go_step by done. apply IH.
    { by apply N.div_lt. }
    unfold pretty_N_char. by repeat case_match.
Qed.

Lemma pretty_nat_leading (n : nat) (rest : string) :
  leading_newline rest = false → leading_newline (pretty n +:+ rest) = false.
Proof.
  intros Hrest. unfold pretty, pretty_nat, pretty, pretty_N.
  case_decide; [done|].
  pose proof (pretty_N_go_leading (N.of_nat n) "" eq_refl) as Hn.
  by destruct (pretty_N_go (N.of_nat n) "").
Qed.

Lemma prefix_append (s t : string) : String.prefix s (s +:+ t) = true.
Proof.
  induction s as [|a s IH]; [by destruct t|]. simpl.
  by destruct (Ascii.ascii_dec a a).
Qed.

Lemma rounds_cons (c : call) (r : resp c) (tr : list event) :
  rounds (Ev c r :: tr) = ((if is_round_start c then 1 else 0) + rounds tr)%nat.
Proof.
  unfold rounds. simpl. destruct (is_round_start c) eqn:Hc.
  - by rewrite filter_cons_True by (by rewrite Hc).
  - by rewrite filter_cons_False by (rewrite Hc; tauto).
Qed.

Lemma round_waits_cons (c : call) (r : resp c) (tr : list event) :
  round_waits (Ev c r :: tr) = ((if is_round_wait c then 1 else 0) + round_waits tr)%nat.
Proof.
  unfold round_waits. simpl. destruct (is_round_wait c) eqn:Hc.
  - by rewrite filter_cons_True by (by rewrite Hc).
  - by rewrite filter_cons_False by (rewrite Hc; tauto).
Qed.

Lemma round_message_start (attempt : Z) : is_round_start (print (round_message attempt)) = true.
Proof. apply (prefix_append (newline +:+ "Retry attempt ")). Qed.

Lemma raised_by_update_app (e : exn) (tr1 tr2 : list event) :
  raised_by_update e tr2 → raised_by_update e (tr1 ++ tr2).
Proof.
  intros (text & -> & Hlast). exists text. split; [done|].
  rewrite !omap_app, !last_app. destruct Hlast as [->| ->]; auto.
Qed.

Section Coordinator.
Context {Env : Type} (react : ∀ c : call, Env → resp c * Env).

(** One retry round leaves no round message and no inter-round wait
    in the trace. *)
Lemma retry_failed_files_within_round failed_tasks config slow_mode env o env' tr :
  run react (Org.retry_failed_files failed_tasks config slow_mode) env = (o, env', tr) →
  rounds tr = 0%nat ∧ round_waits tr = 0%nat.
Proof.
  intros Hrun. unfold Org.retry_failed_files in Hrun.
  destruct (retry_loop_spec react _ _ _ _ _ _ _ _ Hrun) as (attempted & _ & Hseq & _).
  by eapply within_round_counts, sequential_attempts_within_round.
Qed.

(** The loop over the rounds. *)
Lemma retry_rounds_spec config slow_mode attempts failed env o env' tr :
  run react (Org.retry_rounds attempts failed config slow_mode) env = (o, env', tr) →
  (rounds tr ≤ length attempts)%nat ∧
  match o with
  | Ok [] =>
      (attempts = [] ∧ failed = [] ∧ tr = []) ∨
      (S (round_waits tr) = rounds tr ∧ last (calls tr) = Some (print success_message))
  | Ok (t :: remaining) =>
      (t :: remaining) `sublist_of` failed ∧
      rounds tr = length attempts ∧
      round_waits tr = length attempts ∧
      last (calls tr) = match attempts with
                        | [] => None
                        | _ :: _ => Some (sleep Org.RETRY_DELAY)
                        end
  | Exn e => raised_by_update e tr
  end.
Proof.
  revert failed env o env' tr.
  induction attempts as [|attempt later IH]; intros failed env o env' tr.
  - simpl. intros [= <- <- <-]. split; [done|]. destruct failed; auto.
  - simpl. fold (round_message attempt).
    destruct (react (print (round_message attempt)) env) as [[] env0].
    rewrite run_bind.
    destruct (run react (Org.retry_failed_files failed config slow_mode) env0)
      as [[o1 env1] tr1] eqn:Hround.
    destruct (retry_failed_files_within_round _ _ _ _ _ _ _ Hround) as [Hr0 Hw0].
    pose proof Hround as Hloop. unfold Org.retry_failed_files in Hloop.
    destruct (retry_loop_spec react _ _ _ _ _ _ _ _ Hloop) as (attempted & _ & _ & Ho1).
    pose proof (round_message_start attempt) as Hstart.
    destruct o1 as [[|t still]|e]; simpl.
    + destruct (react (print _) env1) as [[] env2]. intros [= <- <- <-].
      fold success_message.
      rewrite rounds_cons, round_waits_cons, rounds_app, round_waits_app, Hstart, Hr0, Hw0.
      change (rounds [Ev (print success_message) ()]) with 0%nat.
      change (round_waits [Ev (print success_message) ()]) with 0%nat.
      simpl. split; [lia|]. right. split; [done|].
      by rewrite calls_app, last_cons, last_app.
    + destruct (react (print _) env1) as [[] env2].
      destruct (react (sleep _) env2) as [[] env3].
      destruct (run react (Org.retry_rounds later (t :: still) config slow_mode) env3)
        as [[o2 env4] tr2] eqn:Hlater.
      intros [= <- <- <-].
      destruct (IH _ _ _ _ _ Hlater) as [Hle Ho2].
      destruct Ho1 as (_ & kept & Hkept & Hsub). simpl in Hkept. subst kept.
      set (still_message := pretty (S (length still)) +:+ " file(s) still failed.").
      set (pre := Ev (print (round_message attempt)) () ::
                    tr1 ++ [Ev (print still_message) (); Ev (sleep Org.RETRY_DELAY) ()]).
      assert (Htr : Ev (print (round_message attempt)) () ::
                      tr1 ++ Ev (print still_message) () ::
                        Ev (sleep Org.RETRY_DELAY) () :: tr2 = pre ++ tr2).
      { unfold pre. simpl. by rewrite <- (assoc_L (++)). }
      rewrite Htr. clear Htr.
      assert (Hmsg : is_round_start (print still_message) = false).
      { by apply leading_newline_round_start, pretty_nat_leading. }
      assert (Hpre : rounds pre = 1%nat ∧ round_waits pre = 1%nat ∧
                     last (calls pre) = Some (sleep Org.RETRY_DELAY)).
      { unfold pre.
        rewrite rounds_cons, round_waits_cons, rounds_app, round_waits_app,
          !rounds_cons, !round_waits_cons, Hstart, Hmsg, Hr0, Hw0.
        split; [done|]. split; [done|].
        change (calls (?x :: ?l)) with (ev_call x :: calls l).
        by rewrite last_cons, calls_app, last_app. }
      destruct Hpre as (Hpre_rounds & Hpre_waits & Hpre_last).
      rewrite rounds_app, round_waits_app, calls_app, last_app,
        Hpre_rounds, Hpre_waits, Hpre_last.
      split; [simpl; lia|].
      destruct o2 as [[|t2 remaining]|e].
      * destruct Ho2 as [(_ & [=] & _)|[Hwaits ->]]. right. split; [simpl; lia|done].
      * destruct Ho2 as (Hsub2 & -> & -> & ->).
        split; [by etrans|]. split; [done|]. split; [done|]. by destruct later.
      * by apply raised_by_update_app.
    + intros [= <- <- <-].
      split; [rewrite rounds_cons, Hstart, Hr0; simpl; lia|].
      by apply (raised_by_update_app e [Ev (print (round_message attempt)) ()] tr1).
Qed.

End Coordinator.

Section MainRetry.
Context {Env : Type} (react : ∀ c : call, Env → resp c * Env).

Lemma run_print {A : Type} (text : string) (f : unit → prog A) (env : Env) :
  run react (py_print text ≫= f) env =
  let '(o, env2, tr) := run react (f ()) (react (print text) env).2 in
  (o, env2, Ev (print text) () :: tr).
Proof. simpl. by destruct (react (print text) env) as [[] env1]. Qed.

Lemma run_sleep {A : Type} (seconds : Z) (f : unit → prog A) (env : Env) :
  run react (time_sleep seconds ≫= f) env =
  let '(o, env2, tr) := run react (f ()) (react (sleep seconds) env).2 in
  (o, env2, Ev (sleep seconds) () :: tr).
Proof. simpl. by destruct (react (sleep seconds) env) as [[] env1]. Qed.

(** The global retry, from the merged failure list to the final one. *)
Lemma main_retry_spec failed config slow_mode env o env' tr :
  run react (Org.main_retry failed config slow_mode) env = (o, env', tr) →
  match failed with
  | [] => o = Ok [] ∧ rounds tr = 0%nat ∧ round_waits tr = 0%nat ∧ item_calls tr = []
  | _ :: _ =>
      (rounds tr ≤ Z.to_nat Org.MAX_RETRIES)%nat ∧
      match o with
      | Ok [] =>
          round_waits tr = rounds tr ∧ last (calls tr) = Some (print success_message)
      | Ok (t :: remaining) =>
          (t :: remaining) `sublist_of` failed ∧
          rounds tr = Z.to_nat Org.MAX_RETRIES ∧
          round_waits tr = S (Z.to_nat Org.MAX_RETRIES) ∧
          ∃ before,
            calls tr = before ++ [sleep Org.RETRY_DELAY;
                                  print (Org.final_report (t :: remaining))]
      | Exn e => raised_by_update e tr
      end
  end.
Proof.
  destruct failed as [|t0 failed].
  - simpl. destruct (react (print _) env) as [[] env1]. by intros [= <- <- <-].
  - unfold Org.main_retry. fold (retrying_message (t0 :: failed)).
    rewrite run_print, run_sleep, run_bind.
    destruct (run react (Org.retry_rounds (py_range 0 Org.MAX_RETRIES) (t0 :: failed)
                           config slow_mode) _) as [[o1 env1] tr1] eqn:Hrounds.
    apply retry_rounds_spec in Hrounds as [Hle Ho1].
    change (length (py_range 0 Org.MAX_RETRIES)) with (Z.to_nat Org.MAX_RETRIES) in *.
    assert (Hretrying : is_round_start (print (retrying_message (t0 :: failed))) = false)
      by reflexivity.
    destruct o1 as [[|t remaining]|e].
    + intros [= <- <- <-].
      rewrite app_nil_r, !rounds_cons, !round_waits_cons, Hretrying.
      split; [done|].
      destruct Ho1 as [([=] & _)|[Hwaits Hlast]].
      split; [simpl; lia|].
      change (calls (?x :: ?y :: tr1)) with ([ev_call x; ev_call y] ++ calls tr1).
      by rewrite last_app, Hlast.
    + rewrite run_print. intros [= <- <- <-].
      destruct Ho1 as (Hsub & Hrounds & Hwaits & Hlast).
      assert (Hreport : is_round_start (print (Org.final_report (t :: remaining))) = false)
        by reflexivity.
      rewrite !rounds_cons, !round_waits_cons, rounds_app, round_waits_app,
        !rounds_cons, !round_waits_cons, Hretrying, Hreport, Hrounds, Hwaits.
      change (rounds []) with 0%nat. change (round_waits []) with 0%nat.
      change (Z.to_nat Org.MAX_RETRIES) with 3%nat.
      split; [simpl; lia|]. split; [done|]. split; [simpl; lia|]. split; [simpl; lia|].
      simpl in Hlast.
      destruct (calls tr1) as [|c cs] eqn:Hcalls using rev_ind; [done|].
      rewrite last_snoc in Hlast. injection Hlast as ->.
      exists ([print (retrying_message (t0 :: failed)); sleep Org.RETRY_DELAY] ++ cs).
      change (calls (?x :: ?y :: tr1 ++ [?z]))
        with ([ev_call x; ev_call y] ++ calls (tr1 ++ [z])).
      by rewrite calls_app, Hcalls, <- !(assoc_L (++)).
    + intros [= <- <- <-]. split; [rewrite !rounds_cons, Hretrying; simpl; lia|].
      by apply (raised_by_update_app e [_; _] tr1).
Qed.

End MainRetry.

(** What holds of every run of the global retry of [main]: at most
    [MAX_RETRIES] = 3 rounds are begun; when the run returns, the
    remaining failure list is empty, or exactly 3 rounds were run and
    the remaining list is reported by the closing message; a round that
    leaves the list empty ends the loop at once, whatever rounds remain;
    and an exception can leave the coordinator only out of a
    compensating read or update that raised something other than a
    [GithubException]. *)
Theorem retry_coordinator_bounded {Env : Type} (react : ∀ c : call, Env → resp c * Env)
    failed config slow_mode env o env' tr :
  run react (Org.main_retry failed config slow_mode) env = (o, env', tr) →
  Org.MAX_RETRIES = 3 ∧
  (rounds tr ≤ 3)%nat ∧
  match o with
  | Ok remaining =>
      remaining = [] ∨
      (rounds tr = 3%nat ∧
       remaining `sublist_of` failed ∧
       last (calls tr) = Some (print (Org.final_report remaining)))
  | Exn e => raised_by_update e tr
  end ∧
  (∀ current attempt later env1 env2 tr1,
     run react (Org.retry_failed_files current config slow_mode)
         (react (print (round_message attempt)) env1).2 = (Ok [], env2, tr1) →
     ∃ env3,
       run react (Org.retry_rounds (attempt :: later) current config slow_mode) env1 =
       (Ok [], env3,
        Ev (print (round_message attempt)) () :: tr1 ++ [Ev (print success_message) ()])).
Proof.
  intros Hrun. split; [done|].
  apply main_retry_spec in Hrun.
  split; [|split].
  - destruct failed; [destruct Hrun as (_ & -> & _); lia|]. by destruct Hrun.
  - destruct failed as [|t0 failed]; [destruct Hrun as (-> & _); by left|].
    destruct Hrun as [_ Ho]. destruct o as [[|t remaining]|e]; [by left| |done].
    right. destruct Ho as (Hsub & Hrounds & _ & before & Hcalls).
    split; [done|]. split; [done|].
    rewrite Hcalls, last_app. done.
  - intros current attempt later env1 env2 tr1 Hround.
    simpl. fold (round_message attempt).
    destruct (react (print (round_message attempt)) env1) as [[] env0].
    rewrite run_bind. simpl in Hround. rewrite Hround. simpl.
    destruct (react (print _) env2) as [[] env3]. by exists env3.
Qed.

(** The theorem on a retry in which every round fails. *)
Lemma retry_coordinator_bounded_witness :
  Org.MAX_RETRIES = 3 ∧
  (rounds exhausted_retry.2 ≤ 3)%nat ∧
  (one_task = [] ∨
   (rounds exhausted_retry.2 = 3%nat ∧
    one_task `sublist_of` one_task ∧
    last (calls exhausted_retry.2) = Some (print (Org.final_report one_task)))) ∧
  (∀ current attempt later env1 env2 tr1,
     run (Scenario.react_service (Scenario.refusing server_error))
         (Org.retry_failed_files current ∅ false)
         (Scenario.react_service (Scenario.refusing server_error)
            (print (round_message attempt)) env1).2 = (Ok [], env2, tr1) →
     ∃ env3,
       run (Scenario.react_service (Scenario.refusing server_error))
           (Org.retry_rounds (attempt :: later) current ∅ false) env1 =
       (Ok [], env3,
        Ev (print (round_message attempt)) () :: tr1 ++ [Ev (print success_message) ()])).
Proof.
  apply (retry_coordinator_bounded
           (Scenario.react_service (Scenario.refusing server_error))
           one_task ∅ false () (Ok one_task) () exhausted_retry.2).
  reflexivity.
Defined.

(** C1, at the failing input: one task whose file exists, the connection
    dropping during the compensating update.  The exception leaves
    [create_junk_file], [retry_failed_files] and the loop of [main],
    none of which catches it: the coordinator ends in its first round,
    by an exception, with the failure list neither empty nor reported. *)
Theorem retry_coordinator_raises :
  escaping_retry.1.1 = Exn connection_lost ∧
  rounds escaping_retry.2 = 1%nat ∧
  calls escaping_retry.2 =
    [print (retrying_message one_task);
     sleep Org.RETRY_DELAY;
     print (round_message 0);
     random_choice characters;
     create_file Scenario.the_repo "junk-1.txt"
       "Add/Update file junk-1.txt with junk content" "a";
     get_contents Scenario.the_repo "junk-1.txt";
     update_file Scenario.the_repo "junk-1.txt"
       "Add/Update file junk-1.txt with junk content" "a" "abc123"].
Proof. split; [reflexivity|]. split; reflexivity. Qed.

(** C5, at the failing input: one task that fails in every round.  The
    coordinator waits [RETRY_DELAY] once before the first round and
    again after each of the three rounds, the last one included: four
    waits, the fourth between the final round and the closing report. *)
Theorem delay_after_final_round :
  exhausted_retry.1.1 = Ok one_task ∧
  round_schedule exhausted_retry.2 =
    [sleep 5; print (round_message 0);
     sleep 5; print (round_message 1);
     sleep 5; print (round_message 2);
     sleep 5] ∧
  round_waits exhausted_retry.2 = 4%nat ∧
  drop 19 (calls exhausted_retry.2) = [sleep 5; print (Org.final_report one_task)].
Proof. vm_compute. done. Qed.

(** ** Facts about the pool *)

Section PoolFacts.
Context {Env R S : Type}.
Variable react : ∀ c : call, Env → resp c * Env.
Variable body : outcome R → S → prog S.

(** A property kept by every step holds along every schedule. *)
Lemma pool_exec_invariant (I : pool Env R S → Prop) :
  (∀ ch p p', I p → pool_step react body ch p = Some p' → I p') →
  ∀ sched p p', I p → pool_exec react body sched p = Some p' → I p'.
Proof.
  intros Hstep. induction sched as [|ch later IH]; intros p p' Hp; simpl.
  - by intros [= <-].
  - destruct (pool_step react body ch p) as [p1|] eqn:Hch; [|done]. simpl.
    eauto.
Qed.

Lemma pool_exec_app (sched1 sched2 : list choice) (p : pool Env R S) :
  pool_exec react body (sched1 ++ sched2) p =
  pool_exec react body sched1 p ≫= pool_exec react body sched2.
Proof.
  revert p. induction sched1 as [|ch later IH]; intros p; simpl; [done|].
  destruct (pool_step react body ch p) as [p1|]; simpl; [apply IH|done].
Qed.

Lemma pool_step_width ch p p' :
  pool_step react body ch p = Some p' →
  max_workers p' = max_workers p ∧ (within_width p → within_width p').
Proof.
  unfold within_width. destruct p as [env tr width q r f m].
  destruct ch as [|i|j|]; simpl.
  - destruct q as [|item rest]; [done|]. case_decide; [|done].
    intros [= <-]. simpl. rewrite length_app. simpl. split; [done|]. lia.
  - destruct (r !! i) as [[a|e|c k]|] eqn:Hi; [| | |done].
    + intros [= <-]. simpl. rewrite length_delete by eauto. split; [done|]. lia.
    + intros [= <-]. simpl. rewrite length_delete by eauto. split; [done|]. lia.
    + destruct (react c env) as [x env1]. intros [= <-]. simpl.
      by rewrite length_insert.
  - destruct m as [s|s b|s e]; [|done..]. destruct (f !! j); [|done].
    by intros [= <-].
  - destruct m as [s|s [s'|e|c k]|s e]; [done| | | |done].
    + by intros [= <-].
    + by intros [= <-].
    + destruct (react c env) as [x env1]. by intros [= <-].
Qed.

Lemma pool_exec_width sched p p' :
  pool_exec react body sched p = Some p' →
  within_width p →
  max_workers p' = max_workers p ∧ within_width p'.
Proof.
  intros Hexec Hp.
  apply (pool_exec_invariant
           (λ p0, max_workers p0 = max_workers p ∧ within_width p0)) in Hexec; [done| |done].
  intros ch p1 p2 [Hw Hin] Hstep.
  apply pool_step_width in Hstep as [Hw' Hin']. split; [congruence|auto].
Qed.

(** As many workers as the pool is wide can be started at once. *)
Lemma pool_exec_start (k : nat) env tr width (q r : list (prog R)) f (m : collector S) :
  (k ≤ length q)%nat →
  Z.of_nat (length r + k) ≤ width →
  pool_exec react body (replicate k Start) (mkPool env tr width q r f m) =
  Some (mkPool env tr width (drop k q) (r ++ take k q) f m).
Proof.
  revert q r. induction k as [|k IH]; intros q r Hk Hwidth; simpl.
  - by rewrite drop_0, take_0, app_nil_r.
  - destruct q as [|item rest]; simpl in Hk; [lia|].
    rewrite decide_True by lia. simpl.
    rewrite IH by (rewrite ?length_app; simpl; lia).
    by rewrite <- (assoc_L (++)).
Qed.

End PoolFacts.

Lemma length_py_range (start stop : Z) : length (py_range start stop) = Z.to_nat (stop - start).
Proof. unfold py_range. by rewrite length_fmap, length_seq. Qed.

(** C9: for a batch of [num_files] >= 1 operations the pool is 1 wide
    in slow mode and [num_files] wide in fast mode, in both scripts;
    along every schedule no more work items are in a worker than that,
    so at most one item operation is in flight in slow mode, and in fast
    mode all [num_files] can be in flight together. *)
Theorem pool_width_by_mode {Env : Type} (react : ∀ c : call, Env → resp c * Env)
    repo num_files file_size config slow_mode env tr :
  1 ≤ num_files →
  Org.max_workers_files slow_mode num_files = (if slow_mode then 1 else num_files) ∧
  Repo.max_workers_of slow_mode num_files = (if slow_mode then 1 else num_files) ∧
  (∀ sched p,
     pool_exec react (Org.collect_result slow_mode) sched
       (Org.process_repo_pool repo num_files file_size config slow_mode env tr) = Some p →
     max_workers p = (if slow_mode then 1 else num_files) ∧
     Z.of_nat (length (running p)) ≤ (if slow_mode then 1 else num_files)) ∧
  (∀ sched p,
     pool_exec react (Repo.collect_result slow_mode) sched
       (Repo.main_pool repo num_files file_size config slow_mode env) = Some p →
     max_workers p = (if slow_mode then 1 else num_files) ∧
     Z.of_nat (length (running p)) ≤ (if slow_mode then 1 else num_files)) ∧
  (∃ sched p,
     pool_exec react (Org.collect_result false) sched
       (Org.process_repo_pool repo num_files file_size config false env tr) = Some p ∧
     Z.of_nat (length (running p)) = num_files) ∧
  (∃ sched p,
     pool_exec react (Repo.collect_result false) sched
       (Repo.main_pool repo num_files file_size config false env) = Some p ∧
     Z.of_nat (length (running p)) = num_files).
Proof.
  intros Hn. split; [done|]. split; [done|].
  assert (Hwidth : (if slow_mode then 1 else num_files) =
                   Z.max 0 (if slow_mode then 1 else num_files)).
  { destruct slow_mode; lia. }
  split; [|split; [|split]].
  - intros sched p Hexec.
    apply pool_exec_width in Hexec as [Hw Hin]; [|unfold within_width; simpl; lia].
    unfold within_width in Hin. rewrite Hw in *. simpl in *.
    unfold Org.max_workers_files in *. split; [done|]. lia.
  - intros sched p Hexec.
    apply pool_exec_width in Hexec as [Hw Hin]; [|unfold within_width; simpl; lia].
    unfold within_width in Hin. rewrite Hw in *. simpl in *.
    unfold Repo.max_workers_of in *. split; [done|]. lia.
  - exists (replicate (Z.to_nat num_files) Start). eexists.
    unfold Org.process_repo_pool, pool_start. split.
    + apply pool_exec_start.
      * unfold Org.file_futures. rewrite length_fmap, length_py_range. lia.
      * simpl. lia.
    + simpl. rewrite length_take. unfold Org.file_futures.
      rewrite length_fmap, length_py_range. lia.
  - exists (replicate (Z.to_nat num_files) Start). eexists.
    unfold Repo.main_pool, pool_start. split.
    + apply pool_exec_start.
      * unfold Repo.file_futures. rewrite length_fmap, length_py_range. lia.
      * simpl. lia.
    + simpl. rewrite length_take. unfold Repo.file_futures.
      rewrite length_fmap, length_py_range. lia.
Qed.

(** The theorem on a batch of three files against a healthy service. *)
Lemma pool_width_by_mode_witness :
  1 ≤ 3 ∧
  Org.max_workers_files true 3 = 1 ∧
  Repo.max_workers_of true 3 = 1 ∧
  (∀ sched p,
     pool_exec (Scenario.react_service Scenario.healthy) (Org.collect_result true) sched
       (Org.process_repo_pool Scenario.the_repo 3 1 ∅ true () []) = Some p →
     max_workers p = 1 ∧ Z.of_nat (length (running p)) ≤ 1) ∧
  (∀ sched p,
     pool_exec (Scenario.react_service Scenario.healthy) (Repo.collect_result true) sched
       (Repo.main_pool Scenario.the_repo 3 1 ∅ true ()) = Some p →
     max_workers p = 1 ∧ Z.of_nat (length (running p)) ≤ 1) ∧
  (∃ sched p,
     pool_exec (Scenario.react_service Scenario.healthy) (Org.collect_result false) sched
       (Org.process_repo_pool Scenario.the_repo 3 1 ∅ false () []) = Some p ∧
     Z.of_nat (length (running p)) = 3) ∧
  (∃ sched p,
     pool_exec (Scenario.react_service Scenario.healthy) (Repo.collect_result false) sched
       (Repo.main_pool Scenario.the_repo 3 1 ∅ false ()) = Some p ∧
     Z.of_nat (length (running p)) = 3).
Proof.
  split; [lia|].
  apply (pool_width_by_mode (Scenario.react_service Scenario.healthy)
           Scenario.the_repo 3 1 ∅ true () []).
  lia.
Defined.

(** ** The empty batch *)

(** With nothing submitted, the pool is over before it starts, and no
    step can happen. *)
Lemma pool_exec_empty {Env R S : Type} (react : ∀ c : call, Env → resp c * Env)
    (body : outcome R → S → prog S) sched env tr width (s : S) p :
  pool_exec react body sched (pool_start env tr width [] s) = Some p →
  sched = [] ∧ p = pool_start env tr width [] s.
Proof. destruct sched as [|[|i|j|] later]; simpl; [by intros [= <-]|done..]. Qed.

(** In the organisation script an empty batch creates the repository,
    makes no item call and returns the empty list, in both modes (in
    fast mode through the handler of line 140, which catches the
    [ValueError] of a pool of width 0). *)
Lemma org_empty_batch {Env : Type} (react : ∀ c : call, Env → resp c * Env)
    repo_index file_size org config slow_mode env :
  (∃ env' tr,
     Org.process_repo react [] repo_index 0 file_size org config slow_mode env =
       Some ([], env', tr)) ∧
  (∀ sched failed_files env' tr,
     Org.process_repo react sched repo_index 0 file_size org config slow_mode env =
       Some (failed_files, env', tr) →
     failed_files = [] ∧ item_calls tr = [] ∧
     ∃ name description private later,
       calls tr = create_repo org name true description private :: later).
Proof.
  unfold Org.process_repo, Org.process_repo_setup, Org.process_repo_pool,
    Org.report_repo_error.
  simpl.
  destruct (react (create_repo _ _ _ _ _) env) as [[repo|err] env1]; simpl.
  - destruct (react (print _) env1) as [[] env2]; simpl.
    destruct slow_mode; simpl.
    + split; [by eexists _, _|].
      intros sched failed_files env' tr Hrun.
      destruct (pool_exec react (Org.collect_result true) sched _) as [p|] eqn:Hexec;
        [|done].
      apply pool_exec_empty in Hexec as [-> ->]. simpl in Hrun.
      injection Hrun as <- <- <-. split; [done|]. split; [done|]. by eexists _, _, _, _.
    + destruct (react (print _) env2) as [[] env3]; simpl.
      split; [by eexists _, _|].
      intros sched failed_files env' tr [= <- <- <-].
      split; [done|]. split; [done|]. by eexists _, _, _, _.
  - destruct (react (print _) env1) as [[] env2]; simpl.
    split; [by eexists _, _|].
    intros sched failed_files env' tr [= <- <- <-].
    split; [done|]. split; [done|]. by eexists _, _, _, _.
Qed.

(** In the single-repository script an empty batch goes through in
    slow mode. *)
Lemma repo_empty_batch_slow {Env : Type} (react : ∀ c : call, Env → resp c * Env)
    repo file_size config env :
  Repo.main_dispatch react [] repo 0 file_size config true env = Some (Ok (), env, []).
Proof. done. Qed.

(** C6, at the failing input: the single-repository script in fast mode
    with an empty batch.  The pool is created with [max_workers] = 0,
    its constructor raises [ValueError], and nothing in [main] catches
    it: the batch ends in an exception instead of doing nothing. *)
Theorem repo_empty_batch_fast_raises {Env : Type} (react : ∀ c : call, Env → resp c * Env)
    sched repo file_size config env :
  Repo.main_dispatch react sched repo 0 file_size config false env =
  Some (Exn (PyException "max_workers must be greater than 0"), env, []).
Proof. done. Qed.

(** ** A failure that is lost *)

(** C4, at the failing input: a batch of one file in slow mode; the
    create reports a conflict and the read of the compensating update
    raises an exception that is not a [GithubException].  The work item
    raises, [future.result()] re-raises in [process_repo], the handler
    of line 140 reports it as a failure to create the repository, and
    the list returned is empty: the failed operation is not in it. *)
Theorem process_repo_loses_failure :
  Org.process_repo (Scenario.react_service dropping_on_read)
    [Start; Work 0; Work 0; Work 0; Work 0; Yield 0; Collect]
    1 1 1 acme ∅ true () =
  Some ([], (),
        [Ev (create_repo acme "junk-repo-1" true
               "Repository filled with junk content" false) (Ok Scenario.the_repo);
         Ev (print "Created repository: junk-repo-1") ();
         Ev (random_choice characters) 0%nat;
         Ev (create_file Scenario.the_repo "junk-1.txt"
               "Add/Update file junk-1.txt with junk content" "a") (Exn already_exists);
         Ev (get_contents Scenario.the_repo "junk-1.txt") (Exn connection_lost);
         Ev (print "Error creating repository 'junk-repo-1': Connection aborted.") ()]).
Proof. reflexivity. Qed.

(** ** A batch in which nothing fails *)

Lemma quiet_bind {A B : Type} (p : prog A) (f : A → prog B) :
  quiet p → (∀ a, quiet (f a)) → quiet (p ≫= f).
Proof.
  intros Hp Hf. induction Hp as [a|c k Hc _ IH]; [apply Hf|].
  change (Vis c k ≫= f) with (Vis c (λ r, k r ≫= f)).
  apply quiet_call; [done|]. apply IH.
Qed.

Lemma random_choices_quiet (n : nat) : quiet (random_choices n).
Proof.
  induction n as [|n IH]; [constructor|].
  change (random_choices (S n))
    with (Vis (random_choice characters)
            (λ position, random_choices n ≫= λ rest,
                           mret (chosen characters position :: rest))).
  apply quiet_call; [done|]. intros position.
  apply quiet_bind; [done|]. constructor.
Qed.

Lemma random_string_newlined_quiet (length : Z) : quiet (random_string_newlined length).
Proof. apply quiet_bind; [apply random_choices_quiet|constructor]. Qed.



Lemma created_snoc (tr : list event) (c : call) (r : resp c) :
  created (tr ++ [Ev c r]) = created tr ++ option_list (create_target c).
Proof.
  unfold created. rewrite calls_app, omap_app. simpl. by destruct (create_target c).
Qed.


Lemma not_item_no_target (c : call) : is_item_call c = false → create_target c = None.
Proof. by destruct c. Qed.

Lemma concat_delete_nil {A : Type} (l : list (list A)) (i : nat) :
  l !! i = Some [] → concat (delete i l) = concat l.
Proof.
  revert i. induction l as [|x l IH]; intros [|i]; simpl; try done.
  - by intros [= ->].
  - intros Hi. by rewrite IH.
Qed.

Lemma concat_insert_nil {A : Type} (l : list (list A)) (i : nat) (x : list A) :
  l !! i = Some x → concat l ≡ₚ x ++ concat (<[i := []]> l).
Proof.
  revert i. induction l as [|y l IH]; intros [|i]; simpl; try done.
  - by intros [= ->].
  - intros Hi. rewrite (IH _ Hi). by rewrite Permutation_app_swap_app.
Qed.

Section Batch.
Context {Env : Type} (react : ∀ c : call, Env → resp c * Env).
Hypothesis creates_accepted :
  ∀ env repo path message content,
    (react (create_file repo path message content) env).1 = Ok ().



End Batch.

(** ** Every batch can be brought to its end *)

Section Drain.
Context {Env R St : Type}.
Variable react : ∀ c : call, Env → resp c * Env.
Variable body : outcome R → St → prog St.

(** The first worker runs its item to the end as [run] does. *)
Lemma work_out (item : prog R) env tr width q others f (m : collector St) o env' tr' :
  run react item env = (o, env', tr') →
  ∃ n, pool_exec react body (replicate n (Work 0))
         (mkPool env tr width q (item :: others) f m) =
       Some (mkPool env' (tr ++ tr') width q others (f ++ [o]) m).
Proof.
  revert env tr o env' tr'.
  induction item as [a|e|c k IH]; intros env tr o env' tr'; simpl.
  - intros [= <- <- <-]. exists 1%nat. simpl. by rewrite app_nil_r.
  - intros [= <- <- <-]. exists 1%nat. simpl. by rewrite app_nil_r.
  - destruct (react c env) as [x env1] eqn:Hc.
    destruct (run react (k x) env1) as [[o1 env2] tr1] eqn:Hk.
    intros [= <- <- <-].
    destruct (IH x env1 (tr ++ [Ev c x]) _ _ _ Hk) as [n Hn].
    exists (S n). simpl. rewrite Hc. simpl. rewrite Hn.
    by rewrite <- (assoc_L (++)).
Qed.

(** The items in the workers can all be run to their end. *)
Lemma finish_running width q r env tr f (m : collector St) :
  ∃ sched env' tr' f',
    pool_exec react body sched (mkPool env tr width q r f m) =
    Some (mkPool env' tr' width q [] f' m).
Proof.
  revert env tr f. induction r as [|item others IH]; intros env tr f.
  - by exists [], env, tr, f.
  - destruct (run react item env) as [[o env1] tr1] eqn:Hitem.
    destruct (work_out item env tr width q others f m _ _ _ Hitem) as [n Hn].
    destruct (IH env1 (tr ++ tr1) (f ++ [o])) as (sched & env' & tr' & f' & Hsched).
    exists (replicate n (Work 0) ++ sched), env', tr', f'.
    by rewrite pool_exec_app, Hn.
Qed.

(** The collecting thread runs the loop body as [run] does. *)
Lemma collect_out (b : prog St) env tr width q r f s o env' tr' :
  run react b env = (o, env', tr') →
  ∃ n, pool_exec react body (replicate n Collect)
         (mkPool env tr width q r f (Handling s b)) =
       Some (mkPool env' (tr ++ tr') width q r f
               match o with Ok s' => Waiting s' | Exn e => Leaving s e end).
Proof.
  revert env tr o env' tr'.
  induction b as [a|e|c k IH]; intros env tr o env' tr'; simpl.
  - intros [= <- <- <-]. exists 1%nat. simpl. by rewrite app_nil_r.
  - intros [= <- <- <-]. exists 1%nat. simpl. by rewrite app_nil_r.
  - destruct (react c env) as [x env1] eqn:Hc.
    destruct (run react (k x) env1) as [[o1 env2] tr1] eqn:Hk.
    intros [= <- <- <-].
    destruct (IH x env1 (tr ++ [Ev c x]) _ _ _ Hk) as [n Hn].
    exists (S n). simpl. rewrite Hc. simpl. rewrite Hn.
    by rewrite <- (assoc_L (++)).
Qed.

(** Once an exception has left the loop, the work that is left is run
    to its end and the [with] block is left with that exception. *)
Lemma drain_leaving width q env tr f (s : St) e :
  0 < width →
  ∃ sched p,
    pool_exec react body sched (mkPool env tr width q [] f (Leaving s e)) = Some p ∧
    pool_result p = Some (s, Some e).
Proof.
  intros Hwidth. revert env tr f.
  induction q as [|item rest IH]; intros env tr f.
  - by exists [], (mkPool env tr width [] [] f (Leaving s e)).
  - destruct (run react item env) as [[o env1] tr1] eqn:Hitem.
    destruct (work_out item env tr width rest [] f (Leaving s e) _ _ _ Hitem) as [n Hn].
    destruct (IH env1 (tr ++ tr1) (f ++ [o])) as (sched & p & Hsched & Hp).
    exists (Start :: replicate n (Work 0) ++ sched), p. split; [|done].
    simpl. rewrite decide_True by (simpl; lia). simpl.
    by rewrite pool_exec_app, Hn.
Qed.

(** From the start of the loop, the items can be run and collected one
    after the other until the [with] block is left. *)
Lemma drain_waiting width q env tr (s : St) :
  0 < width →
  ∃ sched p,
    pool_exec react body sched (mkPool env tr width q [] [] (Waiting s)) = Some p ∧
    is_Some (pool_result p).
Proof.
  intros Hwidth. revert env tr s.
  induction q as [|item rest IH]; intros env tr s.
  - by exists [], (mkPool env tr width [] [] [] (Waiting s)).
  - destruct (run react item env) as [[o env1] tr1] eqn:Hitem.
    destruct (work_out item env tr width rest [] [] (Waiting s) _ _ _ Hitem) as [n Hn].
    destruct (run react (body o s) env1) as [[o2 env2] tr2] eqn:Hbody.
    destruct (collect_out (body o s) env1 (tr ++ tr1) width rest [] [] s _ _ _ Hbody)
      as [n2 Hn2].
    assert (Hrest : ∃ sched p,
              pool_exec react body sched
                (mkPool env2 ((tr ++ tr1) ++ tr2) width rest [] []
                   match o2 with Ok s' => Waiting s' | Exn e => Leaving s e end) = Some p ∧
              is_Some (pool_result p)).
    { destruct o2 as [s'|e]; [apply IH|].
      destruct (drain_leaving width rest env2 ((tr ++ tr1) ++ tr2) [] s e Hwidth)
        as (sched & p & Hsched & Hp).
      exists sched, p. split; [done|]. by rewrite Hp. }
    destruct Hrest as (sched & p & Hsched & Hp).
    exists (Start :: replicate n (Work 0) ++ Yield 0 :: replicate n2 Collect ++ sched), p.
    split; [|done].
    simpl. rewrite decide_True by (simpl; lia). simpl.
    rewrite pool_exec_app, Hn. simpl. by rewrite pool_exec_app, Hn2.
Qed.

(** The same with futures that are done and not yet collected. *)
Lemma drain_finished width q f env tr (s : St) :
  0 < width →
  ∃ sched p,
    pool_exec react body sched (mkPool env tr width q [] f (Waiting s)) = Some p ∧
    is_Some (pool_result p).
Proof.
  intros Hwidth. revert env tr s.
  induction f as [|o rest IH]; intros env tr s; [by apply drain_waiting|].
  destruct (run react (body o s) env) as [[o2 env2] tr2] eqn:Hbody.
  destruct (collect_out (body o s) env tr width q [] rest s _ _ _ Hbody) as [n2 Hn2].
  assert (Hrest : ∃ sched p,
            pool_exec react body sched
              (mkPool env2 (tr ++ tr2) width q [] rest
                 match o2 with Ok s' => Waiting s' | Exn e => Leaving s e end) = Some p ∧
            is_Some (pool_result p)).
  { destruct o2 as [s'|e]; [apply IH|].
    destruct (drain_leaving width q env2 (tr ++ tr2) rest s e Hwidth)
      as (sched & p & Hsched & Hp).
    exists sched, p. split; [done|]. by rewrite Hp. }
  destruct Hrest as (sched & p & Hsched & Hp).
  exists (Yield 0 :: replicate n2 Collect ++ sched), p. split; [|done].
  simpl. by rewrite pool_exec_app, Hn2.
Qed.

(** A pool that is at least 1 wide is never stuck: from any state, some
    schedule brings the batch to its end. *)
Lemma pool_can_finish (p : pool Env R St) :
  0 < max_workers p →
  ∃ sched p',
    pool_exec react body sched p = Some p' ∧ is_Some (pool_result p').
Proof.
  destruct p as [env tr width q r f m]. simpl. intros Hwidth.
  destruct (finish_running width q r env tr f m) as (sched1 & env1 & tr1 & f1 & Hsched1).
  assert (Hrest : ∃ sched p',
            pool_exec react body sched (mkPool env1 tr1 width q [] f1 m) = Some p' ∧
            is_Some (pool_result p')).
  { destruct m as [s|s b|s e].
    - by apply drain_finished.
    - destruct (run react b env1) as [[o2 env2] tr2] eqn:Hbody.
      destruct (collect_out b env1 tr1 width q [] f1 s _ _ _ Hbody) as [n2 Hn2].
      assert (Hlast : ∃ sched p',
                pool_exec react body sched
                  (mkPool env2 (tr1 ++ tr2) width q [] f1
                     match o2 with Ok s' => Waiting s' | Exn e => Leaving s e end) =
                  Some p' ∧ is_Some (pool_result p')).
      { destruct o2 as [s'|e]; [by apply drain_finished|].
        destruct (drain_leaving width q env2 (tr1 ++ tr2) f1 s e Hwidth)
          as (sched & p' & Hsched & Hp).
        exists sched, p'. split; [done|]. by rewrite Hp. }
      destruct Hlast as (sched & p' & Hsched & Hp).
      exists (replicate n2 Collect ++ sched), p'. split; [|done].
      by rewrite pool_exec_app, Hn2.
    - destruct (drain_leaving width q env1 tr1 f1 s e Hwidth)
        as (sched & p' & Hsched & Hp).
      exists sched, p'. split; [done|]. by rewrite Hp. }
  destruct Hrest as (sched2 & p' & Hsched2 & Hp).
  exists (sched1 ++ sched2), p'. split; [|done].
  by rewrite pool_exec_app, Hsched1.
Qed.

End Drain.






(** X28: whatever has happened so far in the pool of [process_repo],
    when the pool is at least 1 wide the batch can still be brought to
    its end: no schedule leads the pool into a state it cannot leave. *)
Lemma process_repo_never_stuck {Env : Type} (react : ∀ c : call, Env → resp c * Env)
    repo num_files file_size config slow_mode env tr sched p :
  0 < Org.max_workers_files slow_mode num_files →
  pool_exec react (Org.collect_result slow_mode) sched
    (Org.process_repo_pool repo num_files file_size config slow_mode env tr) = Some p →
  ∃ later p',
    pool_exec react (Org.collect_result slow_mode) (sched ++ later)
      (Org.process_repo_pool repo num_files file_size config slow_mode env tr) = Some p' ∧
    is_Some (pool_result p').
Proof.
  intros Hwidth Hexec.
  destruct (pool_can_finish react (Org.collect_result slow_mode) p) as (later & p' & Hlater & Hp).
  { apply pool_exec_width in Hexec as [-> _]; [done|]. unfold within_width. simpl. lia. }
  exists later, p'. split; [|done]. by rewrite pool_exec_app, Hexec.
Qed.





(** ** Texts as lists of characters *)

Lemma chars_app (s t : string) : chars (s +:+ t) = chars s ++ chars t.
Proof. induction s as [|a s IH]; simpl; [done|]. by rewrite IH. Qed.

Lemma chars_inj (s t : string) : chars s = chars t → s = t.
Proof.
  intros H. rewrite <- (String.string_of_list_ascii_of_string s),
    <- (String.string_of_list_ascii_of_string t). unfold chars in H. by rewrite H.
Qed.

Lemma chars_rev_app (s t : string) :
  chars (String.rev_app s t) = reverse (chars s) ++ chars t.
Proof.
  revert t. induction s as [|a s IH]; intros t; simpl; [done|].
  rewrite IH, reverse_cons. simpl. by rewrite <- (assoc_L (++)).
Qed.

Lemma chars_rev (s : string) : chars (String.rev s) = reverse (chars s).
Proof. unfold String.rev. rewrite chars_rev_app. simpl. by rewrite app_nil_r. Qed.

Lemma chars_lstrip (s : string) : chars (str_lstrip s) = lstrip_chars (chars s).
Proof.
  induction s as [|a s IH]; simpl; [done|]. by destruct (ascii_isspace a).
Qed.

Lemma chars_strip (s : string) : chars (str_strip s) = strip_chars (chars s).
Proof.
  unfold str_strip, strip_chars, rstrip_chars.
  by rewrite chars_rev, chars_lstrip, chars_rev, chars_lstrip.
Qed.

(** ** White space at the ends of a text *)

Lemma lstrip_chars_spaces (a l : list ascii) :
  spaces a → lstrip_chars (a ++ l) = lstrip_chars l.
Proof. induction 1 as [|x a Hx _ IH]; simpl; [done|]. by rewrite Hx. Qed.

Lemma lstrip_chars_head (x : ascii) (l : list ascii) :
  ascii_isspace x = false → lstrip_chars (x :: l) = x :: l.
Proof. intros Hx. simpl. by rewrite Hx. Qed.

Lemma lstrip_chars_split (l : list ascii) :
  ∃ a, l = a ++ lstrip_chars l ∧ spaces a ∧
       (lstrip_chars l = [] ∨
        ∃ x m, lstrip_chars l = x :: m ∧ ascii_isspace x = false).
Proof.
  induction l as [|x l (a & Hl & Ha & Hshape)].
  { exists []. split; [done|]. split; [constructor|by left]. }
  simpl. destruct (ascii_isspace x) eqn:Hx.
  - exists (x :: a). split; [simpl; by f_equal|]. split; [by constructor|done].
  - exists []. split; [done|]. split; [constructor|]. right. by exists x, l.
Qed.

Lemma rstrip_chars_spaces (l b : list ascii) :
  spaces b → rstrip_chars (l ++ b) = rstrip_chars l.
Proof.
  intros Hb. unfold rstrip_chars. rewrite reverse_app, lstrip_chars_spaces; [done|].
  by apply Forall_reverse.
Qed.

Lemma rstrip_chars_last (l : list ascii) (x : ascii) :
  ascii_isspace x = false → rstrip_chars (l ++ [x]) = l ++ [x].
Proof.
  intros Hx. unfold rstrip_chars. rewrite reverse_snoc.
  rewrite lstrip_chars_head by done. by rewrite reverse_cons, reverse_involutive.
Qed.

Lemma rstrip_chars_split (l : list ascii) :
  ∃ b, l = rstrip_chars l ++ b ∧ spaces b ∧
       (rstrip_chars l = [] ∨
        ∃ m x, rstrip_chars l = m ++ [x] ∧ ascii_isspace x = false).
Proof.
  destruct (lstrip_chars_split (reverse l)) as (a & Hl & Ha & Hshape).
  exists (reverse a). unfold rstrip_chars. split.
  - by rewrite <- reverse_app, <- Hl, reverse_involutive.
  - split; [by apply Forall_reverse|].
    destruct Hshape as [->|(x & m & -> & Hx)]; [by left|].
    right. exists (reverse m), x. by rewrite reverse_cons.
Qed.

Lemma lstrip_chars_all (a : list ascii) : spaces a → lstrip_chars a = [].
Proof. intros Ha. by rewrite <- (app_nil_r a), lstrip_chars_spaces. Qed.

Lemma rstrip_chars_all (b : list ascii) : spaces b → rstrip_chars b = [].
Proof. intros Hb. by rewrite <- (app_nil_l b), rstrip_chars_spaces. Qed.

(** A text with a character that is not white space, with the white
    space around what is before and what is after that character. *)
Lemma strip_chars_around (p q : list ascii) (c : ascii) :
  ascii_isspace c = false →
  strip_chars (p ++ c :: q) = lstrip_chars p ++ c :: rstrip_chars q.
Proof.
  intros Hc. unfold strip_chars.
  destruct (lstrip_chars_split p) as (a & Hp & Ha & Hp').
  destruct (rstrip_chars_split q) as (b & Hq & Hb & Hq').
  assert (lstrip_chars (p ++ c :: q) = lstrip_chars p ++ c :: q) as ->.
  { rewrite Hp at 1. rewrite <- (assoc_L (++)), lstrip_chars_spaces by done.
    destruct Hp' as [->|(x & m & -> & Hx)]; simpl; [by rewrite Hc|by rewrite Hx]. }
  rewrite Hq at 1.
  replace (lstrip_chars p ++ c :: rstrip_chars q ++ b)
    with ((lstrip_chars p ++ c :: rstrip_chars q) ++ b)
    by (by rewrite <- (assoc_L (++))).
  rewrite rstrip_chars_spaces by done.
  destruct Hq' as [->|(m & x & -> & Hx)].
  - by apply rstrip_chars_last.
  - replace (lstrip_chars p ++ c :: m ++ [x]) with ((lstrip_chars p ++ c :: m) ++ [x])
      by (by rewrite <- (assoc_L (++))).
    by apply rstrip_chars_last.
Qed.

Lemma strip_chars_spaces (l : list ascii) : spaces l → strip_chars l = [].
Proof.
  intros Hl. unfold strip_chars. by rewrite lstrip_chars_all.
Qed.

(** Every text is white space, or white space around a core that
    begins and ends with something else; the core is what [strip]
    keeps. *)
Lemma strip_chars_cases (l : list ascii) :
  (spaces l ∧ strip_chars l = []) ∨
  ∃ a x b, l = a ++ strip_chars l ++ b ∧ spaces a ∧ spaces b ∧
           ascii_isspace x = false ∧
           (strip_chars l = [x] ∨
            ∃ m y, strip_chars l = x :: m ++ [y] ∧ ascii_isspace y = false).
Proof.
  destruct (lstrip_chars_split l) as (a & Hl & Ha & [Hnil|(x & m & Hm & Hx)]).
  - left. rewrite Hnil, app_nil_r in Hl. subst a. split; [done|].
    by apply strip_chars_spaces.
  - right. assert (Hstrip : strip_chars l = x :: rstrip_chars m).
    { rewrite Hl, Hm. change (a ++ x :: m) with (a ++ x :: m).
      rewrite (strip_chars_around a m x Hx).
      destruct (lstrip_chars_split a) as (a' & Ha' & _ & [->|(y & n & Hn & Hy)]); [done|].
      assert (Hin : y ∈ a) by (rewrite Ha', Hn; set_solver).
      rewrite Forall_forall in Ha. rewrite (Ha y Hin) in Hy. done. }
    destruct (rstrip_chars_split m) as (b & Hmb & Hb & Hshape).
    exists a, x, b. rewrite Hstrip. split.
    { rewrite Hl at 1. rewrite Hm. simpl. by rewrite <- Hmb. }
    split; [done|]. split; [done|]. split; [done|].
    destruct Hshape as [->|(n & y & -> & Hy)]; [by left|]. right. by exists n, y.
Qed.

Lemma strip_chars_core (a core b : list ascii) (x : ascii) :
  spaces a → spaces b → ascii_isspace x = false →
  (core = [x] ∨ ∃ m y, core = x :: m ++ [y] ∧ ascii_isspace y = false) →
  strip_chars (a ++ core ++ b) = core.
Proof.
  intros Ha Hb Hx [->|(m & y & -> & Hy)].
  - simpl. rewrite (strip_chars_around a b x Hx).
    by rewrite lstrip_chars_all, rstrip_chars_all.
  - replace (a ++ (x :: m ++ [y]) ++ b) with ((a ++ x :: m) ++ y :: b)
      by (simpl; by rewrite <- !(assoc_L (++))).
    rewrite (strip_chars_around (a ++ x :: m) b y Hy).
    rewrite rstrip_chars_all, lstrip_chars_spaces, lstrip_chars_head by done.
    done.
Qed.

(** Stripping twice is stripping once. *)
Lemma strip_chars_idemp (l : list ascii) : strip_chars (strip_chars l) = strip_chars l.
Proof.
  destruct (strip_chars_cases l) as [[_ ->]|(a & x & b & _ & _ & _ & Hx & Hcore)]; [done|].
  rewrite <- (app_nil_l (strip_chars l)) at 1. rewrite <- (app_nil_r (strip_chars l)) at 1.
  by apply (strip_chars_core [] _ [] x); [constructor|constructor|..].
Qed.

(** White space added around a text does not change what [strip]
    keeps. *)
Lemma strip_chars_padding (a l b : list ascii) :
  spaces a → spaces b → strip_chars (a ++ l ++ b) = strip_chars l.
Proof.
  intros Ha Hb.
  destruct (strip_chars_cases l)
    as [[Hl ->]|(a' & x & b' & Hl & Ha' & Hb' & Hx & Hcore)].
  - apply strip_chars_spaces. by repeat apply Forall_app_2.
  - rewrite Hl at 1.
    replace (a ++ (a' ++ strip_chars l ++ b') ++ b)
      with ((a ++ a') ++ strip_chars l ++ (b' ++ b))
      by (by rewrite <- !(assoc_L (++))).
    by apply (strip_chars_core _ _ _ x); [apply Forall_app_2|apply Forall_app_2|..].
Qed.

Lemma strip_chars_lstrip (l : list ascii) : strip_chars (lstrip_chars l) = strip_chars l.
Proof.
  destruct (lstrip_chars_split l) as (a & Hl & Ha & _).
  rewrite Hl at 2. rewrite <- (app_nil_r (lstrip_chars l)) at 2.
  by rewrite strip_chars_padding; [|done|constructor].
Qed.

Lemma strip_chars_rstrip (l : list ascii) : strip_chars (rstrip_chars l) = strip_chars l.
Proof.
  destruct (rstrip_chars_split l) as (b & Hl & Hb & _).
  rewrite Hl at 2. rewrite <- (app_nil_l (rstrip_chars l ++ b)).
  by rewrite strip_chars_padding; [|constructor|done].
Qed.

(** [strip] only takes white space away. *)
Lemma strip_chars_elem (l : list ascii) (c : ascii) :
  ascii_isspace c = false → c ∈ strip_chars l ↔ c ∈ l.
Proof.
  intros Hc.
  destruct (strip_chars_cases l) as [[Hl ->]|(a & x & b & Hl & Ha & Hb & _)].
  - split; [set_solver|]. intros Hin. rewrite Forall_forall in Hl.
    rewrite (Hl c Hin) in Hc. done.
  - rewrite Hl at 2. rewrite !elem_of_app. split; [by auto|].
    intros [Hin|[Hin|Hin]]; [|done|].
    + rewrite Forall_forall in Ha. rewrite (Ha c Hin) in Hc. done.
    + rewrite Forall_forall in Hb. rewrite (Hb c Hin) in Hc. done.
Qed.

(** ** Tests and splits on texts *)

Lemma str_contains_char (c : ascii) (s : string) :
  str_contains (String c "") s = true ↔ c ∈ chars s.
Proof.
  induction s as [|a s IH]; simpl.
  - split; [done|]. by intros ?%elem_of_nil.
  - rewrite elem_of_cons, <- IH. destruct (Ascii.ascii_dec c a) as [->|Hne]; simpl.
    + destruct s; simpl; split; auto.
    + split; [by auto|]. by intros [?|?].
Qed.

Lemma str_contains_char_false (c : ascii) (s : string) :
  str_contains (String c "") s = false ↔ c ∉ chars s.
Proof.
  rewrite <- str_contains_char. by destruct (str_contains (String c "") s).
Qed.

Lemma prefix_char (c : ascii) (s : string) :
  String.prefix (String c "") s = true ↔ head (chars s) = Some c.
Proof.
  destruct s as [|a s]; simpl; [done|].
  destruct (Ascii.ascii_dec c a) as [->|Hne].
  - by destruct s.
  - split; [done|]. intros [= ->]. done.
Qed.

Lemma str_split_once_found (c : ascii) (p q : string) :
  c ∉ chars p → str_split_once c (p +:+ String c q) = [p; q].
Proof.
  induction p as [|a p IH]; simpl; intros Hp.
  - by rewrite decide_True.
  - rewrite not_elem_of_cons in Hp. destruct Hp as [Hne Hp].
    rewrite decide_False by done. by rewrite IH.
Qed.

Lemma str_split_once_two (c : ascii) (s : string) :
  c ∈ chars s →
  ∃ p q, s = p +:+ String c q ∧ (c ∉ chars p) ∧ str_split_once c s = [p; q].
Proof.
  induction s as [|a s IH]; simpl; [by intros ?%elem_of_nil|].
  destruct (decide (a = c)) as [->|Hne].
  - intros _. exists "", s. split; [done|]. split; [apply not_elem_of_nil|done].
  - intros [?|Hin]%elem_of_cons; [done|].
    destruct (IH Hin) as (p & q & -> & Hp & ->).
    exists (String a p), q. split; [done|]. split; [|done].
    simpl. rewrite not_elem_of_cons. by split.
Qed.

Lemma str_strip_app_around (p q : string) (c : ascii) :
  ascii_isspace c = false →
  str_strip (p +:+ String c q) =
  str_lstrip p +:+ String c (String.rev (str_lstrip (String.rev q))).
Proof.
  intros Hc. apply chars_inj.
  rewrite chars_strip, !chars_app. simpl.
  rewrite (strip_chars_around _ _ _ Hc).
  change (chars (String c ?s)) with (c :: chars s).
  by rewrite chars_lstrip, chars_rev, chars_lstrip, chars_rev.
Qed.

Lemma str_strip_lstrip (s : string) : str_strip (str_lstrip s) = str_strip s.
Proof. apply chars_inj. by rewrite !chars_strip, chars_lstrip, strip_chars_lstrip. Qed.

Lemma str_strip_rstrip (s : string) :
  str_strip (String.rev (str_lstrip (String.rev s))) = str_strip s.
Proof.
  apply chars_inj. rewrite !chars_strip, chars_rev, chars_lstrip, chars_rev.
  apply strip_chars_rstrip.
Qed.

Lemma str_strip_idemp (s : string) : str_strip (str_strip s) = str_strip s.
Proof. apply chars_inj. by rewrite !chars_strip, strip_chars_idemp. Qed.

Lemma str_contains_strip (c : ascii) (s : string) :
  ascii_isspace c = false →
  str_contains (String c "") (str_strip s) = str_contains (String c "") s.
Proof.
  intros Hc. apply eq_true_iff_eq.
  by rewrite !str_contains_char, chars_strip, strip_chars_elem.
Qed.

(** What [strip] keeps begins like what [lstrip] keeps. *)
Lemma head_strip_chars (l : list ascii) : head (strip_chars l) = head (lstrip_chars l).
Proof.
  unfold strip_chars.
  destruct (lstrip_chars_split l) as (_ & _ & _ & [->|(x & m & -> & Hx)]); [done|].
  destruct (rstrip_chars_split (x :: m)) as (b & Hb & Hspaces & Hshape).
  destruct (rstrip_chars (x :: m)) as [|y n]; [|by injection Hb as ->].
  simpl in Hb. subst b. apply Forall_cons in Hspaces as [Hx' _]. congruence.
Qed.

(** ** [read_config] *)

Lemma read_line_cases (config : gmap string string) (line : string) :
  (read_line config line = Ok config ∧
   (str_strip line = "" ∨ String.prefix "#" (str_strip line) = true ∨
    str_contains "=" (str_strip line) = false)) ∨
  ∃ p q, str_strip line = p +:+ String "=" q ∧ ("="%char ∉ chars p) ∧
         str_strip line ≠ "" ∧ String.prefix "#" (str_strip line) = false ∧
         read_line config line = Ok (<[str_strip p := str_strip q]> config).
Proof.
  unfold read_line. set (L := str_strip line).
  destruct (decide (L = "")) as [HL|HL].
  { left. rewrite bool_decide_eq_true_2 by done. auto. }
  rewrite bool_decide_eq_false_2 by done. simpl.
  destruct (String.prefix "#" L) eqn:Hhash; [left; auto|].
  destruct (str_contains "=" L) eqn:Heq; simpl; [|left; auto].
  right. apply str_contains_char in Heq.
  destruct (str_split_once_two _ _ Heq) as (p & q & HLpq & Hp & ->).
  exists p, q. by rewrite <- HLpq.
Qed.

Lemma read_lines_app (before after : list string) (config : gmap string string) :
  read_lines (before ++ after) config =
  match read_lines before config with
  | Ok config' => read_lines after config'
  | Exn e => Exn e
  end.
Proof.
  revert config. induction before as [|line before IH]; intros config; simpl; [done|].
  destruct (read_line config line); [apply IH|done].
Qed.

Lemma read_lines_total (lines : list string) (config : gmap string string) :
  ∃ config', read_lines lines config = Ok config'.
Proof.
  revert config. induction lines as [|line lines IH]; intros config; simpl; [by eauto|].
  destruct (read_line_cases config line) as [[-> _]|(p & q & _ & _ & _ & _ & ->)];
    apply IH.
Qed.

Lemma trimmed_head (l : list ascii) (x : ascii) :
  head (strip_chars l) = Some x → ascii_isspace x = false.
Proof.
  destruct (strip_chars_cases l) as [[_ ->]|(a & y & b & _ & _ & _ & Hy & Hcore)];
    [done|].
  destruct Hcore as [->|(m & z & -> & _)]; simpl; congruence.
Qed.

Lemma config_key_of_line (line p q : string) :
  str_strip line = p +:+ String "=" q → "="%char ∉ chars p →
  String.prefix "#" (str_strip line) = false →
  config_key (str_strip p).
Proof.
  intros Hline Hp Hhash. split; [apply str_strip_idemp|]. split.
  - rewrite str_contains_strip by done. by apply str_contains_char_false.
  - destruct (String.prefix "#" (str_strip p)) eqn:Hpre; [|done].
    apply prefix_char in Hpre. rewrite chars_strip, head_strip_chars in Hpre.
    assert (head (chars (str_strip line)) ≠ Some "#"%char) as Hline_head.
    { intros Hhead%prefix_char. congruence. }
    pose proof (trimmed_head (chars line)) as Htrim.
    rewrite <- chars_strip, Hline, chars_app in Htrim.
    rewrite Hline, chars_app in Hline_head.
    destruct (chars p) as [|x l] eqn:Hchars; [done|].
    simpl in Htrim, Hline_head.
    rewrite lstrip_chars_head in Hpre by eauto. simpl in Hpre. congruence.
Qed.

Lemma read_line_clean (config config' : gmap string string) (line : string) :
  clean config → read_line config line = Ok config' → clean config'.
Proof.
  intros Hclean Hread.
  destruct (read_line_cases config line)
    as [[Hsame _]|(p & q & Hline & Hp & _ & Hhash & Hins)].
  { rewrite Hsame in Hread. by injection Hread as <-. }
  rewrite Hins in Hread. injection Hread as <-.
  intros key value. rewrite lookup_insert_Some.
  intros [(<- & <-)|(_ & Hlook)]; [|by apply Hclean].
  split; [by eapply config_key_of_line|apply str_strip_idemp].
Qed.

Lemma read_lines_clean (lines : list string) (config config' : gmap string string) :
  clean config → read_lines lines config = Ok config' → clean config'.
Proof.
  revert config. induction lines as [|line lines IH]; intros config Hclean; simpl.
  - by intros [= <-].
  - destruct (read_line config line) as [config1|] eqn:Hline; [|done].
    apply IH. by eapply read_line_clean.
Qed.

Lemma read_line_skipped (config : gmap string string) (line : string) :
  skipped line → read_line config line = Ok config.
Proof.
  intros Hskip. unfold read_line.
  destruct Hskip as [->|[->|Hno]]; [done|by rewrite orb_true_r|].
  rewrite str_contains_strip, Hno by done. simpl.
  by destruct (_ || _).
Qed.

(** X1: [read_config] never raises on a file that exists: the unpacking
    [key, value = line.split("=", 1)] is reached only by lines that hold
    an [=], so both scripts return a dictionary. *)
Theorem read_config_never_raises (config_path : string) (lines : list string) :
  ascii_lines lines →
  ∃ config, OrgIO.read_config config_path (Some lines) = ConfigRead (Ok config) ∧
            RepoIO.read_config config_path (Some lines) = ConfigRead (Ok config).
Proof.
  intros _. destruct (read_lines_total lines ∅) as [config Hread].
  exists config. simpl. by rewrite Hread.
Qed.

Lemma read_config_never_raises_witness :
  ∃ config,
    OrgIO.read_config "config.txt" (Some ["# settings"; "token = abc"; "junk"; "="]) =
      ConfigRead (Ok config) ∧
    RepoIO.read_config "config.txt" (Some ["# settings"; "token = abc"; "junk"; "="]) =
      ConfigRead (Ok config).
Proof.
  apply (read_config_never_raises "config.txt" ["# settings"; "token = abc"; "junk"; "="]).
  repeat constructor.
Defined.

(** X2: every key of the dictionary that [read_config] returns is free
    of white space at both ends, holds no [=] and does not begin with
    [#]; every value is free of white space at both ends. *)
Theorem read_config_clean (lines : list string) (config : gmap string string) :
  ascii_lines lines →
  read_lines lines ∅ = Ok config →
  ∀ key value, config !! key = Some value →
    str_strip key = key ∧ str_contains "=" key = false ∧
    String.prefix "#" key = false ∧ str_strip value = value.
Proof.
  intros _ Hread key value Hlook.
  assert (clean ∅) as Hempty by (intros k v; by rewrite lookup_empty).
  destruct (read_lines_clean _ _ _ Hempty Hread key value Hlook)
    as ((? & ? & ?) & ?).
  done.
Qed.

Lemma read_config_clean_witness :
  str_strip "token" = "token" ∧ str_contains "=" "token" = false ∧
  String.prefix "#" "token" = false ∧ str_strip "a = b" = "a = b".
Proof.
  apply (read_config_clean ["  token =  a = b  "] {["token" := "a = b"]}).
  - repeat constructor.
  - reflexivity.
  - reflexivity.
Defined.

Lemma read_line_assignment (config : gmap string string) (p q : string) :
  str_contains "=" p = false →
  String.prefix "#" (str_strip p) = false →
  read_line config (assignment p q) = Ok (<[str_strip p := str_strip q]> config).
Proof.
  intros Hp Hhash. apply str_contains_char_false in Hp.
  unfold read_line, assignment.
  change (p +:+ "=" +:+ q) with (p +:+ String "=" q).
  rewrite (str_strip_app_around p q "=") by done.
  set (p' := str_lstrip p). set (q' := String.rev (str_lstrip (String.rev q))).
  assert ("="%char ∉ chars p') as Hp'.
  { unfold p'. rewrite chars_lstrip. intros Hin. apply Hp.
    destruct (lstrip_chars_split (chars p)) as (a & Hsplit & _).
    rewrite Hsplit. apply elem_of_app. by right. }
  assert (head (chars (p' +:+ String "=" q')) ≠ Some "#"%char) as Hhead.
  { rewrite chars_app. intros Hhead.
    assert (head (chars (str_strip p)) ≠ Some "#"%char) as Hp_head.
    { intros ?%prefix_char. congruence. }
    rewrite chars_strip, head_strip_chars, <- chars_lstrip in Hp_head.
    fold p' in Hp_head. by destruct (chars p'). }
  rewrite bool_decide_eq_false_2; last first.
  { intros Hnil%(f_equal chars). rewrite chars_app in Hnil.
    by destruct (chars p'). }
  destruct (String.prefix "#" (p' +:+ String "=" q')) eqn:Hpre.
  { by apply prefix_char in Hpre. }
  simpl.
  assert (str_contains "=" (p' +:+ String "=" q') = true) as ->.
  { apply str_contains_char. rewrite chars_app. apply elem_of_app. right.
    apply elem_of_cons. by left. }
  simpl. rewrite str_split_once_found by done.
  unfold p', q'. by rewrite str_strip_lstrip, str_strip_rstrip.
Qed.

(** X3: a line [p=q] in which [p] holds no [=] and is not a comment
    assigns [q], stripped, to [p], stripped: the line splits at its first
    [=], whatever white space surrounds the line, the key or the value,
    and whatever [=] the value holds. *)
Theorem read_line_assigns (config : gmap string string) (p q : string) :
  ascii_only (assignment p q) = true →
  str_contains "=" p = false →
  String.prefix "#" (str_strip p) = false →
  read_line config (assignment p q) = Ok (<[str_strip p := str_strip q]> config).
Proof. intros _. apply read_line_assignment. Qed.

Lemma read_line_assigns_witness :
  read_line ∅ (assignment "  size " " a=b  ") =
  Ok (<[str_strip "  size " := str_strip " a=b  "]> ∅).
Proof. by apply read_line_assigns. Defined.

(** X4: a blank line, a comment or a line without [=] changes nothing,
    wherever it stands in the file. *)
Theorem read_config_skips (before after : list string) (line : string)
    (config : gmap string string) :
  ascii_lines (before ++ line :: after) →
  str_strip line = "" ∨ String.prefix "#" (str_strip line) = true ∨
    str_contains "=" line = false →
  read_lines (before ++ line :: after) config = read_lines (before ++ after) config.
Proof.
  intros _ Hskip. rewrite !read_lines_app.
  destruct (read_lines before config) as [config'|]; [|done].
  simpl. by rewrite (read_line_skipped config' line Hskip).
Qed.

Lemma read_config_skips_witness :
  read_lines (["a=1"] ++ "  # b=2" :: ["c=3"]) ∅ = read_lines (["a=1"] ++ ["c=3"]) ∅.
Proof.
  apply read_config_skips.
  - repeat constructor.
  - right. left. reflexivity.
Defined.





(** ** The mode typed at the prompt *)

Lemma ascii_lower_s (a : ascii) :
  ascii_lower a = "s"%char ↔ a = "s"%char ∨ a = "S"%char.
Proof.
  split.
  - destruct a as [[] [] [] [] [] [] [] []]; vm_compute; intros [=]; auto.
  - by intros [->| ->].
Qed.

Lemma str_lower_s (s : string) : str_lower s = "s" ↔ s = "s" ∨ s = "S".
Proof.
  destruct s as [|a [|b s]]; simpl.
  - split; [done|by intros [|]].
  - split.
    + intros [= Ha]. apply ascii_lower_s in Ha as [->| ->]; auto.
    + by intros [[= ->]|[= ->]].
  - split; [done|by intros [|]].
Qed.

(** X6: both scripts run in slow mode exactly when the answer at the
    prompt, white space at its ends apart, is [s] or [S]; any other
    answer, the empty one and [F] included, selects the fast mode. *)
Theorem slow_mode_iff (answer : string) :
  ascii_only answer = true →
  (OrgIO.slow_mode_of answer = true ↔ str_strip answer = "s" ∨ str_strip answer = "S") ∧
  RepoIO.slow_mode_of answer = OrgIO.slow_mode_of answer.
Proof.
  intros _. split; [|done].
  unfold OrgIO.slow_mode_of. rewrite <- str_lower_s.
  by case_bool_decide.
Qed.

Lemma slow_mode_iff_witness :
  (OrgIO.slow_mode_of "  S " = true ↔ str_strip "  S " = "s" ∨ str_strip "  S " = "S") ∧
  RepoIO.slow_mode_of "  S " = OrgIO.slow_mode_of "  S ".
Proof. by apply slow_mode_iff. Defined.

(** ** The content of a junk file *)








(** ** Names of files and repositories *)

Lemma append_inv_tail (s t rest : string) : s +:+ rest = t +:+ rest → s = t.
Proof.
  intros Heq%(f_equal chars). rewrite !chars_app in Heq.
  by apply app_inv_tail, chars_inj in Heq.
Qed.

Lemma file_name_of_inj (config : gmap string string) : Inj (=) (=) (file_name_of config).
Proof.
  intros i j Heq. unfold file_name_of in Heq.
  apply String.app_inj in Heq. apply append_inv_tail in Heq.
  by apply pretty_Z_inj.
Qed.

Lemma NoDup_py_range (start stop : Z) : NoDup (py_range start stop).
Proof.
  unfold py_range. apply NoDup_fmap_2; [|apply NoDup_seq].
  intros i j. lia.
Qed.

(** X8: the names the scripts build are distinct for distinct indices,
    whatever prefixes and extension the configuration sets: file names
    in [create_junk_file], repository names in [process_repo]; so the
    files of one batch are pairwise distinct. *)
Theorem names_distinct (repo : Repository) (config : gmap string string) (num_files : Z) :
  (∀ i j, file_name_of config i = file_name_of config j → i = j) ∧
  (∀ i j, Org.repo_name_of config i = Org.repo_name_of config j → i = j) ∧
  NoDup (batch_targets repo config num_files).
Proof.
  split; [apply file_name_of_inj|]. split.
  - intros i j Heq. unfold Org.repo_name_of in Heq.
    apply String.app_inj in Heq. by apply pretty_Z_inj.
  - unfold batch_targets. apply NoDup_fmap_2; [|apply NoDup_py_range].
    intros i j [= Heq]. by apply file_name_of_inj in Heq.
Qed.

(** ** One attempt of the organisation script, path by path *)

Lemma only_random_omap {A : Type} (f : event → option A) (tr : list event) :
  (∀ population position, f (Ev (random_choice population) position) = None) →
  only_random tr → omap f tr = [].
Proof.
  intros Hf. unfold only_random, calls. induction tr as [|[c r] tr IH]; [done|].
  rewrite fmap_cons, Forall_cons. simpl. intros [[population ->] Htr].
  rewrite Hf. auto.
Qed.

Lemma only_random_item_target (tr : list event) :
  only_random tr → omap item_target (calls tr) = [].
Proof.
  unfold only_random. induction 1 as [|c cs [population ->] _ IH]; [done|]. done.
Qed.

(** The create event of a trace that begins with random draws lies in
    what follows them. *)
Lemma create_event_after_drawn (drawn attempt : list event) repo path message content r :
  only_random drawn →
  Ev (create_file repo path message content) r ∈ drawn ++ attempt →
  Ev (create_file repo path message content) r ∈ attempt.
Proof.
  intros Hdrawn [Hin|Hin]%elem_of_app; [|done].
  apply create_event_answer in Hin. rewrite only_random_create_answer in Hin by done.
  by apply elem_of_nil in Hin.
Qed.

(** Inversion of a shape by the create event found in its trace. *)
Ltac by_create_event Hshape Hin :=
  destruct Hshape;
  pose proof (create_event_answer _ _ _ _ _ _ Hin) as Hanswer;
  apply (list_elem_of_fmap_2 ev_call) in Hin; simpl in Hanswer, Hin;
  set_unfold in Hanswer; set_unfold in Hin;
  destruct_or?; simplify_eq/=; try congruence; try done.

(** X9: when the create is accepted, [create_junk_file] of the
    organisation script returns [True] after that one remote call and
    without waiting. *)
Theorem create_accepted {Env : Type} (react : ∀ c : call, Env → resp c * Env)
    repo file_index file_size config env o env' tr repo' path message content :
  run react (Org.create_junk_file repo file_index file_size config) env = (o, env', tr) →
  Ev (create_file repo' path message content) (Ok ()) ∈ tr →
  o = Ok RTrue ∧
  item_calls tr = [create_file repo' path message content] ∧
  sleeps tr = [].
Proof.
  intros Hrun Hin.
  destruct (create_junk_file_anatomy react _ _ _ _ _ _ _ _ Hrun)
    as (content' & drawn & attempt & -> & Hdrawn & Hshape).
  apply create_event_after_drawn in Hin; [|done].
  rewrite item_calls_app, sleeps_app, only_random_item_calls, only_random_sleeps by done.
  by_create_event Hshape Hin.
Qed.

Lemma create_accepted_witness :
  (created_run).1.1 = Ok RTrue ∧
  item_calls (created_run).2 =
    [create_file Scenario.the_repo "junk-2.txt"
       "Add/Update file junk-2.txt with junk content" "a"] ∧
  sleeps (created_run).2 = [].
Proof.
  apply (create_accepted (Scenario.react_service Scenario.healthy)
           Scenario.the_repo 2 1 ∅ () _ () _ Scenario.the_repo "junk-2.txt"
           "Add/Update file junk-2.txt with junk content" "a").
  - reflexivity.
  - right. left.
Defined.

(** X10: when the create is refused with an error that is neither a
    conflict nor a rate limit, [create_junk_file] of the organisation
    script gives the operation back as failed at once: no other remote
    call, no wait. *)
Theorem create_refused_returns_task {Env : Type} (react : ∀ c : call, Env → resp c * Env)
    repo file_index file_size config env o env' tr repo' path message content e :
  run react (Org.create_junk_file repo file_index file_size config) env = (o, env', tr) →
  Ev (create_file repo' path message content) (Exn e) ∈ tr →
  conflict e = false →
  rate_limited e = false →
  o = Ok (RTuple (repo, file_index, file_size)) ∧
  item_calls tr = [create_file repo' path message content] ∧
  sleeps tr = [].
Proof.
  intros Hrun Hin Hconflict Hlimit.
  destruct (create_junk_file_anatomy react _ _ _ _ _ _ _ _ Hrun)
    as (content' & drawn & attempt & -> & Hdrawn & Hshape).
  apply create_event_after_drawn in Hin; [|done].
  rewrite item_calls_app, sleeps_app, only_random_item_calls, only_random_sleeps by done.
  by_create_event Hshape Hin.
Qed.

Lemma create_refused_returns_task_witness :
  (refused_run).1.1 = Ok (RTuple (Scenario.the_repo, 1, 1)) ∧
  item_calls (refused_run).2 =
    [create_file Scenario.the_repo "junk-1.txt"
       "Add/Update file junk-1.txt with junk content" "a"] ∧
  sleeps (refused_run).2 = [].
Proof.
  apply (create_refused_returns_task (Scenario.react_service (Scenario.refusing server_error))
           Scenario.the_repo 1 1 ∅ () _ () _ Scenario.the_repo "junk-1.txt"
           "Add/Update file junk-1.txt with junk content" "a" server_error).
  - reflexivity.
  - right. left.
  - reflexivity.
  - reflexivity.
Defined.

(** The lemma on a run in which the file exists and the connection
    drops during the update. *)
Lemma conflict_compensation_witness :
  ∃ read,
    omap get_answer (conflict_run).2 = [read] ∧
    match read with
    | Ok current =>
        ∃ updated,
          omap update_answer (conflict_run).2 = [updated] ∧
          item_calls (conflict_run).2 =
            [create_file Scenario.the_repo "junk-1.txt"
               "Add/Update file junk-1.txt with junk content" "a";
             get_contents Scenario.the_repo "junk-1.txt";
             update_file Scenario.the_repo "junk-1.txt"
               "Add/Update file junk-1.txt with junk content" "a" (sha current)] ∧
          (conflict_run).1.1 = after_conflict (Scenario.the_repo, 1, 1) updated
    | Exn read_error =>
        omap update_answer (conflict_run).2 = [] ∧
        item_calls (conflict_run).2 =
          [create_file Scenario.the_repo "junk-1.txt"
             "Add/Update file junk-1.txt with junk content" "a";
           get_contents Scenario.the_repo "junk-1.txt"] ∧
        (conflict_run).1.1 = after_conflict (Scenario.the_repo, 1, 1) (Exn read_error)
    end.
Proof.
  apply (conflict_compensation (Scenario.react_service dropping_on_update)
           Scenario.the_repo 1 1 ∅ () _ () _ Scenario.the_repo "junk-1.txt"
           "Add/Update file junk-1.txt with junk content" "a" already_exists).
  - reflexivity.
  - right. left.
  - reflexivity.
Defined.

Lemma only_random_answers (drawn : list event) :
  only_random drawn →
  omap create_answer drawn = [] ∧ omap get_answer drawn = [] ∧
  omap update_answer drawn = [].
Proof. intros Hdrawn. by rewrite !only_random_omap. Qed.

(** X12: [create_junk_file] of the organisation script returns [True]
    exactly when the service accepted the create or the update. *)
Theorem true_iff_written {Env : Type} (react : ∀ c : call, Env → resp c * Env)
    repo file_index file_size config env o env' tr :
  run react (Org.create_junk_file repo file_index file_size config) env = (o, env', tr) →
  o = Ok RTrue ↔ Ok () ∈ omap create_answer tr ∨ Ok () ∈ omap update_answer tr.
Proof.
  intros Hrun.
  destruct (create_junk_file_anatomy react _ _ _ _ _ _ _ _ Hrun)
    as (content' & drawn & attempt & -> & Hdrawn & Hshape).
  destruct (only_random_answers drawn Hdrawn) as (Hc & _ & Hu).
  rewrite !omap_app, Hc, Hu. simpl.
  destruct Hshape; simpl; rewrite ?elem_of_cons, ?elem_of_nil;
    (split; [intros Heq; try discriminate Heq; auto|]);
    intros Hin; try done; destruct_or?; simplify_eq; done.
Qed.

Lemma true_iff_written_witness :
  (conflict_run).1.1 = Ok RTrue ↔
  Ok () ∈ omap create_answer (conflict_run).2 ∨ Ok () ∈ omap update_answer (conflict_run).2.
Proof.
  apply (true_iff_written (Scenario.react_service dropping_on_update)
           Scenario.the_repo 1 1 ∅ () _ () _).
  reflexivity.
Defined.

(** X13: [create_junk_file] of the organisation script raises only on
    the conflict path, and only what the read or the update raised that
    is not a [GithubException]; every other failure is returned. *)
Theorem raises_only_in_compensation {Env : Type} (react : ∀ c : call, Env → resp c * Env)
    repo file_index file_size config env e env' tr :
  run react (Org.create_junk_file repo file_index file_size config) env = (Exn e, env', tr) →
  (∃ refusal, omap create_answer tr = [Exn refusal] ∧ conflict refusal = true) ∧
  (∃ text, e = PyException text) ∧
  (last (omap get_answer tr) = Some (Exn e) ∨ last (omap update_answer tr) = Some (Exn e)).
Proof.
  intros Hrun.
  destruct (create_junk_file_anatomy react _ _ _ _ _ _ _ _ Hrun)
    as (content' & drawn & attempt & -> & Hdrawn & Hshape).
  destruct (only_random_answers drawn Hdrawn) as (Hc & Hg & Hu).
  rewrite !omap_app, Hc, Hg, Hu. simpl.
  inversion Hshape; subst; simpl; eauto 10.
Qed.

Lemma raises_only_in_compensation_witness :
  (∃ refusal, omap create_answer (conflict_run).2 = [Exn refusal] ∧ conflict refusal = true) ∧
  (∃ text, connection_lost = PyException text) ∧
  (last (omap get_answer (conflict_run).2) = Some (Exn connection_lost) ∨
   last (omap update_answer (conflict_run).2) = Some (Exn connection_lost)).
Proof.
  apply (raises_only_in_compensation (Scenario.react_service dropping_on_update)
           Scenario.the_repo 1 1 ∅ () connection_lost ()).
  reflexivity.
Defined.

(** X14: an attempt of the organisation script touches only its own
    file: it makes one create and at most two further remote calls, all
    aimed at the file of the operation in the repository of the
    operation. *)
Theorem attempt_footprint {Env : Type} (react : ∀ c : call, Env → resp c * Env)
    repo file_index file_size config env o env' tr :
  run react (Org.create_junk_file repo file_index file_size config) env = (o, env', tr) →
  created tr = [(repo, file_name_of config file_index)] ∧
  (length (item_calls tr) ≤ 3)%nat ∧
  omap item_target (calls tr) =
    replicate (length (item_calls tr)) (repo, file_name_of config file_index).
Proof.
  intros Hrun.
  destruct (create_junk_file_anatomy react _ _ _ _ _ _ _ _ Hrun)
    as (content' & drawn & attempt & -> & Hdrawn & Hshape).
  unfold created.
  rewrite item_calls_app, calls_app, !omap_app, only_random_item_calls,
    only_random_item_target, only_random_target by done.
  destruct Hshape; simpl; repeat split; try done; lia.
Qed.

Lemma attempt_footprint_witness :
  created (conflict_run).2 = [(Scenario.the_repo, file_name_of ∅ 1)] ∧
  (length (item_calls (conflict_run).2) ≤ 3)%nat ∧
  omap item_target (calls (conflict_run).2) =
    replicate (length (item_calls (conflict_run).2)) (Scenario.the_repo, file_name_of ∅ 1).
Proof.
  apply (attempt_footprint (Scenario.react_service dropping_on_update)
           Scenario.the_repo 1 1 ∅ () (Exn connection_lost) () _).
  reflexivity.
Defined.

(** X15: an attempt of the organisation script waits only for a rate
    limit: its trace holds one wait of [RATE_LIMIT_DELAY] when the
    create was refused with status 403 or with an error whose text
    mentions 403, and no wait at all otherwise. *)
Theorem waits_only_when_rate_limited {Env : Type} (react : ∀ c : call, Env → resp c * Env)
    repo file_index file_size config env o env' tr :
  run react (Org.create_junk_file repo file_index file_size config) env = (o, env', tr) →
  ∃ answer,
    omap create_answer tr = [answer] ∧
    sleeps tr = match answer with
                | Ok _ => []
                | Exn e => if rate_limited e then [sleep Org.RATE_LIMIT_DELAY] else []
                end.
Proof.
  intros Hrun.
  destruct (create_junk_file_anatomy react _ _ _ _ _ _ _ _ Hrun)
    as (content' & drawn & attempt & -> & Hdrawn & Hshape).
  rewrite sleeps_app, omap_app, only_random_sleeps, only_random_create_answer by done.
  destruct Hshape; simpl; eexists; (split; [done|]); simpl;
    repeat match goal with
           | H : conflict ?e = true |- _ =>
               destruct (rate_limited e) eqn:Hlimit;
               [apply rate_limited_not_conflict in Hlimit; congruence|]; clear H
           | H : rate_limited ?e = _ |- _ => rewrite H; clear H
           end; done.
Qed.

Lemma waits_only_when_rate_limited_witness :
  ∃ answer,
    omap create_answer (refused_run).2 = [answer] ∧
    sleeps (refused_run).2 = match answer with
                             | Ok _ => []
                             | Exn e => if rate_limited e then [sleep Org.RATE_LIMIT_DELAY] else []
                             end.
Proof.
  apply (waits_only_when_rate_limited (Scenario.react_service (Scenario.refusing server_error))
           Scenario.the_repo 1 1 ∅ () (Ok (RTuple (Scenario.the_repo, 1, 1))) () _).
  reflexivity.
Defined.

(** ** One attempt of the single-repository script *)

(** Case analysis on the answers of the environment [react], and on the
    branches they select, along a run. *)
Ltac walk_with react :=
  repeat (simpl;
          match goal with
          | u : unit |- _ => destruct u
          | |- context [react ?c ?env] =>
              let r := fresh "r" in
              let env' := fresh "env" in
              destruct (react c env) as [r env'] eqn:?; simpl in r; destruct r
          | |- context [match ?e with GithubException _ _ => _ | PyException _ => _ end] =>
              destruct e
          | |- context [decide ?P] => destruct (decide P)
          end).

Lemma only_random_item_error (drawn : list event) :
  only_random drawn → omap item_error drawn = [].
Proof. intros Hdrawn. by rewrite only_random_omap. Qed.

(** X16: [create_junk_file] of the single-repository script prints and
    swallows every [GithubException]; the exceptions that leave it are
    exactly the other exceptions with which a remote call was
    answered. *)
Theorem repo_attempt_raises_iff {Env : Type} (react : ∀ c : call, Env → resp c * Env)
    repo file_index file_size config env o env' tr e :
  run react (Repo.create_junk_file repo file_index file_size config) env = (o, env', tr) →
  o = Exn e ↔ (∃ text, e = PyException text) ∧ e ∈ omap item_error tr.
Proof.
  unfold Repo.create_junk_file. rewrite run_bind.
  destruct (run_random_string_newlined react file_size env)
    as (content & env1 & drawn & -> & Hdrawn).
  walk_with react; intros [= <- <- <-];
    rewrite omap_app, only_random_item_error by done; simpl;
    rewrite ?elem_of_cons, ?elem_of_nil;
    (split; [intros [= <-]; eauto 6|]);
    intros [[text' ->] Hin]; destruct_or?; simplify_eq; done.
Qed.

Lemma repo_attempt_raises_iff_witness :
  (repo_conflict_run).1.1 = Exn connection_lost ↔
  (∃ text, connection_lost = PyException text) ∧
  connection_lost ∈ omap item_error (repo_conflict_run).2.
Proof.
  apply (repo_attempt_raises_iff (Scenario.react_service dropping_on_update)
           Scenario.the_repo 1 1 ∅ () _ () _).
  reflexivity.
Defined.

(** The call and the answer of a create event found among the events
    that follow the random draws. *)
Ltac use_create_event Hin :=
  pose proof (create_event_answer _ _ _ _ _ _ Hin) as Hanswer;
  apply (list_elem_of_fmap_2 ev_call) in Hin; simpl in Hanswer, Hin;
  set_unfold in Hanswer; set_unfold in Hin;
  destruct_or?; simplify_eq/=; try congruence; try done.

(** X17: in the single-repository script a create refused with status
    409 or 403 is followed by one read of the file and, when the read
    succeeds, by one update with the version token just read; on 403
    the read comes right after a wait of 60 seconds, on 409 there is no
    wait. *)
Theorem repo_refusal_then_update {Env : Type} (react : ∀ c : call, Env → resp c * Env)
    repo file_index file_size config env o env' tr repo' path message content
    status data :
  run react (Repo.create_junk_file repo file_index file_size config) env = (o, env', tr) →
  Ev (create_file repo' path message content) (Exn (GithubException status data)) ∈ tr →
  status = 409 ∨ status = 403 →
  ∃ read,
    omap get_answer tr = [read] ∧
    item_calls tr =
      create_file repo' path message content :: get_contents repo' path ::
      match read with
      | Ok current => [update_file repo' path message content (sha current)]
      | Exn _ => []
      end ∧
    sleeps tr = (if decide (status = 403) then [sleep 60] else []) ∧
    (status = 403 →
     ∃ before later, calls tr = before ++ sleep 60 :: get_contents repo' path :: later).
Proof.
  unfold Repo.create_junk_file. rewrite run_bind.
  destruct (run_random_string_newlined react file_size env)
    as (content' & env1 & drawn & -> & Hdrawn).
  intros Hrun Hin Hstatus. revert Hrun.
  walk_with react; intros [= <- <- <-];
    apply create_event_after_drawn in Hin; try done;
    destruct (only_random_answers drawn Hdrawn) as (_ & Hget & _);
    rewrite item_calls_app, sleeps_app, calls_app, omap_app, Hget,
      only_random_item_calls, only_random_sleeps by done;
    use_create_event Hin;
    try (destruct Hstatus; congruence);
    (eexists; split; [reflexivity|]; simpl;
     rewrite ?decide_True, ?decide_False by done;
     split; [done|]; split; [done|]; intros Hs; try done).
  all: match goal with
       | |- ∃ before later, calls ?d ++ ?l = _ =>
           exists (calls d ++ take 3 l), (drop 5 l); by rewrite <- app_assoc
       end.
Qed.

Lemma repo_refusal_then_update_witness :
  ∃ read,
    omap get_answer (repo_forbidden_run).2 = [read] ∧
    item_calls (repo_forbidden_run).2 =
      create_file Scenario.the_repo "junk-1.txt"
        "Add/Update file junk-1.txt with junk content" "a" ::
      get_contents Scenario.the_repo "junk-1.txt" ::
      match read with
      | Ok current =>
          [update_file Scenario.the_repo "junk-1.txt"
             "Add/Update file junk-1.txt with junk content" "a" (sha current)]
      | Exn _ => []
      end ∧
    sleeps (repo_forbidden_run).2 = (if decide (403 = 403) then [sleep 60] else []) ∧
    (403 = 403 →
     ∃ before later,
       calls (repo_forbidden_run).2 =
       before ++ sleep 60 :: get_contents Scenario.the_repo "junk-1.txt" :: later).
Proof.
  apply (repo_refusal_then_update (Scenario.react_service (Scenario.refusing forbidden))
           Scenario.the_repo 1 1 ∅ () (Ok ()) () _ Scenario.the_repo "junk-1.txt"
           "Add/Update file junk-1.txt with junk content" "a" 403 "API rate limit exceeded").
  - reflexivity.
  - right. left.
  - by right.
Defined.

(** X18: an attempt of the single-repository script touches only its
    own file: one create and at most two further remote calls, all aimed
    at the file of the operation, and at most one wait, of 60 seconds. *)
Theorem repo_attempt_footprint {Env : Type} (react : ∀ c : call, Env → resp c * Env)
    repo file_index file_size config env o env' tr :
  run react (Repo.create_junk_file repo file_index file_size config) env = (o, env', tr) →
  created tr = [(repo, file_name_of config file_index)] ∧
  (length (item_calls tr) ≤ 3)%nat ∧
  omap item_target (calls tr) =
    replicate (length (item_calls tr)) (repo, file_name_of config file_index) ∧
  (sleeps tr = [] ∨ sleeps tr = [sleep 60]).
Proof.
  unfold Repo.create_junk_file. rewrite run_bind.
  destruct (run_random_string_newlined react file_size env)
    as (content' & env1 & drawn & -> & Hdrawn).
  walk_with react; intros [= <- <- <-]; unfold created;
    rewrite item_calls_app, sleeps_app, calls_app, !omap_app, only_random_item_calls,
      only_random_sleeps, only_random_item_target, only_random_target by done;
    simpl; repeat split; try done; try lia; auto.
Qed.

Lemma repo_attempt_footprint_witness :
  created (repo_forbidden_run).2 = [(Scenario.the_repo, file_name_of ∅ 1)] ∧
  (length (item_calls (repo_forbidden_run).2) ≤ 3)%nat ∧
  omap item_target (calls (repo_forbidden_run).2) =
    replicate (length (item_calls (repo_forbidden_run).2))
      (Scenario.the_repo, file_name_of ∅ 1) ∧
  (sleeps (repo_forbidden_run).2 = [] ∨ sleeps (repo_forbidden_run).2 = [sleep 60]).
Proof.
  apply (repo_attempt_footprint (Scenario.react_service (Scenario.refusing forbidden))
           Scenario.the_repo 1 1 ∅ () (Ok ()) () _).
  reflexivity.
Defined.

(** ** A retry round, from its parts *)

Section RoundParts.
Context {Env : Type} (react : ∀ c : call, Env → resp c * Env).

Lemma append_failure_app (failures : list task) (result : py_result) :
  Org.append_failure failures result = failures ++ Org.append_failure [] result.
Proof. destruct result; simpl; by rewrite ?app_nil_r. Qed.

(** The loop of a round only ever extends the list it was given. *)
Lemma run_retry_loop_from tasks config slow_mode new_failures env :
  run react (Org.retry_loop tasks config slow_mode new_failures) env =
  let '(o, env', tr) := run react (Org.retry_loop tasks config slow_mode []) env in
  (match o with Ok failures => Ok (new_failures ++ failures) | Exn e => Exn e end,
   env', tr).
Proof.
  revert new_failures env.
  induction tasks as [|[[repo file_index] file_size] rest IH]; intros new_failures env.
  { simpl. by rewrite app_nil_r. }
  simpl Org.retry_loop. rewrite !run_bind.
  destruct (run_pause react slow_mode env) as (env1 & ->). rewrite !run_bind.
  destruct (run react (Org.create_junk_file repo file_index file_size config) env1)
    as [[[result|e] env2] tr1]; [|done].
  rewrite (IH (Org.append_failure new_failures result)),
    (IH (Org.append_failure [] result)).
  destruct (run react (Org.retry_loop rest config slow_mode []) env2)
    as [[[failures|e] env3] tr2]; [|done].
  by rewrite (append_failure_app new_failures), <- (assoc_L (++)).
Qed.

Lemma run_retry_cons repo file_index file_size rest config slow_mode env :
  run react (Org.retry_failed_files ((repo, file_index, file_size) :: rest)
               config slow_mode) env =
  let '(_, env1, tr0) := run react (when slow_mode (time_sleep 1)) env in
  match run react (Org.create_junk_file repo file_index file_size config) env1 with
  | (Ok result, env2, tr1) =>
      let '(o, env3, tr2) := run react (Org.retry_failed_files rest config slow_mode) env2 in
      (match o with
       | Ok failures => Ok (Org.append_failure [] result ++ failures)
       | Exn e => Exn e
       end, env3, tr0 ++ tr1 ++ tr2)
  | (Exn e, env2, tr1) => (Exn e, env2, tr0 ++ tr1)
  end.
Proof.
  unfold Org.retry_failed_files. simpl Org.retry_loop. rewrite !run_bind.
  destruct (run_pause react slow_mode env) as (env1 & ->). rewrite !run_bind.
  destruct (run react (Org.create_junk_file repo file_index file_size config) env1)
    as [[[result|e] env2] tr1]; [|done].
  rewrite run_retry_loop_from.
  by destruct (run react (Org.retry_loop rest config slow_mode []) env2)
    as [[[failures|e] env3] tr2].
Qed.

End RoundParts.

(** X19: a retry round over a list in two parts is the round over the
    first part followed, when that one returns, by the round over the
    second part from the environment the first one left: the failures
    and the traces are concatenated, and an exception of the first part
    ends the round. *)
Theorem retry_round_app {Env : Type} (react : ∀ c : call, Env → resp c * Env)
    (first second : list task) config slow_mode (env : Env) :
  run react (Org.retry_failed_files (first ++ second) config slow_mode) env =
  match run react (Org.retry_failed_files first config slow_mode) env with
  | (Ok failures1, env1, tr1) =>
      let '(o, env2, tr2) :=
        run react (Org.retry_failed_files second config slow_mode) env1 in
      (match o with
       | Ok failures2 => Ok (failures1 ++ failures2)
       | Exn e => Exn e
       end, env2, tr1 ++ tr2)
  | (Exn e, env1, tr1) => (Exn e, env1, tr1)
  end.
Proof.
  revert env. induction first as [|[[repo file_index] file_size] first IH]; intros env.
  { simpl. by destruct (run react (Org.retry_failed_files second config slow_mode) env)
      as [[[failures|e] env2] tr2]. }
  rewrite <- app_comm_cons, !run_retry_cons.
  destruct (run react (when slow_mode (time_sleep 1)) env) as [[_ env1] tr0].
  destruct (run react (Org.create_junk_file repo file_index file_size config) env1)
    as [[[result|e] env2] tr1]; [|done].
  rewrite IH.
  destruct (run react (Org.retry_failed_files first config slow_mode) env2)
    as [[[failures1|e] env3] tr2]; [|by rewrite (assoc_L (++))].
  destruct (run react (Org.retry_failed_files second config slow_mode) env3)
    as [[[failures2|e] env4] tr3]; by rewrite !(assoc_L (++)).
Qed.

(** ** Rounds against a service that accepts, or refuses, every create *)

Section Services.
Context {Env : Type} (react : ∀ c : call, Env → resp c * Env).

(** Every answer in the trace of a run is an answer of the environment. *)
Lemma run_answers {A : Type} (p : prog A) env o env' tr :
  run react p env = (o, env', tr) →
  Forall (λ ev, ∃ env0, ev_resp ev = (react (ev_call ev) env0).1) tr.
Proof.
  revert env o env' tr. induction p as [a|e|c k IH]; intros env o env' tr; simpl.
  - by intros [= <- <- <-].
  - by intros [= <- <- <-].
  - destruct (react c env) as [r env1] eqn:Hreact.
    destruct (run react (k r) env1) as [[o2 env2] tr2] eqn:Hrun.
    intros [= <- <- <-]. constructor; [|by eapply IH].
    exists env. simpl. by rewrite Hreact.
Qed.

Lemma create_answer_of_run {A : Type} (p : prog A) env o env' tr
    repo path message content (r : outcome unit) :
  run react p env = (o, env', tr) →
  Ev (create_file repo path message content) r ∈ tr →
  ∃ env0, r = (react (create_file repo path message content) env0).1.
Proof.
  intros Hrun Hin. apply run_answers in Hrun.
  rewrite Forall_forall in Hrun. apply (Hrun _ Hin).
Qed.

Lemma pauses_app (tr1 tr2 : list event) : pauses (tr1 ++ tr2) = pauses tr1 ++ pauses tr2.
Proof. unfold pauses. by rewrite calls_app, filter_app. Qed.

Lemma only_random_pauses (tr : list event) : only_random tr → pauses tr = [].
Proof.
  unfold only_random, pauses. induction 1 as [|c cs [population ->] _ IH]; [done|].
  by rewrite filter_cons_False by (simpl; tauto).
Qed.

Lemma attempt_shape_pauses repo file_index file_size config content o attempt :
  attempt_shape repo file_index file_size config content o attempt →
  pauses attempt = [] ∧
  Forall (λ c, c = sleep 1 ∨ c = sleep Org.RATE_LIMIT_DELAY) (sleeps attempt).
Proof. destruct 1; split; try done. apply Forall_singleton. by right. Qed.

Lemma sequential_attempts_pauses config slow_mode tasks tr :
  sequential_attempts config slow_mode tasks tr →
  pauses tr = replicate (if slow_mode then length tasks else 0%nat) (sleep 1) ∧
  Forall (λ c, c = sleep 1 ∨ c = sleep Org.RATE_LIMIT_DELAY) (sleeps tr).
Proof.
  induction 1 as [|repo file_index file_size rest content drawn attempt o later
                   Hdrawn Hshape _ [IHp IHs]].
  { split; [by destruct slow_mode|constructor]. }
  destruct (attempt_shape_pauses _ _ _ _ _ _ _ Hshape) as [Hp Hs].
  rewrite !pauses_app, !sleeps_app, (only_random_pauses drawn),
    (only_random_sleeps drawn), Hp, IHp by done.
  split.
  - by destruct slow_mode.
  - rewrite !Forall_app. split; [|by auto].
    destruct slow_mode; [apply Forall_singleton; by left|constructor].
Qed.

(** One attempt against a service that accepts every create. *)
Lemma attempt_when_accepted repo file_index file_size config env o env' tr :
  accepts_creates react →
  run react (Org.create_junk_file repo file_index file_size config) env = (o, env', tr) →
  o = Ok RTrue ∧ length (item_calls tr) = 1%nat.
Proof.
  intros Haccept Hrun.
  destruct (create_junk_file_anatomy react _ _ _ _ _ _ _ _ Hrun)
    as (content & drawn & attempt & -> & Hdrawn & Hshape).
  rewrite item_calls_app, only_random_item_calls by done.
  destruct Hshape; try done;
    match goal with
    | _ : run _ _ _ = (_, _, _ ++ Ev (create_file ?r ?p ?m ?c) (Exn ?e) :: _) |- _ =>
        destruct (create_answer_of_run _ _ _ _ _ r p m c (Exn e) Hrun) as [env0 Hanswer];
        [apply elem_of_app; right; by left|];
        by rewrite Haccept in Hanswer
    end.
Qed.

(** One attempt against a service that refuses every create, never with
    a conflict. *)
Lemma attempt_when_refused repo file_index file_size config env o env' tr :
  refuses_creates react →
  run react (Org.create_junk_file repo file_index file_size config) env = (o, env', tr) →
  o = Ok (RTuple (repo, file_index, file_size)) ∧ length (item_calls tr) = 1%nat.
Proof.
  intros Hrefuse Hrun.
  destruct (create_junk_file_anatomy react _ _ _ _ _ _ _ _ Hrun)
    as (content & drawn & attempt & -> & Hdrawn & Hshape).
  rewrite item_calls_app, only_random_item_calls by done.
  destruct Hshape; try done;
    match goal with
    | _ : run _ _ _ = (_, _, _ ++ Ev (create_file ?r ?p ?m ?c) ?a :: _) |- _ =>
        destruct (create_answer_of_run _ _ _ _ _ r p m c a Hrun) as [env0 Hanswer];
        [apply elem_of_app; right; by left|];
        destruct (Hrefuse env0 r p m c) as (e' & He' & Hconflict);
        rewrite He' in Hanswer; simplify_eq; try congruence; done
    end.
Qed.

Lemma retry_when_accepted failed_tasks config slow_mode env :
  accepts_creates react →
  ∃ env' tr,
    run react (Org.retry_failed_files failed_tasks config slow_mode) env = (Ok [], env', tr) ∧
    length (item_calls tr) = length failed_tasks.
Proof.
  intros Haccept. revert env.
  induction failed_tasks as [|[[repo file_index] file_size] rest IH]; intros env.
  { by exists env, []. }
  rewrite run_retry_cons.
  destruct (run_pause react slow_mode env) as (env1 & ->).
  destruct (run react (Org.create_junk_file repo file_index file_size config) env1)
    as [[o env2] tr1] eqn:Hattempt.
  destruct (attempt_when_accepted _ _ _ _ _ _ _ _ Haccept Hattempt) as [-> Hone].
  destruct (IH env2) as (env3 & tr2 & -> & Hrest).
  exists env3, (pause slow_mode ++ tr1 ++ tr2). split; [done|].
  rewrite !item_calls_app, !length_app, Hone, Hrest. by destruct slow_mode.
Qed.

Lemma retry_when_refused failed_tasks config slow_mode env :
  refuses_creates react →
  ∃ env' tr,
    run react (Org.retry_failed_files failed_tasks config slow_mode) env =
      (Ok failed_tasks, env', tr) ∧
    length (item_calls tr) = length failed_tasks.
Proof.
  intros Hrefuse. revert env.
  induction failed_tasks as [|[[repo file_index] file_size] rest IH]; intros env.
  { by exists env, []. }
  rewrite run_retry_cons.
  destruct (run_pause react slow_mode env) as (env1 & ->).
  destruct (run react (Org.create_junk_file repo file_index file_size config) env1)
    as [[o env2] tr1] eqn:Hattempt.
  destruct (attempt_when_refused _ _ _ _ _ _ _ _ Hrefuse Hattempt) as [-> Hone].
  destruct (IH env2) as (env3 & tr2 & -> & Hrest).
  exists env3, (pause slow_mode ++ tr1 ++ tr2). split; [done|].
  rewrite !item_calls_app, !length_app, Hone, Hrest. by destruct slow_mode.
Qed.

End Services.

(** X20: a retry round that returns has paused for one second before
    each task in slow mode and not at all in fast mode; its only other
    waits are the cool-downs of [RATE_LIMIT_DELAY] seconds. *)
Theorem retry_round_pauses {Env : Type} (react : ∀ c : call, Env → resp c * Env)
    failed_tasks config slow_mode env new_failures env' tr :
  run react (Org.retry_failed_files failed_tasks config slow_mode) env =
    (Ok new_failures, env', tr) →
  pauses tr = replicate (if slow_mode then length failed_tasks else 0%nat) (sleep 1) ∧
  Forall (λ c, c = sleep 1 ∨ c = sleep Org.RATE_LIMIT_DELAY) (sleeps tr).
Proof.
  intros Hrun. unfold Org.retry_failed_files in Hrun.
  destruct (retry_loop_spec react _ _ _ _ _ _ _ _ Hrun)
    as (attempted & _ & Hseq & -> & _).
  by apply (sequential_attempts_pauses config).
Qed.

Lemma retry_round_pauses_witness :
  pauses (failing_round true).2 = replicate (length two_tasks) (sleep 1) ∧
  Forall (λ c, c = sleep 1 ∨ c = sleep Org.RATE_LIMIT_DELAY) (sleeps (failing_round true).2).
Proof.
  apply (retry_round_pauses (Scenario.react_service (Scenario.refusing server_error))
           two_tasks ∅ true () two_tasks () _).
  reflexivity.
Defined.

(** X21: against a service that accepts every create, a retry round
    returns the empty list after one remote call for each task. *)
Theorem retry_round_all_accepted {Env : Type} (react : ∀ c : call, Env → resp c * Env)
    failed_tasks config slow_mode env :
  accepts_creates react →
  ∃ env' tr,
    run react (Org.retry_failed_files failed_tasks config slow_mode) env = (Ok [], env', tr) ∧
    length (item_calls tr) = length failed_tasks.
Proof. apply retry_when_accepted. Qed.

Lemma healthy_accepts_creates : accepts_creates (Scenario.react_service Scenario.healthy).
Proof. by intros env repo path message content. Defined.

Lemma refusing_refuses_creates :
  refuses_creates (Scenario.react_service (Scenario.refusing server_error)).
Proof. intros env repo path message content. by exists server_error. Defined.

Lemma retry_round_all_accepted_witness :
  ∃ env' tr,
    run (Scenario.react_service Scenario.healthy)
        (Org.retry_failed_files two_tasks ∅ true) () = (Ok [], env', tr) ∧
    length (item_calls tr) = length two_tasks.
Proof. apply retry_round_all_accepted, healthy_accepts_creates. Defined.

(** X22: against a service that refuses every create with an error that
    is not a conflict, a retry round returns the list it was given,
    unchanged and in order, after one remote call for each task. *)
Theorem retry_round_all_refused {Env : Type} (react : ∀ c : call, Env → resp c * Env)
    failed_tasks config slow_mode env :
  refuses_creates react →
  ∃ env' tr,
    run react (Org.retry_failed_files failed_tasks config slow_mode) env =
      (Ok failed_tasks, env', tr) ∧
    length (item_calls tr) = length failed_tasks.
Proof. apply retry_when_refused. Qed.

Lemma retry_round_all_refused_witness :
  ∃ env' tr,
    run (Scenario.react_service (Scenario.refusing server_error))
        (Org.retry_failed_files two_tasks ∅ true) () = (Ok two_tasks, env', tr) ∧
    length (item_calls tr) = length two_tasks.
Proof. apply retry_round_all_refused, refusing_refuses_creates. Defined.

(** ** The global retry against such services *)

Section GlobalRetry.
Context {Env : Type} (react : ∀ c : call, Env → resp c * Env).

Lemma item_calls_cons_other (c : call) (r : resp c) (tr : list event) :
  is_item_call c = false → item_calls (Ev c r :: tr) = item_calls tr.
Proof.
  intros Hc. unfold item_calls, calls. rewrite fmap_cons. simpl.
  by rewrite filter_cons_False by (rewrite Hc; tauto).
Qed.

Lemma retry_rounds_when_accepted attempt later failed config slow_mode env :
  accepts_creates react →
  ∃ env' tr,
    run react (Org.retry_rounds (attempt :: later) failed config slow_mode) env =
      (Ok [], env', tr) ∧
    rounds tr = 1%nat ∧ round_waits tr = 0%nat ∧
    length (item_calls tr) = length failed ∧
    last (calls tr) = Some (print success_message).
Proof.
  intros Haccept. simpl. fold (round_message attempt).
  destruct (react (print (round_message attempt)) env) as [[] env0].
  rewrite run_bind.
  destruct (retry_when_accepted react failed config slow_mode env0 Haccept)
    as (env1 & tr1 & Hround & Hitems).
  rewrite Hround. simpl.
  destruct (retry_failed_files_within_round react _ _ _ _ _ _ _ Hround) as [Hr0 Hw0].
  destruct (react (print _) env1) as [[] env2]. fold success_message.
  eexists _, _. split; [done|].
  rewrite rounds_cons, round_waits_cons, rounds_app, round_waits_app,
    round_message_start, Hr0, Hw0, item_calls_cons_other, item_calls_app by done.
  change (calls (?x :: ?l)) with (ev_call x :: calls l).
  rewrite calls_app, last_cons, last_app, length_app, Hitems. simpl.
  repeat split; try done; lia.
Qed.

Lemma retry_rounds_when_refused attempts t failed config slow_mode env :
  refuses_creates react →
  ∃ env' tr,
    run react (Org.retry_rounds attempts (t :: failed) config slow_mode) env =
      (Ok (t :: failed), env', tr) ∧
    rounds tr = length attempts ∧ round_waits tr = length attempts ∧
    length (item_calls tr) = (length attempts * length (t :: failed))%nat.
Proof.
  intros Hrefuse. revert env. induction attempts as [|attempt later IH]; intros env.
  { by exists env, []. }
  simpl. fold (round_message attempt).
  destruct (react (print (round_message attempt)) env) as [[] env0].
  rewrite run_bind.
  destruct (retry_when_refused react (t :: failed) config slow_mode env0 Hrefuse)
    as (env1 & tr1 & Hround & Hitems).
  rewrite Hround. simpl.
  destruct (retry_failed_files_within_round react _ _ _ _ _ _ _ Hround) as [Hr0 Hw0].
  destruct (react (print _) env1) as [[] env2].
  destruct (react (sleep _) env2) as [[] env3].
  destruct (IH env3) as (env4 & tr2 & Hlater & Hr & Hw & Hi).
  rewrite Hlater. eexists _, _. split; [done|].
  assert (is_round_start
            (print (pretty (S (length failed)) +:+ " file(s) still failed.")) = false)
    as Hmsg by (by apply leading_newline_round_start, pretty_nat_leading).
  rewrite rounds_cons, round_waits_cons, rounds_app, round_waits_app,
    !rounds_cons, !round_waits_cons, round_message_start, Hmsg, Hr0, Hw0, Hr, Hw,
    item_calls_cons_other, item_calls_app, !item_calls_cons_other, length_app, Hitems, Hi
    by done.
  simpl. repeat split; lia.
Qed.

End GlobalRetry.

(** X23: against a service that accepts every create, the global retry
    of a list that is not empty ends in its first round: one remote call
    for each task, the success message last, and the empty list. *)
Theorem global_retry_all_accepted {Env : Type} (react : ∀ c : call, Env → resp c * Env)
    failed config slow_mode env :
  accepts_creates react →
  failed ≠ [] →
  ∃ env' tr,
    run react (Org.main_retry failed config slow_mode) env = (Ok [], env', tr) ∧
    rounds tr = 1%nat ∧
    length (item_calls tr) = length failed ∧
    last (calls tr) = Some (print success_message).
Proof.
  intros Haccept Hfailed. destruct failed as [|t failed]; [done|].
  unfold Org.main_retry. fold (retrying_message (t :: failed)).
  rewrite run_print, run_sleep, run_bind.
  change (py_range 0 Org.MAX_RETRIES) with [0; 1; 2].
  destruct (retry_rounds_when_accepted react 0 [1; 2] (t :: failed) config slow_mode
              (react (sleep Org.RETRY_DELAY)
                 (react (print (retrying_message (t :: failed))) env).2).2 Haccept)
    as (env1 & tr1 & -> & Hrounds & _ & Hitems & Hlast).
  eexists _, _. split; [done|].
  rewrite app_nil_r, !rounds_cons, !item_calls_cons_other, Hrounds, Hitems by done.
  split; [done|]. split; [done|].
  change (calls (?x :: ?y :: tr1)) with ([ev_call x; ev_call y] ++ calls tr1).
  by rewrite last_app, Hlast.
Qed.

Lemma global_retry_all_accepted_witness :
  ∃ env' tr,
    run (Scenario.react_service Scenario.healthy) (Org.main_retry two_tasks ∅ false) () =
      (Ok [], env', tr) ∧
    rounds tr = 1%nat ∧
    length (item_calls tr) = length two_tasks ∧
    last (calls tr) = Some (print success_message).
Proof. apply global_retry_all_accepted; [apply healthy_accepts_creates|done]. Defined.

(** X24: against a service that refuses every create with an error that
    is not a conflict, the global retry of a list that is not empty runs
    all [MAX_RETRIES] rounds, each with one remote call for each task,
    waits [RETRY_DELAY] once before the rounds and once after each of
    them, and returns the list unchanged after the final report. *)
Theorem global_retry_all_refused {Env : Type} (react : ∀ c : call, Env → resp c * Env)
    failed config slow_mode env :
  refuses_creates react →
  failed ≠ [] →
  ∃ env' tr,
    run react (Org.main_retry failed config slow_mode) env = (Ok failed, env', tr) ∧
    rounds tr = Z.to_nat Org.MAX_RETRIES ∧
    round_waits tr = S (Z.to_nat Org.MAX_RETRIES) ∧
    length (item_calls tr) = (Z.to_nat Org.MAX_RETRIES * length failed)%nat ∧
    last (calls tr) = Some (print (Org.final_report failed)).
Proof.
  intros Hrefuse Hfailed. destruct failed as [|t failed]; [done|].
  unfold Org.main_retry. fold (retrying_message (t :: failed)).
  rewrite run_print, run_sleep, run_bind.
  destruct (retry_rounds_when_refused react (py_range 0 Org.MAX_RETRIES) t failed
              config slow_mode
              (react (sleep Org.RETRY_DELAY)
                 (react (print (retrying_message (t :: failed))) env).2).2 Hrefuse)
    as (env1 & tr1 & -> & Hrounds & Hwaits & Hitems).
  rewrite run_print. eexists _, _. split; [done|].
  change (length (py_range 0 Org.MAX_RETRIES)) with (Z.to_nat Org.MAX_RETRIES) in *.
  assert (is_round_start (print (retrying_message (t :: failed))) = false) as Hretrying
    by reflexivity.
  assert (is_round_start (print (Org.final_report (t :: failed))) = false) as Hreport
    by reflexivity.
  rewrite !rounds_cons, !round_waits_cons, rounds_app, round_waits_app,
    !rounds_cons, !round_waits_cons, Hretrying, Hreport, Hrounds, Hwaits,
    !item_calls_cons_other, item_calls_app, item_calls_cons_other, length_app, Hitems
    by done.
  change (rounds []) with 0%nat. change (round_waits []) with 0%nat.
  change (Z.to_nat Org.MAX_RETRIES) with 3%nat.
  split; [simpl; lia|]. split; [simpl; lia|]. split; [simpl; lia|].
  change (calls (?x :: ?y :: tr1 ++ [?z]))
    with ([ev_call x; ev_call y] ++ calls (tr1 ++ [z])).
  by rewrite calls_app, !last_app.
Qed.

Lemma global_retry_all_refused_witness :
  ∃ env' tr,
    run (Scenario.react_service (Scenario.refusing server_error))
        (Org.main_retry two_tasks ∅ false) () = (Ok two_tasks, env', tr) ∧
    rounds tr = Z.to_nat Org.MAX_RETRIES ∧
    round_waits tr = S (Z.to_nat Org.MAX_RETRIES) ∧
    length (item_calls tr) = (Z.to_nat Org.MAX_RETRIES * length two_tasks)%nat ∧
    last (calls tr) = Some (print (Org.final_report two_tasks)).
Proof. apply global_retry_all_refused; [apply refusing_refuses_creates|done]. Defined.

(** ** Batches against any service *)

Lemma quiet_creates_only {A B : Type} (p : prog A) (f : A → prog B) targets :
  quiet p → (∀ a, creates_only targets (f a)) → creates_only targets (p ≫= f).
Proof.
  intros Hp Hf. induction Hp as [a|c k Hc _ IH]; [apply Hf|].
  change (Vis c k ≫= f) with (Vis c (λ r, k r ≫= f)).
  apply creates_only_other; [by apply not_item_no_target|]. apply IH.
Qed.

(** One step of the analysis of a program whose calls create nothing. *)
Ltac no_more_creates :=
  repeat (simpl;
          match goal with
          | |- creates_only [] (Ret _) => apply creates_only_ret
          | |- creates_only [] (mret ?a) => apply (creates_only_ret a)
          | |- creates_only [] (py_print _) => unfold py_print
          | |- creates_only [] (time_sleep _) => unfold time_sleep
          | |- creates_only [] (Raise _) => apply creates_only_raise
          | |- creates_only [] (Vis _ _) =>
              apply creates_only_other; [done|]; intros ?
          | |- context [match ?x with _ => _ end] => is_var x; destruct x
          | |- context [decide ?P] => destruct (decide P)
          | |- context [str_contains ?a ?b] => destruct (str_contains a b)
          end).

Lemma org_create_junk_file_creates_only repo file_index file_size config :
  creates_only [(repo, file_name_of config file_index)]
    (Org.create_junk_file repo file_index file_size config).
Proof.
  unfold Org.create_junk_file.
  apply quiet_creates_only; [apply random_string_newlined_quiet|]. intros content.
  simpl. apply creates_only_create. intros r. no_more_creates.
Qed.

Lemma repo_create_junk_file_creates_only repo file_index file_size config :
  creates_only [(repo, file_name_of config file_index)]
    (Repo.create_junk_file repo file_index file_size config).
Proof.
  unfold Repo.create_junk_file.
  apply quiet_creates_only; [apply random_string_newlined_quiet|]. intros content.
  simpl. apply creates_only_create. intros r. no_more_creates.
Qed.

Lemma org_collect_result_creates_only slow_mode future failed_files :
  creates_only [] (Org.collect_result slow_mode future failed_files).
Proof. unfold Org.collect_result, when, time_sleep. no_more_creates. Qed.

Lemma repo_collect_result_creates_only slow_mode future u :
  creates_only [] (Repo.collect_result slow_mode future u).
Proof. unfold Repo.collect_result, when, time_sleep, py_print. no_more_creates. Qed.

Section Creates.
Context {Env R St : Type}.
Variable react : ∀ c : call, Env → resp c * Env.
Variable body : outcome R → St → prog St.
Hypothesis body_creates_nothing : ∀ future s, creates_only [] (body future s).

Lemma creates_inv_step batch ch (p p' : pool Env R St) :
  creates_inv batch p →
  pool_step react body ch p = Some p' →
  creates_inv batch p'.
Proof.
  destruct p as [env tr width q r f m].
  intros (to_queue & to_run & Hq & Hr & Hm & Hperm). simpl in *.
  destruct ch as [|i|j|]; simpl.
  - destruct Hq as [|targets item to_queue rest Hitem Hq]; [done|].
    case_decide; [|done]. intros [= <-].
    exists to_queue, (to_run ++ [targets]). simpl.
    split; [done|]. split; [by apply Forall2_app; [|constructor]|].
    split; [done|].
    rewrite <- Hperm, concat_app. simpl. rewrite app_nil_r.
    by rewrite <- !(assoc_L (++)).
  - destruct (r !! i) as [item|] eqn:Hi; [|done].
    destruct (Forall2_lookup_r _ _ _ _ _ Hr Hi) as (targets & Hti & Hitem).
    destruct Hitem as [a|e|repo path message content k Hk|c k targets Hc Hk].
    + intros [= <-]. exists to_queue, (delete i to_run). simpl.
      split; [done|]. split; [by apply Forall2_delete|].
      split; [done|]. by rewrite concat_delete_nil.
    + intros [= <-]. exists to_queue, (delete i to_run). simpl.
      split; [done|]. split; [by apply Forall2_delete|].
      split; [done|]. by rewrite concat_delete_nil.
    + destruct (react (create_file repo path message content) env) as [x env1].
      intros [= <-].
      exists to_queue, (<[i := []]> to_run). simpl.
      split; [done|]. split; [by apply Forall2_insert|].
      split; [done|].
      rewrite created_snoc. simpl.
      rewrite <- Hperm, (concat_insert_nil to_run i _ Hti).
      by rewrite <- !(assoc_L (++)).
    + destruct (react c env) as [x env1]. intros [= <-].
      exists to_queue, (<[i := targets]> to_run). simpl.
      split; [done|]. split; [by apply Forall2_insert|].
      split; [done|].
      rewrite created_snoc, Hc, app_nil_r. by rewrite list_insert_id.
  - destruct m as [s|s b|s e]; [|done..]. destruct (f !! j) as [future|] eqn:Hj; [|done].
    intros [= <-]. exists to_queue, to_run. simpl. by auto.
  - destruct m as [s|s b|s e]; [done| |done].
    inversion Hm as [a Ha|e He|? ? ? ? ? ? Hnil|c k targets Hc Hk Hvis]; subst.
    + intros [= <-]. by exists to_queue, to_run.
    + intros [= <-]. by exists to_queue, to_run.
    + destruct (react c env) as [x env1]. intros [= <-].
      exists to_queue, to_run. simpl.
      rewrite created_snoc, Hc, app_nil_r. by auto.
Qed.

(** When the batch is over, every file of the batch has been created
    exactly once. *)
Lemma creates_inv_result batch sched (p p' : pool Env R St) :
  creates_inv batch p →
  pool_exec react body sched p = Some p' →
  is_Some (pool_result p') →
  created (pool_trace p') ≡ₚ batch.
Proof.
  intros Hinv Hexec Hresult.
  assert (creates_inv batch p') as (to_queue & to_run & Hq & Hr & _ & Hperm).
  { eapply (pool_exec_invariant react body (creates_inv batch)); [|done..].
    intros ch p1 p2. apply creates_inv_step. }
  destruct Hresult as [result Hresult]. unfold pool_result in Hresult.
  destruct (queued p'); [|done]. destruct (running p'); [|by destruct (main p')].
  apply Forall2_nil_inv_r in Hq as ->. apply Forall2_nil_inv_r in Hr as ->.
  by rewrite !app_nil_r in Hperm.
Qed.

End Creates.

Lemma creates_inv_start {Env R St : Type} (env : Env) (tr : list event) width
    (items : list (prog R)) (targets : list (Repository * string)) (s : St) :
  created tr = [] →
  Forall2 (λ target item, creates_only [target] item) targets items →
  creates_inv targets (pool_start env tr width items s).
Proof.
  intros Htr Hitems. exists ((λ target, [target]) <$> targets), []. simpl.
  split; [by apply Forall2_fmap_l|]. split; [constructor|]. split; [done|].
  rewrite Htr. simpl. clear.
  induction targets as [|t targets IH]; simpl; [done|]. by rewrite IH.
Qed.

Lemma quiet_gives_back {A : Type} (p : prog A) (f : A → prog py_result) (t : task) :
  quiet p → (∀ a, gives_back t (f a)) → gives_back t (p ≫= f).
Proof.
  intros Hp Hf. induction Hp as [a|c k Hc _ IH]; [apply Hf|].
  change (Vis c k ≫= f) with (Vis c (λ r, k r ≫= f)).
  apply gives_back_call. apply IH.
Qed.

Lemma create_junk_file_gives_back repo file_index file_size config :
  gives_back (repo, file_index, file_size)
    (Org.create_junk_file repo file_index file_size config).
Proof.
  unfold Org.create_junk_file.
  apply quiet_gives_back; [apply random_string_newlined_quiet|]. intros content.
  repeat (simpl;
          match goal with
          | |- gives_back _ (Ret _) => by apply gives_back_ret
          | |- gives_back _ (mret ?a) => by apply (gives_back_ret _ a)
          | |- gives_back _ (Raise _) => apply gives_back_raise
          | |- gives_back _ (Vis _ _) => apply gives_back_call; intros ?
          | |- context [match ?x with _ => _ end] => is_var x; destruct x
          | |- context [decide ?P] => destruct (decide P)
          | |- context [str_contains ?a ?b] => destruct (str_contains a b)
          end).
Qed.

Lemma collect_result_extends_by slow_mode future failed_files t :
  holds t future →
  extends_by failed_files t (Org.collect_result slow_mode future failed_files).
Proof.
  destruct future as [[|t']|e]; simpl.
  - intros _. destruct slow_mode; simpl; [|constructor].
    apply extends_by_call. intros []. constructor.
  - intros ->. destruct slow_mode; simpl; [|constructor].
    apply extends_by_call. intros []. constructor.
  - intros _. constructor.
Qed.

Section Failures.
Context {Env : Type} (react : ∀ c : call, Env → resp c * Env).

Lemma failures_inv_step slow_mode batch ch p p' :
  failures_inv batch p →
  pool_step react (Org.collect_result slow_mode) ch p = Some p' →
  failures_inv batch p'.
Proof.
  destruct p as [env tr width q r f m].
  intros (dropped & done_ & in_run & in_queue & Hq & Hr & Hf & Hm). simpl in *.
  destruct ch as [|i|j|]; simpl.
  - destruct Hq as [|t item in_queue rest Hitem Hq]; [done|].
    case_decide; [|done]. intros [= <-].
    exists dropped, done_, (in_run ++ [t]), in_queue. simpl.
    split; [done|]. split; [by apply Forall2_app; [|constructor]|].
    split; [done|].
    rewrite <- !(assoc_L (++) in_run). done.
  - destruct (r !! i) as [item|] eqn:Hi; [|done].
    destruct (Forall2_lookup_r _ _ _ _ _ Hr Hi) as (t & Hti & Hitem).
    assert ((done_ ++ [t]) ++ delete i in_run ++ in_queue ≡ₚ
            done_ ++ in_run ++ in_queue) as Hmove.
    { rewrite (delete_Permutation in_run i t Hti) at 2.
      rewrite <- (assoc_L (++) done_). simpl. by rewrite Permutation_middle. }
    destruct Hitem as [result Hresult|e|c k Hk].
    + intros [= <-]. exists dropped, (done_ ++ [t]), (delete i in_run), in_queue. simpl.
      split; [done|]. split; [by apply Forall2_delete|].
      split; [by apply Forall2_app; [|constructor]|].
      destruct m as [s|s b|s e].
      * by rewrite Hmove.
      * destruct Hm as (t' & Hb & Hperm). exists t'. split; [done|].
        by rewrite Hmove.
      * by rewrite Hmove.
    + intros [= <-]. exists dropped, (done_ ++ [t]), (delete i in_run), in_queue. simpl.
      split; [done|]. split; [by apply Forall2_delete|].
      split; [by apply Forall2_app; [|constructor]|].
      destruct m as [s|s b|s e'].
      * by rewrite Hmove.
      * destruct Hm as (t' & Hb & Hperm). exists t'. split; [done|].
        by rewrite Hmove.
      * by rewrite Hmove.
    + destruct (react c env) as [x env1]. intros [= <-].
      exists dropped, done_, in_run, in_queue. simpl.
      split; [done|]. split; [|done].
      rewrite <- (list_insert_id in_run i t Hti). by apply Forall2_insert.
  - destruct m as [s|s b|s e]; [|done..]. destruct (f !! j) as [future|] eqn:Hj; [|done].
    intros [= <-].
    destruct (Forall2_lookup_r _ _ _ _ _ Hf Hj) as (t & Htj & Hfuture).
    exists dropped, (delete j done_), in_run, in_queue. simpl.
    split; [done|]. split; [done|]. split; [by apply Forall2_delete|].
    exists t. split; [by apply collect_result_extends_by|].
    by rewrite (delete_Permutation done_ j t Htj) in Hm.
  - destruct m as [s|s b|s e]; [done| |done]. destruct Hm as (t & Hb & Hperm).
    inversion Hb as [Hs|Hs|e He|c k Hk Hvis]; subst.
    + intros [= <-]. exists (dropped ++ [t]), done_, in_run, in_queue. simpl.
      split; [done|]. split; [done|]. split; [done|].
      by rewrite <- !(assoc_L (++)).
    + intros [= <-]. exists dropped, done_, in_run, in_queue. simpl.
      split; [done|]. split; [done|]. split; [done|].
      rewrite <- Hperm, <- !(assoc_L (++)). f_equiv. simpl.
      by rewrite Permutation_middle.
    + intros [= <-]. exists (dropped ++ [t]), done_, in_run, in_queue. simpl.
      split; [done|]. split; [done|]. split; [done|].
      by rewrite <- !(assoc_L (++)).
    + destruct (react c env) as [x env1]. intros [= <-].
      exists dropped, done_, in_run, in_queue. simpl.
      split; [done|]. split; [done|]. split; [done|]. exists t. by split.
Qed.

(** When the batch is over, the operations collected as failed are
    operations of the batch, each at most once. *)
Lemma failures_inv_result slow_mode batch sched p p' failed_files raised :
  failures_inv batch p →
  pool_exec react (Org.collect_result slow_mode) sched p = Some p' →
  pool_result p' = Some (failed_files, raised) →
  failed_files ⊆+ batch.
Proof.
  intros Hinv Hexec Hresult.
  assert (failures_inv batch p')
    as (dropped & done_ & in_run & in_queue & _ & _ & _ & Hm).
  { eapply (pool_exec_invariant react _ (failures_inv batch)); [|done..].
    intros ch p1 p2. apply failures_inv_step. }
  unfold pool_result in Hresult.
  destruct (queued p'); [|done]. destruct (running p'); [|by destruct (main p')].
  destruct (main p') as [s|s b|s e]; [|done|].
  - destruct (finished p'); [|done]. injection Hresult as <- <-.
    rewrite <- Hm. by apply submseteq_inserts_r.
  - injection Hresult as <- <-. rewrite <- Hm. by apply submseteq_inserts_r.
Qed.

End Failures.

Lemma failures_inv_start {Env : Type} (env : Env) (tr : list event) width
    repo num_files file_size config :
  failures_inv (batch_tasks repo num_files file_size)
    (pool_start env tr width (Org.file_futures repo num_files file_size config) []).
Proof.
  exists [], [], [], (batch_tasks repo num_files file_size). simpl.
  split; [|by repeat constructor].
  unfold batch_tasks, Org.file_futures.
  apply Forall2_fmap, Forall_Forall2_diag, Forall_forall. intros i _.
  apply create_junk_file_gives_back.
Qed.

(** ** [process_repo] against any service *)

Section AnyService.
Context {Env : Type} (react : ∀ c : call, Env → resp c * Env).

(** The setup of [process_repo], by the answer to the creation of the
    repository. *)
Lemma process_repo_setup_run repo_index num_files org config slow_mode env :
  run react (Org.process_repo_setup repo_index num_files org config slow_mode) env =
  let '(answer, env0) := react (create_repo_call org config repo_index) env in
  match answer with
  | Ok repo =>
      let '(_, env1) := react (print ("Created repository: " +:+
                                      Org.repo_name_of config repo_index)) env0 in
      (if decide (Org.max_workers_files slow_mode num_files ≤ 0)
       then Exn (PyException "max_workers must be greater than 0")
       else Ok repo,
       env1,
       [Ev (create_repo_call org config repo_index) (Ok repo);
        Ev (print ("Created repository: " +:+ Org.repo_name_of config repo_index)) ()])
  | Exn err => (Exn err, env0, [Ev (create_repo_call org config repo_index) (Exn err)])
  end.
Proof.
  unfold Org.process_repo_setup, ThreadPoolExecutor, create_repo_call. simpl.
  fold (repo_description_of config). fold (private_repo_of config).
  destruct (react (create_repo _ _ _ _ _) env) as [[repo|err] env0]; simpl; [|done].
  destruct (react (print _) env0) as [[] env1]; simpl.
  by destruct (decide (Org.max_workers_files slow_mode num_files ≤ 0)).
Qed.

Lemma batch_empty repo config num_files file_size :
  num_files ≤ 0 →
  batch_tasks repo num_files file_size = [] ∧ batch_targets repo config num_files = [].
Proof.
  intros Hn. unfold batch_tasks, batch_targets, py_range.
  by replace (Z.to_nat (num_files + 1 - 1)) with 0%nat by lia.
Qed.

Lemma file_futures_create repo num_files file_size config :
  Forall2 (λ target item, creates_only [target] item)
    (batch_targets repo config num_files)
    (Org.file_futures repo num_files file_size config).
Proof.
  unfold batch_targets, Org.file_futures.
  apply Forall2_fmap, Forall_Forall2_diag, Forall_forall. intros i _.
  apply org_create_junk_file_creates_only.
Qed.

End AnyService.

(** X25: whatever the service answers and however the workers
    interleave, when [process_repo] returns after the repository was
    created, the failures it returns are operations of its own batch,
    each at most once, and every file of the batch has been the target
    of exactly one create; when the creation of the repository fails it
    returns no failure and creates no file. *)
Theorem batch_safety {Env : Type} (react : ∀ c : call, Env → resp c * Env)
    sched repo_index num_files file_size org config slow_mode env failed_files env' tr :
  Org.process_repo react sched repo_index num_files file_size org config slow_mode env =
    Some (failed_files, env', tr) →
  match (react (create_repo_call org config repo_index) env).1 with
  | Ok repo =>
      failed_files ⊆+ batch_tasks repo num_files file_size ∧
      created tr ≡ₚ batch_targets repo config num_files
  | Exn _ => failed_files = [] ∧ created tr = []
  end.
Proof.
  unfold Org.process_repo. rewrite process_repo_setup_run.
  destruct (react (create_repo_call org config repo_index) env) as [[repo|err] env0];
    simpl.
  - destruct (react (print _) env0) as [[] env1].
    destruct (decide (Org.max_workers_files slow_mode num_files ≤ 0)) as [Hwidth|Hwidth].
    + simpl. destruct (react (print _) env1) as [[] env2]. intros [= <- <- <-].
      destruct (batch_empty repo config num_files file_size) as [-> ->]; [|done].
      unfold Org.max_workers_files in Hwidth. destruct slow_mode; lia.
    + destruct (pool_exec react (Org.collect_result slow_mode) sched _) as [p|] eqn:Hexec;
        [|done].
      simpl.
      destruct (pool_result p) as [[s raised]|] eqn:Hresult; [|done]. simpl.
      assert (s ⊆+ batch_tasks repo num_files file_size) as Hs.
      { eapply (failures_inv_result react); [|exact Hexec|exact Hresult].
        apply failures_inv_start. }
      assert (created (pool_trace p) ≡ₚ batch_targets repo config num_files) as Hcreated.
      { eapply (creates_inv_result react (Org.collect_result slow_mode));
          [apply org_collect_result_creates_only| |exact Hexec|by rewrite Hresult].
        apply creates_inv_start; [done|apply file_futures_create]. }
      destruct raised as [err|].
      * destruct (react (print _) (pool_env p)) as [[] env2]. intros [= <- <- <-].
        by rewrite created_snoc, app_nil_r.
      * by intros [= <- <- <-].
  - destruct (react (print _) env0) as [[] env2]. by intros [= <- <- <-].
Qed.

Lemma batch_safety_witness :
  [(Scenario.the_repo, 1, 1)] ⊆+ batch_tasks Scenario.the_repo 1 1 ∧
  created refused_batch_trace ≡ₚ batch_targets Scenario.the_repo ∅ 1.
Proof.
  apply (batch_safety (Scenario.react_service (Scenario.refusing server_error))
           refused_schedule 1 1 1 acme ∅ true () [(Scenario.the_repo, 1, 1)] ()
           refused_batch_trace).
  reflexivity.
Defined.

(** X26: when the creation of the repository is refused, [process_repo]
    returns the empty list under every schedule, after the refused call
    and the message that reports it: the pool is never built and no file
    is attempted. *)
Theorem creation_refused_skips_batch {Env : Type} (react : ∀ c : call, Env → resp c * Env)
    sched repo_index num_files file_size org config slow_mode env err :
  (react (create_repo_call org config repo_index) env).1 = Exn err →
  ∃ env',
    Org.process_repo react sched repo_index num_files file_size org config slow_mode env =
    Some ([], env',
          [Ev (create_repo_call org config repo_index) (Exn err);
           Ev (print ("Error creating repository '" +:+
                      Org.repo_name_of config repo_index +:+ "': " +:+ str_exn err)) ()]).
Proof.
  intros Hrefused. unfold Org.process_repo. rewrite process_repo_setup_run.
  destruct (react (create_repo_call org config repo_index) env) as [answer env0].
  simpl in Hrefused. subst answer. simpl.
  destruct (react (print _) env0) as [[] env2]. by exists env2.
Qed.

Lemma creation_refused_skips_batch_witness :
  ∃ env',
    Org.process_repo (Scenario.react_service refusing_repository) interleaved
      1 2 1 acme ∅ false () =
    Some ([], env',
          [Ev (create_repo_call acme ∅ 1) (Exn repository_refused);
           Ev (print ("Error creating repository '" +:+ Org.repo_name_of ∅ 1 +:+ "': " +:+
                      str_exn repository_refused)) ()]).
Proof. by apply creation_refused_skips_batch. Defined.

(** X27: in fast mode a batch of no files (or of a negative number of
    files) never gets its pool: the constructor refuses the width, the
    handler of [process_repo] catches that, and the repository that was
    just created is reported as one that could not be created.  The
    list returned is empty, under every schedule. *)
Theorem empty_fast_batch_reported_as_error {Env : Type}
    (react : ∀ c : call, Env → resp c * Env)
    sched repo_index num_files file_size org config env repo :
  num_files ≤ 0 →
  (react (create_repo_call org config repo_index) env).1 = Ok repo →
  ∃ env',
    Org.process_repo react sched repo_index num_files file_size org config false env =
    Some ([], env',
          [Ev (create_repo_call org config repo_index) (Ok repo);
           Ev (print ("Created repository: " +:+ Org.repo_name_of config repo_index)) ();
           Ev (print ("Error creating repository '" +:+
                      Org.repo_name_of config repo_index +:+
                      "': max_workers must be greater than 0")) ()]).
Proof.
  intros Hn Hcreated. unfold Org.process_repo. rewrite process_repo_setup_run.
  destruct (react (create_repo_call org config repo_index) env) as [answer env0].
  simpl in Hcreated. subst answer. simpl.
  destruct (react (print _) env0) as [[] env1].
  rewrite decide_True by done. simpl.
  destruct (react (print _) env1) as [[] env2]. by exists env2.
Qed.

Lemma empty_fast_batch_reported_as_error_witness :
  ∃ env',
    Org.process_repo (Scenario.react_service Scenario.healthy) [] 1 0 1 acme ∅ false () =
    Some ([], env',
          [Ev (create_repo_call acme ∅ 1) (Ok Scenario.the_repo);
           Ev (print ("Created repository: " +:+ Org.repo_name_of ∅ 1)) ();
           Ev (print ("Error creating repository '" +:+ Org.repo_name_of ∅ 1 +:+
                      "': max_workers must be greater than 0")) ()]).
Proof. by apply empty_fast_batch_reported_as_error. Defined.

(** The lemma on a batch of two files in fast mode, after the first
    work item was started. *)
Lemma process_repo_never_stuck_witness :
  ∃ later p',
    pool_exec (Scenario.react_service Scenario.healthy) (Org.collect_result false)
      ([Start] ++ later)
      (Org.process_repo_pool Scenario.the_repo 2 1 ∅ false () []) = Some p' ∧
    is_Some (pool_result p').
Proof.
  eapply (process_repo_never_stuck (Scenario.react_service Scenario.healthy)
            Scenario.the_repo 2 1 ∅ false () [] [Start]).
  - reflexivity.
  - reflexivity.
Defined.

(** ** The batch of the single-repository script *)

Section RepoBatch.
Context {Env : Type} (react : ∀ c : call, Env → resp c * Env).

Lemma repo_collect_result_quiet slow_mode future u :
  quiet (Repo.collect_result slow_mode future u).
Proof.
  unfold Repo.collect_result.
  destruct future as [[]|e], slow_mode; simpl;
    repeat (first [apply quiet_ret | apply quiet_call; [done|]; intros []]).
Qed.

Lemma never_leaves_step slow_mode ch (p p' : pool Env unit unit) :
  never_leaves p →
  pool_step react (Repo.collect_result slow_mode) ch p = Some p' →
  never_leaves p'.
Proof.
  destruct p as [env tr width q r f m]. unfold never_leaves. simpl.
  intros Hm. destruct ch as [|i|j|]; simpl.
  - destruct q; [done|]. case_decide; [|done]. by intros [= <-].
  - destruct (r !! i) as [[a|e|c k]|]; [| | |done].
    + by intros [= <-].
    + by intros [= <-].
    + destruct (react c env) as [x env1]. by intros [= <-].
  - destruct m as [s|s b|s e]; [|done..]. destruct (f !! j) as [future|]; [|done].
    intros [= <-]. simpl. apply repo_collect_result_quiet.
  - destruct m as [s|s b|s e]; [done| |done].
    destruct Hm as [a|c k Hc Hk].
    + by intros [= <-].
    + destruct (react c env) as [x env1]. intros [= <-]. simpl. apply Hk.
Qed.

Lemma repo_file_futures_create repo num_files file_size config :
  Forall2 (λ target item, creates_only [target] item)
    (batch_targets repo config num_files)
    (Repo.file_futures repo num_files file_size config).
Proof.
  unfold batch_targets, Repo.file_futures.
  apply Forall2_fmap, Forall_Forall2_diag, Forall_forall. intros i _.
  apply repo_create_junk_file_creates_only.
Qed.

End RepoBatch.

(** X29: in the single-repository script, when the pool is at least 1
    wide, the batch can always be brought to its end, and however the
    workers interleave and whatever the service answers, [main] comes
    out of it normally: what a work item raises is printed by the loop
    and goes no further; by then every file of the batch has been the
    target of exactly one create. *)
Theorem repo_dispatch_safety {Env : Type} (react : ∀ c : call, Env → resp c * Env)
    repo num_files file_size config slow_mode env :
  0 < Repo.max_workers_of slow_mode num_files →
  (∃ sched, is_Some (Repo.main_dispatch react sched repo num_files file_size
                       config slow_mode env)) ∧
  (∀ sched o env' tr,
     Repo.main_dispatch react sched repo num_files file_size config slow_mode env =
       Some (o, env', tr) →
     o = Ok () ∧ created tr ≡ₚ batch_targets repo config num_files).
Proof.
  intros Hwidth. unfold Repo.main_dispatch, ThreadPoolExecutor.
  rewrite decide_False by lia. simpl. split.
  - destruct (pool_can_finish react (Repo.collect_result slow_mode)
                (Repo.main_pool repo num_files file_size config slow_mode env))
      as (sched & p & Hexec & Hresult); [done|].
    exists sched. rewrite Hexec. simpl.
    destruct Hresult as [[u raised] ->]. simpl. by destruct raised.
  - intros sched o env' tr.
    destruct (pool_exec react (Repo.collect_result slow_mode) sched _) as [p|] eqn:Hexec;
      [|done].
    simpl. destruct (pool_result p) as [[u raised]|] eqn:Hresult; [|done]. simpl.
    assert (never_leaves p) as Hmain.
    { assert (never_leaves (Repo.main_pool repo num_files file_size config slow_mode env))
        as Hstart by exact I.
      apply (pool_exec_invariant react _ never_leaves
               (never_leaves_step react slow_mode) _ _ _ Hstart Hexec). }
    assert (created (pool_trace p) ≡ₚ batch_targets repo config num_files) as Hcreated.
    { eapply (creates_inv_result react (Repo.collect_result slow_mode));
        [apply repo_collect_result_creates_only| |exact Hexec|by rewrite Hresult].
      apply creates_inv_start; [done|apply repo_file_futures_create]. }
    destruct raised as [err|].
    + unfold pool_result, never_leaves in *.
      destruct (queued p), (running p), (main p); try done.
      by destruct (finished p).
    + by intros [= <- <- <-].
Qed.

Lemma repo_dispatch_safety_witness :
  (∃ sched, is_Some (Repo.main_dispatch (Scenario.react_service dropping_on_update) sched
                       Scenario.the_repo 2 1 ∅ false ())) ∧
  (∀ sched o env' tr,
     Repo.main_dispatch (Scenario.react_service dropping_on_update) sched
       Scenario.the_repo 2 1 ∅ false () = Some (o, env', tr) →
     o = Ok () ∧ created tr ≡ₚ batch_targets Scenario.the_repo ∅ 2).
Proof. by apply repo_dispatch_safety. Defined.
